(** * Disk-usage scanner: a shallow embedding of [server.js]

    The development follows the source file top-down:

    - [Str]      the string primitives of JavaScript the scanner relies on
                 ([toLowerCase], [includes], [startsWith], [split]);
    - [Path]     Node's [path] module in its POSIX flavour ([normalize],
                 [join], [dirname], [extname], [basename]);
    - [JsObj]    a plain JavaScript object used as a dictionary, with the
                 properties it inherits from [Object.prototype];
    - the aggregator ([stats]), [getFolderName], [getFileDescription],
      the per-file bookkeeping of [scanDirectory], the walk itself,
      [stopScan], [startScan] and [formatScanResults];
    - [Server]   the task table shared by the connections: the handlers
                 of [stop_scan] and [close], and scans that start and end;
    - [Drives]   the handler of [GET /api/drives].

    Modelling conventions.

    - Strings are byte strings (UTF-8); [toLowerCase]/[toUpperCase] fold
      ASCII letters only, which is what JavaScript does to a string of
      ASCII characters.  A theorem that states the outcome of a folding
      takes the strings folded to be ASCII ([asciiString], [asciiNames],
      [asciiPaths]).
    - Numbers are mathematical integers ([Z]).  JavaScript numbers are
      IEEE doubles, whose sums are exact as long as they are integers that
      do not exceed 2^53.  A theorem that states a sum of sizes takes the
      sizes to be in that range ([exactSizes]).
    - The file system is a finite tree that does not change during a scan.
      Directory listings come with the entry kinds [readdirSync] reports
      ([withFileTypes]); a listing or a [statSync] that throws is [None].
    - The walk is an [async] function whose only suspension point is the
      [await] of the recursive call; between two suspension points
      JavaScript runs without interruption.  At every suspension point the
      environment may deliver a [stop_scan] request for the task. *)

From Stdlib Require Import ZArith Ascii List Bool Lia.
From Stdlib Require Import Sorting.Sorted Sorting.Permutation.
From stdpp Require Import gmap strings list fin_maps.

#[local] Set Warnings "-clear-no-such-hyp".
Local Open Scope Z_scope.

(* ===================================================================== *)
(** * Strings *)
(* ===================================================================== *)

Module Str.

Definition to_list (s : string) : list ascii :=
  Stdlib.Strings.String.list_ascii_of_string s.
Definition of_list (l : list ascii) : string :=
  Stdlib.Strings.String.string_of_list_ascii l.

Definition len (s : string) : Z := Z.of_nat (length (to_list s)).

(** [c.toLowerCase()] and [c.toUpperCase()] on one ASCII character. *)
Definition lower_char (c : ascii) : ascii :=
  let n := nat_of_ascii c in
  if ((65 <=? n)%nat && (n <=? 90)%nat)%bool then ascii_of_nat (n + 32) else c.
Definition upper_char (c : ascii) : ascii :=
  let n := nat_of_ascii c in
  if ((97 <=? n)%nat && (n <=? 122)%nat)%bool then ascii_of_nat (n - 32) else c.

Definition toLowerCase (s : string) : string := of_list (map lower_char (to_list s)).
Definition toUpperCase (s : string) : string := of_list (map upper_char (to_list s)).

(** [l.startsWith(p)] on character lists. *)
Fixpoint starts_with (p l : list ascii) : bool :=
  match p, l with
  | [], _ => true
  | _ :: _, [] => false
  | a :: p', b :: l' => if decide (a = b) then starts_with p' l' else false
  end.

Definition startsWith (s p : string) : bool := starts_with (to_list p) (to_list s).

(** [l.includes(p)]: [p] occurs somewhere in [l]. *)
Fixpoint includes_list (p l : list ascii) : bool :=
  starts_with p l ||
  match l with
  | [] => false
  | _ :: l' => includes_list p l'
  end.

Definition includes (s p : string) : bool := includes_list (to_list p) (to_list s).

(** [l.endsWith(p)]. *)
Definition ends_with (p l : list ascii) : bool := starts_with (rev p) (rev l).

(** [s.split(sep)] for a one-character separator: the pieces between
    the separators, empty pieces included. *)
Fixpoint split_on (sep : ascii) (l : list ascii) : list (list ascii) :=
  match l with
  | [] => [[]]
  | c :: r =>
      if decide (c = sep) then [] :: split_on sep r
      else match split_on sep r with
           | s :: ss => (c :: s) :: ss
           | [] => [[c]]
           end
  end.

(** [pieces.join(sep)]. *)
Fixpoint join_with (sep : ascii) (ps : list (list ascii)) : list ascii :=
  match ps with
  | [] => []
  | [p] => p
  | p :: ps' => p ++ sep :: join_with sep ps'
  end.

End Str.

(* ===================================================================== *)
(** * Node's [path] module (POSIX) *)
(* ===================================================================== *)

Module Path.

Definition slash : ascii := "/"%char.
Definition dot : ascii := "."%char.

(** [path.sep] *)
Definition sep : ascii := slash.

(** One step of [normalizeString]: [res] is the stack of segments kept
    so far, innermost segment first. *)
Definition push_segment (allowAboveRoot : bool)
    (res : list (list ascii)) (seg : list ascii) : list (list ascii) :=
  if decide (seg = []) then res
  else if decide (seg = [dot]) then res
  else if decide (seg = [dot; dot]) then
    match res with
    | [] => if allowAboveRoot then [seg] else []
    | top :: below =>
        if decide (top = [dot; dot])
        then (if allowAboveRoot then seg :: res else res)
        else below
    end
  else seg :: res.

Definition normalizeString (allowAboveRoot : bool) (l : list ascii)
  : list (list ascii) :=
  rev (fold_left (push_segment allowAboveRoot) (Str.split_on slash l) []).

Definition is_absolute (l : list ascii) : bool :=
  match l with
  | c :: _ => bool_decide (c = slash)
  | [] => false
  end.

Definition trailing_slash (l : list ascii) : bool :=
  match rev l with
  | c :: _ => bool_decide (c = slash)
  | [] => false
  end.

Definition normalize_list (l : list ascii) : list ascii :=
  match l with
  | [] => [dot]
  | _ =>
      let isAbsolute := is_absolute l in
      let body := Str.join_with slash (normalizeString (negb isAbsolute) l) in
      match body with
      | [] =>
          if isAbsolute then [slash]
          else if trailing_slash l then [dot; slash] else [dot]
      | _ =>
          let body' := if trailing_slash l then body ++ [slash] else body in
          if isAbsolute then slash :: body' else body'
      end
  end.

(** [path.normalize(p)] *)
Definition normalize (p : string) : string :=
  Str.of_list (normalize_list (Str.to_list p)).

(** [path.join(a, b)]: empty arguments are dropped, the others are
    glued with the separator and the result is normalized. *)
Definition join_list (a b : list ascii) : list ascii :=
  match a, b with
  | [], [] => [dot]
  | [], _ => normalize_list b
  | _, [] => normalize_list a
  | _, _ => normalize_list (a ++ slash :: b)
  end.

Definition join (a b : string) : string :=
  Str.of_list (join_list (Str.to_list a) (Str.to_list b)).

(** The right-to-left scans of [dirname], [basename] and [extname] all
    start by skipping the separators at the end of the path. *)
Fixpoint drop_slashes (r : list ascii) : list ascii :=
  match r with
  | c :: r' => if decide (c = slash) then drop_slashes r' else r
  | [] => []
  end.

(** Reads one path component off a reversed path: the component,
    reversed, and what is left from the separator on. *)
Fixpoint take_component (r : list ascii) : list ascii * list ascii :=
  match r with
  | c :: r' =>
      if decide (c = slash) then ([], r)
      else let '(comp, rest) := take_component r' in (c :: comp, rest)
  | [] => ([], [])
  end.

(** [path.dirname(p)].  The scan never looks at the first character:
    the loop of the source runs from the last index down to index 1. *)
Definition dirname_list (l : list ascii) : list ascii :=
  match l with
  | [] => [dot]
  | c0 :: t =>
      let hasRoot := bool_decide (c0 = slash) in
      match snd (take_component (drop_slashes (rev t))) with
      | [] => if hasRoot then [slash] else [dot]
      | _ :: before =>
          (* a separator was found at index [1 + length before] *)
          match before with
          | [] => if hasRoot then [slash; slash] else [c0]
          | _ => c0 :: rev before
          end
      end
  end.

Definition dirname (p : string) : string :=
  Str.of_list (dirname_list (Str.to_list p)).

(** [path.isAbsolute(p)] *)
Definition isAbsolute (p : string) : bool := is_absolute (Str.to_list p).

(** The last component of a path, separators at the end ignored. *)
Definition last_component (l : list ascii) : list ascii :=
  rev (fst (take_component (drop_slashes (rev l)))).

(** Position of the last dot of a component, as the pieces before and
    from that dot. *)
Fixpoint split_last_dot (l : list ascii) : option (list ascii * list ascii) :=
  match l with
  | [] => None
  | c :: r =>
      match split_last_dot r with
      | Some (pre, ext) => Some (c :: pre, ext)
      | None => if decide (c = dot) then Some ([], l) else None
      end
  end.

(** [path.extname(p)]: from the last dot of the last component to its
    end; empty when there is no dot, when the only dot starts the
    component, or when the component is [..]. *)
Definition extname_list (l : list ascii) : list ascii :=
  let comp := last_component l in
  match split_last_dot comp with
  | None => []
  | Some (pre, ext) =>
      match pre with
      | [] => []
      | _ => if decide (comp = [dot; dot]) then [] else ext
      end
  end.

Definition extname (p : string) : string :=
  Str.of_list (extname_list (Str.to_list p)).

(** [path.basename(p, suffix)] for a path without separators at its
    end (every path the scanner passes comes out of [join]): the last
    component, without [suffix] when the component ends with it and is
    longer than it. *)
Definition basename_list (l suffix : list ascii) : list ascii :=
  if decide (suffix ≠ [] ∧ suffix = l) then []
  else
    let comp := last_component l in
    if decide (suffix = []) then comp
    else if Str.ends_with suffix comp
              && bool_decide (length suffix < length comp)%nat
    then take (length comp - length suffix)%nat comp
    else comp.

Definition basename (p suffix : string) : string :=
  Str.of_list (basename_list (Str.to_list p) (Str.to_list suffix)).

End Path.

(* ===================================================================== *)
(** * Plain objects used as dictionaries *)
(* ===================================================================== *)

(** [stats.fileTypes], [stats.folders] and [stats.applications] are object
    literals [{}]: their own properties form a finite map, and a read
    [obj[k]] that finds no own property continues in [Object.prototype].
    The keys below are the properties every object inherits from there;
    all of them are functions, or the prototype itself for [__proto__],
    hence truthy.  [Object.entries] lists own properties only. *)

Module JsObj.

Definition prototype_keys : list string :=
  [ "constructor"; "__defineGetter__"; "__defineSetter__"; "hasOwnProperty";
    "__lookupGetter__"; "__lookupSetter__"; "isPrototypeOf";
    "propertyIsEnumerable"; "toString"; "valueOf"; "__proto__";
    "toLocaleString" ].

Definition inherited (k : string) : bool := bool_decide (k ∈ prototype_keys).

Section dict.
Context {V : Type}.

(** The test [obj[k]] of [if (!obj[k])]: own values are records,
    inherited ones built-ins, both truthy. *)
Definition truthy_at (m : gmap string V) (k : string) : bool :=
  bool_decide (is_Some (m !! k)) || inherited k.

(** [if (!obj[k]) { obj[k] = fresh; }] *)
Definition ensure (k : string) (fresh : V) (m : gmap string V) : gmap string V :=
  if truthy_at m k then m else <[k := fresh]> m.

(** [obj[k].field = ...], always run after [ensure]: when [k] is an
    own property its record is updated; otherwise [obj[k]] is the
    inherited built-in, the write lands on that built-in and the
    dictionary keeps its own properties. *)
Definition update (f : V → V) (k : string) (m : gmap string V) : gmap string V :=
  alter f k m.

(** [Object.entries(obj)]; the properties proved below do not depend on
    the order of the entries. *)
Definition entries (m : gmap string V) : list (string * V) := map_to_list m.
End dict.

(** A table written as an object literal with string values, read with
    [table[k]]. *)
Inductive value :=
| Str (s : string)          (** a string *)
| Builtin (k : string).     (** the built-in inherited under key [k] *)

Definition truthy (v : value) : bool :=
  match v with
  | Str s => negb (bool_decide (s = ""))
  | Builtin _ => true
  end.

Fixpoint assoc (tbl : list (string * string)) (k : string) : option string :=
  match tbl with
  | [] => None
  | (k', v) :: tbl' => if decide (k' = k) then Some v else assoc tbl' k
  end.

Definition table_get (tbl : list (string * string)) (k : string) : option value :=
  match assoc tbl k with
  | Some v => Some (Str v)
  | None => if inherited k then Some (Builtin k) else None
  end.

End JsObj.

(* ===================================================================== *)
(** * The aggregator *)
(* ===================================================================== *)

Record fileTypeEntry := {
  ft_name : string;
  ft_count : Z;
  ft_size : Z;
  ft_description : JsObj.value
}.

Record folderEntry := {
  fo_name : JsObj.value;
  fo_path : string;
  fo_size : Z
}.

Record appEntry := {
  ap_name : string;
  ap_path : string;
  ap_size : Z
}.

(** [scanStats] of [startScan]. *)
Record stats := {
  totalFiles : Z;
  totalSize : Z;
  fileTypes : gmap string fileTypeEntry;
  folders : gmap string folderEntry;
  applications : gmap string appEntry;
  scannedCount : Z;
  errorCount : Z
}.

Definition scanStats : stats := {|
  totalFiles := 0; totalSize := 0;
  fileTypes := ∅; folders := ∅; applications := ∅;
  scannedCount := 0; errorCount := 0
|}.

Definition with_totals (f s : Z) (st : stats) : stats :=
  {| totalFiles := f; totalSize := s;
     fileTypes := fileTypes st; folders := folders st;
     applications := applications st;
     scannedCount := scannedCount st; errorCount := errorCount st |}.

Definition with_fileTypes (m : gmap string fileTypeEntry) (st : stats) : stats :=
  {| totalFiles := totalFiles st; totalSize := totalSize st;
     fileTypes := m; folders := folders st;
     applications := applications st;
     scannedCount := scannedCount st; errorCount := errorCount st |}.

Definition with_folders (m : gmap string folderEntry) (st : stats) : stats :=
  {| totalFiles := totalFiles st; totalSize := totalSize st;
     fileTypes := fileTypes st; folders := m;
     applications := applications st;
     scannedCount := scannedCount st; errorCount := errorCount st |}.

Definition with_applications (m : gmap string appEntry) (st : stats) : stats :=
  {| totalFiles := totalFiles st; totalSize := totalSize st;
     fileTypes := fileTypes st; folders := folders st;
     applications := m;
     scannedCount := scannedCount st; errorCount := errorCount st |}.

Definition with_scannedCount (n : Z) (st : stats) : stats :=
  {| totalFiles := totalFiles st; totalSize := totalSize st;
     fileTypes := fileTypes st; folders := folders st;
     applications := applications st;
     scannedCount := n; errorCount := errorCount st |}.

(** [stats.errorCount++] *)
Definition count_error (st : stats) : stats :=
  {| totalFiles := totalFiles st; totalSize := totalSize st;
     fileTypes := fileTypes st; folders := folders st;
     applications := applications st;
     scannedCount := scannedCount st; errorCount := errorCount st + 1 |}.

(* ===================================================================== *)
(** * [getFolderName] and [getFileDescription] *)
(* ===================================================================== *)

Definition systemFolderNames : list (string * string) :=
  [ ("Program Files", "程序文件");
    ("Program Files (x86)", "程序文件(x86)");
    ("Windows", "系统文件夹");
    ("Users", "用户文件夹");
    ("AppData", "应用数据");
    ("Documents", "我的文档");
    ("Desktop", "桌面");
    ("Downloads", "下载");
    ("Pictures", "图片");
    ("Music", "音乐");
    ("Videos", "视频") ].

(** [parts.findIndex(pred)] followed by the read of the next element. *)
Fixpoint after_first_match (pred : list ascii → bool) (parts : list (list ascii))
  : option (list ascii) :=
  match parts with
  | [] => None
  | p :: rest => if pred p then head rest else after_first_match pred rest
  end.

Definition program_files : list ascii := Str.to_list "program files".

Definition getFolderName (folderPath : string) : JsObj.value :=
  if decide (folderPath = "") then JsObj.Str "未知文件夹"
  else
    let parts :=
      filter (λ p, p ≠ []) (Str.split_on Path.sep (Str.to_list folderPath)) in
    match last parts with
    | None => JsObj.Str "根目录"
    | Some folderName =>
        match JsObj.table_get systemFolderNames (Str.of_list folderName) with
        | Some friendly => friendly
        | None =>
            let in_program_files (p : list ascii) :=
              Str.includes_list program_files (map Str.lower_char p) in
            if Str.includes (Str.toLowerCase folderPath) "program files" then
              match after_first_match in_program_files parts with
              | Some program => JsObj.Str (Str.of_list program)
              | None => JsObj.Str (Str.of_list folderName)
              end
            else JsObj.Str (Str.of_list folderName)
        end
    end.

Definition descriptions : list (string * string) :=
  [ ("exe", "可执行文件"); ("dll", "动态链接库"); ("sys", "系统文件");
    ("docx", "Word文档"); ("xlsx", "Excel表格"); ("pptx", "PowerPoint演示文稿");
    ("pdf", "PDF文档"); ("txt", "文本文件"); ("jpg", "JPEG图片");
    ("jpeg", "JPEG图片"); ("png", "PNG图片"); ("gif", "GIF图片");
    ("bmp", "BMP图片"); ("mp3", "MP3音频"); ("wav", "WAV音频");
    ("mp4", "MP4视频"); ("avi", "AVI视频"); ("mkv", "MKV视频");
    ("zip", "ZIP压缩包"); ("rar", "RAR压缩包"); ("7z", "7Z压缩包");
    ("js", "JavaScript文件"); ("css", "CSS样式文件"); ("html", "HTML文件");
    ("json", "JSON文件"); ("xml", "XML文件"); ("sql", "SQL文件");
    ("php", "PHP文件"); ("py", "Python文件"); ("java", "Java文件");
    ("c", "C语言文件"); ("cpp", "C++文件"); ("cs", "C#文件");
    ("go", "Go语言文件"); ("rb", "Ruby文件"); ("swift", "Swift文件");
    ("kt", "Kotlin文件"); ("md", "Markdown文件"); ("log", "日志文件");
    ("bak", "备份文件"); ("tmp", "临时文件") ].

Definition getFileDescription (extension : string) : JsObj.value :=
  match JsObj.table_get descriptions extension with
  | Some d => d
  | None => JsObj.Str (Str.toUpperCase extension +:+ "文件")
  end.

(* ===================================================================== *)
(** * The file system seen by the scanner *)
(* ===================================================================== *)

(** What [readdirSync(dir, {withFileTypes: true})] and [statSync] let the
    scanner observe.  A directory whose [existsSync], [accessSync] or
    [readdirSync] fails has no listing; a file whose [statSync] throws has
    no size.  [NOther] is an entry that is neither a directory nor a
    regular file (a symbolic link, a socket, a device). *)
#[local] Set Warnings "-register-all".
Inductive node :=
| NFile (size : option Z)
| NDir (listing : option (list (string * node)))
| NOther.

(** What [readdirSync] returns for the node found at the scanned path:
    listing anything but a readable directory throws. *)
Definition readdir (n : node) : option (list (string * node)) :=
  match n with
  | NDir listing => listing
  | _ => None
  end.

(* ===================================================================== *)
(** * Messages to the client and the result of a scan *)
(* ===================================================================== *)

Record typeItem := {
  ti_name : string;
  ti_type : string;
  ti_description : JsObj.value;
  ti_count : Z;
  ti_size : Z
}.

Record sizeItem := {
  si_name : JsObj.value;
  si_path : option string;
  si_size : Z
}.

Record scanResult := {
  r_totalFiles : Z;
  r_totalSize : Z;
  r_fileTypes : list typeItem;
  r_folders : list sizeItem;
  r_applications : list sizeItem;
  r_errorCount : Z
}.

(** The payloads handed to [ws.send].  The [duration] field of
    [scan_complete] is read off the wall clock and left out. *)
Inductive message :=
| scan_started (taskId : string)
| scan_progress (taskId : string) (scanned total errors : Z)
    (currentPath : string) (percentage : Z)
| scan_complete (taskId : string) (result : scanResult)
| scan_error (taskId : string) (error : string)
| scan_stopped (taskId : string).

(** What the server does that an observer can see: a message handed to
    the socket, and the two updates of the task table [scanTasks]. *)
Inductive event :=
| Sent (m : message)
| TaskSet (taskId : string)
| TaskDeleted (taskId : string).

(* ===================================================================== *)
(** * [formatScanResults] *)
(* ===================================================================== *)

(** [list.sort((a, b) => b.size - a.size)]: [Array.prototype.sort] is
    stable, so the sorted array is determined by the comparator. *)
Section sort.
Context {A : Type} (size : A → Z).

Fixpoint insert_desc (x : A) (l : list A) : list A :=
  match l with
  | [] => [x]
  | y :: l' => if size y <=? size x then x :: l else y :: insert_desc x l'
  end.

Definition sort_desc (l : list A) : list A := foldr insert_desc [] l.
End sort.

Definition formatFileType (kv : string * fileTypeEntry) : typeItem :=
  let '(ext, data) := kv in
  {| ti_name := if decide (ft_name data = "") then ext else ft_name data;
     ti_type := ext;
     ti_description :=
       if JsObj.truthy (ft_description data) then ft_description data
       else getFileDescription ext;
     ti_count := ft_count data;
     ti_size := ft_size data |}.

Definition formatFolder (kv : string * folderEntry) : sizeItem :=
  let '(_, folderData) := kv in
  {| si_name := fo_name folderData;
     si_path := Some (fo_path folderData);
     si_size := fo_size folderData |}.

Definition formatApplication (kv : string * appEntry) : sizeItem :=
  let '(_, appData) := kv in
  {| si_name := JsObj.Str (ap_name appData);
     si_path := Some (ap_path appData);
     si_size := ap_size appData |}.

Definition placeholderApplication : sizeItem :=
  {| si_name := JsObj.Str "未识别应用"; si_path := None; si_size := 1 |}.

Definition formatScanResults (st : stats) : scanResult :=
  let fileTypes :=
    take 20 (sort_desc ti_size
      (filter (λ item, 0 < ti_size item)
         (map formatFileType (JsObj.entries (fileTypes st))))) in
  let folders :=
    take 20 (sort_desc si_size
      (filter (λ item, 0 < si_size item ∧ JsObj.truthy (si_name item) = true)
         (map formatFolder (JsObj.entries (folders st))))) in
  let applications :=
    take 20 (sort_desc si_size
      (filter (λ item, 0 < si_size item)
         (map formatApplication (JsObj.entries (applications st))))) in
  let applications :=
    match applications with
    | [] => [placeholderApplication]
    | _ => applications
    end in
  {| r_totalFiles := totalFiles st;
     r_totalSize := totalSize st;
     r_fileTypes := fileTypes;
     r_folders := folders;
     r_applications := applications;
     r_errorCount := errorCount st |}.

(* ===================================================================== *)
(** * The bookkeeping of [scanDirectory] for one entry *)
(* ===================================================================== *)

(** The sentinel used for files without an extension. *)
Definition noExtension : string := "无扩展名".

(** Lines 295-299: the lower-case extension without its dot. *)
Definition fileExtension (name : string) : string :=
  let extension := Str.toLowerCase (Path.extname name) in
  let extension :=
    match extension with
    | String c rest => if decide (c = Path.dot) then rest else extension
    | EmptyString => extension
    end in
  if decide (extension = "") then noExtension else extension.

Definition executableExtensions : list string :=
  [ "exe"; "msi"; "app"; "dmg"; "pkg"; "appx"; "msix"; "com" ].

Definition isExecutable (extension : string) : bool :=
  bool_decide (extension ∈ executableExtensions).

Definition isInAppDirectory (fullPath : string) : bool :=
  let lower := Str.toLowerCase fullPath in
  Str.includes lower "program files"
  || Str.includes lower "applications"
  || Str.includes lower "appdata"
  || Str.includes lower "windows\system32".

(** Lines 276-282 and 346-352, 363-369. *)
Definition newFolder (folderPath : string) : folderEntry :=
  {| fo_name := getFolderName folderPath; fo_path := folderPath; fo_size := 0 |}.

Definition addFolderSize (size : Z) (e : folderEntry) : folderEntry :=
  {| fo_name := fo_name e; fo_path := fo_path e; fo_size := fo_size e + size |}.

(** [if (!stats.folders[p]) {...}; stats.folders[p].size += size] *)
Definition creditFolder (p : string) (size : Z)
    (m : gmap string folderEntry) : gmap string folderEntry :=
  JsObj.update (addFolderSize size) p (JsObj.ensure p (newFolder p) m).

(** Lines 306-315. *)
Definition newFileType (extension : string) : fileTypeEntry :=
  {| ft_name := extension; ft_count := 0; ft_size := 0;
     ft_description := getFileDescription extension |}.

Definition addFileOfType (size : Z) (e : fileTypeEntry) : fileTypeEntry :=
  {| ft_name := ft_name e; ft_count := ft_count e + 1;
     ft_size := ft_size e + size; ft_description := ft_description e |}.

Definition creditFileType (extension : string) (size : Z)
    (m : gmap string fileTypeEntry) : gmap string fileTypeEntry :=
  JsObj.update (addFileOfType size) extension
    (JsObj.ensure extension (newFileType extension) m).

(** Lines 329-339. *)
Definition newApplication (appName fullPath : string) : appEntry :=
  {| ap_name := appName; ap_path := fullPath; ap_size := 0 |}.

Definition addApplicationSize (size : Z) (e : appEntry) : appEntry :=
  {| ap_name := ap_name e; ap_path := ap_path e; ap_size := ap_size e + size |}.

Definition applicationName (fullPath extension : string) : string :=
  Path.basename fullPath ("." +:+ extension).

Definition creditApplication (fullPath extension : string) (size : Z)
    (m : gmap string appEntry) : gmap string appEntry :=
  if isExecutable extension || isInAppDirectory fullPath then
    let appName := applicationName fullPath extension in
    JsObj.update (addApplicationSize size) appName
      (JsObj.ensure appName (newApplication appName fullPath) m)
  else m.

(** Lines 357-375: the [while] loop that credits the ancestors.  Each
    round either stops or moves to a strictly smaller path (see
    [propagate_fuel]), so the rounds are counted down from [rounds]. *)
Definition keepsClimbing (drivePath folderPath parentPath : string) : bool :=
  negb (bool_decide (parentPath = ""))
  && negb (bool_decide (parentPath = folderPath))
  && (Str.len drivePath <=? Str.len parentPath)
  && Str.startsWith parentPath drivePath.

Fixpoint propagate (rounds : nat) (drivePath folderPath parentPath : string)
    (size : Z) (m : gmap string folderEntry) : gmap string folderEntry :=
  match rounds with
  | O => m
  | S rounds' =>
      if keepsClimbing drivePath folderPath parentPath then
        let m' := creditFolder parentPath size m in
        let newParent := Path.dirname parentPath in
        if decide (newParent = parentPath) then m'
        else propagate rounds' drivePath folderPath newParent size m'
      else m
  end.

Definition rounds (p : string) : nat := 2 * length (Str.to_list p) + 2.

Definition creditAncestors (drivePath folderPath : string) (size : Z)
    (m : gmap string folderEntry) : gmap string folderEntry :=
  let parentPath := Path.dirname folderPath in
  propagate (rounds parentPath) drivePath folderPath parentPath size m.

(** Lines 301-375: everything a successfully stat'd file does to the
    aggregator before [scannedCount] is incremented. *)
Definition recordFile (drivePath fullPath name : string) (size : Z)
    (st : stats) : stats :=
  let extension := fileExtension name in
  let st := with_totals (totalFiles st + 1) (totalSize st + size) st in
  let st := with_fileTypes (creditFileType extension size (fileTypes st)) st in
  let st :=
    with_applications
      (creditApplication fullPath extension size (applications st)) st in
  let folderPath := Path.dirname fullPath in
  let st := with_folders (creditFolder folderPath size (folders st)) st in
  let st :=
    with_folders (creditAncestors drivePath folderPath size (folders st)) st in
  with_scannedCount (scannedCount st + 1) st.

(** Lines 379-394: the progress message due after [recordFile], if any.
    The socket is taken to be open ([readyState === 1]). *)
Definition progressDue (taskId fullPath : string) (st : stats) : option message :=
  if decide (Z.rem (scannedCount st) 50 = 0) then
    if decide (taskId = "") then None
    else Some (scan_progress taskId (scannedCount st) (totalSize st)
                 (errorCount st) fullPath (Z.min 99 (scannedCount st / 100)))
  else None.

(* ===================================================================== *)
(** * The task and its environment *)
(* ===================================================================== *)

(** The mutable state a scan works on: the aggregator and the [abort]
    flag of the task object, the keys of the task table [scanTasks], what
    has been observed so far (oldest first), and the number of suspension
    points the walk has gone through. *)
Record world := {
  w_stats : stats;
  w_abort : bool;
  w_tasks : gset string;
  w_log : list event;
  w_clock : nat
}.

Definition on_stats (f : stats → stats) (w : world) : world :=
  {| w_stats := f (w_stats w); w_abort := w_abort w; w_tasks := w_tasks w;
     w_log := w_log w; w_clock := w_clock w |}.

(** [ws.send(JSON.stringify(m))] *)
Definition send (m : message) (w : world) : world :=
  {| w_stats := w_stats w; w_abort := w_abort w; w_tasks := w_tasks w;
     w_log := w_log w ++ [Sent m]; w_clock := w_clock w |}.

(** [scanTasks.set(taskId, task)] *)
Definition registerTask (taskId : string) (w : world) : world :=
  {| w_stats := w_stats w; w_abort := w_abort w;
     w_tasks := {[taskId]} ∪ w_tasks w;
     w_log := w_log w ++ [TaskSet taskId]; w_clock := w_clock w |}.

(** [scanTasks.delete(taskId)] *)
Definition deleteTask (taskId : string) (w : world) : world :=
  {| w_stats := w_stats w; w_abort := w_abort w;
     w_tasks := w_tasks w ∖ {[taskId]};
     w_log := w_log w ++ [TaskDeleted taskId]; w_clock := w_clock w |}.

Definition raiseAbort (w : world) : world :=
  {| w_stats := w_stats w; w_abort := true; w_tasks := w_tasks w;
     w_log := w_log w; w_clock := w_clock w |}.

Definition tick (w : world) : world :=
  {| w_stats := w_stats w; w_abort := w_abort w; w_tasks := w_tasks w;
     w_log := w_log w; w_clock := S (w_clock w) |}.

(** [stopScan(taskId)], lines 205-215. *)
Definition stopScan (taskId : string) (w : world) : world :=
  if decide (taskId ∈ w_tasks w) then
    deleteTask taskId (send (scan_stopped taskId) (raiseAbort w))
  else w.

(** How a promise settles. *)
Inductive settled := Resolved | Rejected.

Section task.

(** [stops k] tells whether a [stop_scan] request for this task is
    handled at suspension point number [k]. *)
Variable stops : nat → bool.
Variable taskId : string.
(** [task.drivePath] and [maxDepth]. *)
Variable drivePath : string.
Variable maxDepth : Z.

(** Control returns to the event loop, which may run the handler of a
    [stop_scan] message, and comes back. *)
Definition await (w : world) : world :=
  if stops (w_clock w) then stopScan taskId (tick w) else tick w.

(** The file branch of the loop body, lines 289-395. *)
Definition visitFile (fullPath name : string) (size : option Z) (w : world) : world :=
  match size with
  | None => on_stats count_error w
  | Some size =>
      let w := on_stats (recordFile drivePath fullPath name size) w in
      match progressDue taskId fullPath (w_stats w) with
      | Some m => send m w
      | None => w
      end
  end.

(** Lines 276-282: the folder entry of a directory met in a listing. *)
Definition noteDirectory (fullPath : string) (w : world) : world :=
  on_stats (λ st, with_folders
              (JsObj.ensure fullPath (newFolder fullPath) (folders st)) st) w.

(** [scanDirectory(dirPath, currentDepth, maxDepth, stats, task, taskId)]
    run on the node found at [dirPath].

    - The first abort check (line 222) is outside every [try]: it
      rejects the promise.
    - A path that cannot be listed is counted and the call returns
      (lines 228-262).
    - The abort check of the loop (line 266) throws inside the outer
      [try]: the [catch] of line 404 counts an error and the call
      returns normally.
    - A failure while handling one entry, a rejected recursive call
      included, is caught at line 396: counted, and the loop goes on. *)
Fixpoint scanDirectory (dirPath : string) (currentDepth : Z) (n : node)
    (w : world) {struct n} : settled * world :=
  if w_abort w then (Rejected, w)
  else
    match n with
    | NDir (Some entries) =>
        (Resolved,
         (fix loop (entries : list (string * node)) (w : world) {struct entries}
            : world :=
            match entries with
            | [] => w
            | (name, child) :: rest =>
                if w_abort w then on_stats count_error w
                else
                  let fullPath := Path.join dirPath name in
                  match child with
                  | NDir _ =>
                      let w := noteDirectory fullPath w in
                      if currentDepth <? maxDepth then
                        match scanDirectory fullPath (currentDepth + 1) child w with
                        | (Resolved, w') => loop rest (await w')
                        | (Rejected, w') => loop rest (on_stats count_error (await w'))
                        end
                      else loop rest w
                  | NFile size => loop rest (visitFile fullPath name size w)
                  | NOther => loop rest w
                  end
            end) entries w)
    | _ => (Resolved, on_stats count_error w)
    end.

(** The [for] loop of [scanDirectory] (lines 264-403) on its own; it is
    the loop inside [scanDirectory], see [scanDirectory_eq]. *)
Fixpoint scanEntries (dirPath : string) (currentDepth : Z)
    (entries : list (string * node)) (w : world) : world :=
  match entries with
  | [] => w
  | (name, child) :: rest =>
      if w_abort w then on_stats count_error w
      else
        let fullPath := Path.join dirPath name in
        match child with
        | NDir _ =>
            let w := noteDirectory fullPath w in
            if currentDepth <? maxDepth then
              match scanDirectory fullPath (currentDepth + 1) child w with
              | (Resolved, w') => scanEntries dirPath currentDepth rest (await w')
              | (Rejected, w') =>
                  scanEntries dirPath currentDepth rest
                    (on_stats count_error (await w'))
              end
            else scanEntries dirPath currentDepth rest w
        | NFile size =>
            scanEntries dirPath currentDepth rest (visitFile fullPath name size w)
        | NOther => scanEntries dirPath currentDepth rest w
        end
  end.

(** The [.then] and [.catch] handlers of [startScan], lines 174-201. *)
Definition onSettled (outcome : settled) (w : world) : world :=
  match outcome with
  | Resolved =>
      let w :=
        if w_abort w then w
        else send (scan_complete taskId (formatScanResults (w_stats w))) w in
      deleteTask taskId w
  | Rejected =>
      let w :=
        if w_abort w then w
        else send (scan_error taskId "扫描已中止") w in
      deleteTask taskId w
  end.

End task.

(** The payload of a [start_scan] message. *)
Record payload := {
  p_drivePath : option string;
  p_scanDepth : option Z
}.

Definition invalidPathError (drivePath : option string) : string :=
  "扫描路径无效: " +:+ default "undefined" drivePath.

(** [startScan(ws, payload)], lines 125-202, together with the run of the
    scan it launches.  [root p] is the node [existsSync] finds at path [p],
    if any; [taskId] is the reading of the clock; [tasks] is the task
    table on entry. *)
Definition startScan (stops : nat → bool) (root : string → option node)
    (taskId : string) (p : payload) (tasks : gset string) : world :=
  let w0 := {| w_stats := scanStats; w_abort := false; w_tasks := tasks;
               w_log := []; w_clock := 0 |} in
  let scanDepth := default 2 (p_scanDepth p) in
  match p_drivePath p with
  | None => send (scan_error taskId (invalidPathError None)) w0
  | Some drivePath =>
      match (if decide (drivePath = "") then None else root drivePath) with
      | None => send (scan_error taskId (invalidPathError (Some drivePath))) w0
      | Some n =>
          let w := send (scan_started taskId) (registerTask taskId w0) in
          let '(outcome, w) :=
            scanDirectory stops taskId drivePath scanDepth drivePath 1 n w in
          onSettled taskId outcome (await stops taskId w)
      end
  end.

(* ===================================================================== *)
(** * What a walk visits *)
(* ===================================================================== *)

(** The vocabulary of the specification: the entries a walk that is not
    stopped gets to see, in the order it sees them.  [Met] is a directory
    found in a listing, [Read] a regular file whose size could be read,
    [Failed] a listing or a size that could not.  Directories are opened
    while [currentDepth < maxDepth]. *)
Inductive visit :=
| Met (fullPath : string)
| Read (fullPath name : string) (size : Z)
| Failed.

Section visits.
Variable maxDepth : Z.

Fixpoint visits (dirPath : string) (currentDepth : Z) (n : node) {struct n}
  : list visit :=
  match n with
  | NDir (Some entries) =>
      (fix each (entries : list (string * node)) : list visit :=
         match entries with
         | [] => []
         | (name, child) :: rest =>
             let fullPath := Path.join dirPath name in
             match child with
             | NDir _ =>
                 Met fullPath ::
                 (if currentDepth <? maxDepth
                  then visits fullPath (currentDepth + 1) child else [])
             | NFile (Some size) => [Read fullPath name size]
             | NFile None => [Failed]
             | NOther => []
             end ++ each rest
         end) entries
  | _ => [Failed]
  end.

Definition visitsOf (dirPath : string) (currentDepth : Z)
    (entry : string * node) : list visit :=
  let fullPath := Path.join dirPath (fst entry) in
  match snd entry with
  | NDir _ =>
      Met fullPath ::
      (if currentDepth <? maxDepth
       then visits fullPath (currentDepth + 1) (snd entry) else [])
  | NFile (Some size) => [Read fullPath (fst entry) size]
  | NFile None => [Failed]
  | NOther => []
  end.

Definition visitsIn (dirPath : string) (currentDepth : Z)
    (entries : list (string * node)) : list visit :=
  flat_map (visitsOf dirPath currentDepth) entries.
End visits.

(** The files of a walk whose metadata query succeeded, with their sizes,
    and the number of failed listings and queries. *)
Definition filesRead (vs : list visit) : list (string * Z) :=
  flat_map (λ v, match v with Read p _ size => [(p, size)] | _ => [] end) vs.



Definition sumZ (l : list Z) : Z := foldr Z.add 0 l.


(** What one visit does to the task when no stop request has been seen. *)
Definition applyVisit (taskId drivePath : string) (w : world) (v : visit) : world :=
  match v with
  | Met p => noteDirectory p w
  | Read p name size => visitFile taskId drivePath p name (Some size) w
  | Failed => on_stats count_error w
  end.

Definition runVisits (taskId drivePath : string) (vs : list visit) (w : world)
  : world :=
  fold_left (applyVisit taskId drivePath) vs w.

(** The same on the aggregator alone. *)
Definition recordVisit (drivePath : string) (st : stats) (v : visit) : stats :=
  match v with
  | Met p => with_folders (JsObj.ensure p (newFolder p) (folders st)) st
  | Read p name size => recordFile drivePath p name size st
  | Failed => count_error st
  end.

Definition recordVisits (drivePath : string) (vs : list visit) (st : stats)
  : stats :=
  fold_left (recordVisit drivePath) vs st.

Definition ticks (k : nat) (w : world) : world :=
  {| w_stats := w_stats w; w_abort := w_abort w; w_tasks := w_tasks w;
     w_log := w_log w; w_clock := k + w_clock w |}.

(** The scan has reached completion: [scan_complete] was sent. *)
Definition completed (taskId : string) (w : world) : Prop :=
  ∃ result, Sent (scan_complete taskId result) ∈ w_log w.

Definition never : nat → bool := λ _, false.

(** The messages that must not follow an acknowledged stop request. *)
Definition loud (e : event) : bool :=
  match e with
  | Sent (scan_progress _ _ _ _ _ _) => true
  | Sent (scan_complete _ _) => true
  | Sent (scan_error _ _) => true
  | _ => false
  end.

(** Whatever follows a [scan_stopped] in the log is not loud. *)
Definition calm (taskId : string) (log : list event) : Prop :=
  ∀ before after,
    log = before ++ Sent (scan_stopped taskId) :: after →
    Forall (λ e, loud e = false) after.

(** The abort flag and the log agree: nothing loud after a stop, and no
    stop acknowledged while the flag is down. *)
Definition consistent (taskId : string) (w : world) : Prop :=
  calm taskId (w_log w) ∧
  (w_abort w = false → Sent (scan_stopped taskId) ∉ w_log w).

(** ** Example file systems *)

(** The scenario of the specification: [a.txt] (100 bytes) next to a
    directory [sub] holding [b.txt] (50 bytes), which in turn holds a
    directory [deep] with [c.txt] (7 bytes). *)
Definition dataTree : node :=
  NDir (Some
    [ ("a.txt", NFile (Some 100));
      ("sub", NDir (Some
         [ ("b.txt", NFile (Some 50));
           ("deep", NDir (Some [ ("c.txt", NFile (Some 7)) ])) ])) ]).

Definition mounted (path : string) (n : node) : string → option node :=
  λ p, if decide (p = path) then Some n else None.

Definition request (drivePath : string) : payload :=
  {| p_drivePath := Some drivePath; p_scanDepth := None |}.

(** A stop request handled at the first suspension point. *)
Definition stopsFirst : nat → bool := λ k, bool_decide (k = 0%nat).

(** The order [formatScanResults] leaves its lists in. *)
Definition largerFirst {A : Type} (size : A → Z) : relation A :=
  λ a b, size b ≤ size a.

(** A root that exists but cannot be listed. *)
Definition lockedRoot : string → option node := mounted "/data" (NDir None).

(** What the walk itself can add to the log: progress messages, and the
    acknowledgment and table update of a stop request handled at one of
    its suspension points. *)
Definition walkEvent (e : event) : bool :=
  match e with
  | Sent (scan_progress _ _ _ _ _ _) => true
  | Sent (scan_stopped _) => true
  | TaskDeleted _ => true
  | _ => false
  end.

(** The state of a task right after [scan_started] was sent. *)
Definition started (taskId : string) (tasks : gset string) : world :=
  send (scan_started taskId)
    (registerTask taskId
       {| w_stats := scanStats; w_abort := false; w_tasks := tasks;
          w_log := []; w_clock := 0 |}).

(** [stats.folders[F].size], and 0 when [F] has no entry. *)
Definition folderSize (m : gmap string folderEntry) (F : string) : Z :=
  from_option fo_size 0 (m !! F).

Definition applicationSize (m : gmap string appEntry) (name : string) : Z :=
  from_option ap_size 0 (m !! name).

(** The sums of [count] and of [size] over the file-type entries. *)
Definition countOfTypes (m : gmap string fileTypeEntry) : Z :=
  map_fold (λ _ e acc, ft_count e + acc) 0 m.

Definition sizeOfTypes (m : gmap string fileTypeEntry) : Z :=
  map_fold (λ _ e acc, ft_size e + acc) 0 m.

(** The books of the aggregator: every counted file sits in one bucket. *)
Definition balanced (st : stats) : Prop :=
  totalFiles st = scannedCount st
  ∧ totalFiles st = countOfTypes (fileTypes st)
  ∧ totalSize st = sizeOfTypes (fileTypes st).

(** An installer whose extension is written in capitals, next to a
    program called [toString]. *)
Definition installerTree : node :=
  NDir (Some [ ("Setup.EXE", NFile (Some 10)); ("toString.exe", NFile (Some 3)) ]).

(** A file whose extension is the name of a property every object
    inherits. *)
Definition constructorTree : node :=
  NDir (Some [ ("a.constructor", NFile (Some 5)) ]).

(* ===================================================================== *)
(** * Paths in normal form and the subtree of a folder *)
(* ===================================================================== *)

(** A name as [readdirSync] returns it: not empty, without separator,
    and neither [.] nor [..]. *)
Definition validSegment (s : list ascii) : Prop :=
  s ≠ [] ∧ (Path.slash ∉ s) ∧ s ≠ [Path.dot] ∧ s ≠ [Path.dot; Path.dot].

Definition validName (name : string) : Prop := validSegment (Str.to_list name).

(** The absolute path with the given segments, as [path.normalize]
    leaves it: [/] for no segment, [/s1/s2/.../sk] otherwise. *)
Definition absoluteList (segs : list (list ascii)) : list ascii :=
  match segs with
  | [] => [Path.slash]
  | _ => flat_map (λ s, Path.slash :: s) segs
  end.

Definition absolutePath (segs : list (list ascii)) : string :=
  Str.of_list (absoluteList segs).

(** Every name of the tree is a valid name. *)
Fixpoint validTree (n : node) : Prop :=
  match n with
  | NDir (Some entries) =>
      (fix all (entries : list (string * node)) : Prop :=
         match entries with
         | [] => True
         | (name, child) :: rest => validName name ∧ validTree child ∧ all rest
         end) entries
  | _ => True
  end.

(** The path [p] lies in the subtree of the folder [F]: it starts with
    [F] followed by a separator. *)
Definition inSubtree (F p : string) : bool :=
  Str.startsWith p
    (if Path.trailing_slash (Str.to_list F) then F else F +:+ "/").

(** The sum of the sizes of the files read in the subtree of [F]. *)
Definition sizeBelow (F : string) (files : list (string * Z)) : Z :=
  sumZ (map snd (filter (λ f, inSubtree F (fst f) = true) files)).

(** All prefixes of a list, shortest first. *)
Fixpoint prefixes {A : Type} (l : list A) : list (list A) :=
  match l with
  | [] => [[]]
  | x :: l' => [] :: map (cons x) (prefixes l')
  end.

Fixpoint takeWhile {A : Type} (keep : A → bool) (l : list A) : list A :=
  match l with
  | [] => []
  | x :: l' => if keep x then x :: takeWhile keep l' else []
  end.

(** The part of the loop condition of lines 359-361 that looks at the
    root: the ancestor is at least as long as the root string and starts
    with it. *)
Definition stillBelow (drivePath p : string) : bool :=
  (Str.len drivePath <=? Str.len p) && Str.startsWith p drivePath.

(** The ancestors the loop reaches when it starts from the path with
    segments [l]: [l] itself, then the shorter prefixes, as long as they
    are still below the root. *)
Definition climbers (drivePath : string) (l : list (list ascii))
  : list (list (list ascii)) :=
  takeWhile (λ r, stillBelow drivePath (absolutePath r)) (rev (prefixes l)).

(** The proper prefixes of a list, longest first. *)
Definition ancestors {A : Type} (l : list A) : list (list A) :=
  tail (rev (prefixes l)).

(** The folders a file found in the directory with segments [D] is
    credited to: the directory itself, then the ancestors the loop
    reaches from its parent. *)
Definition creditedFolders (drivePath : string) (D : list (list ascii))
  : list string :=
  absolutePath D
  :: map absolutePath
       (takeWhile (λ r, stillBelow drivePath (absolutePath r)) (ancestors D)).

Definition creditAll (size : Z) (paths : list string)
    (m : gmap string folderEntry) : gmap string folderEntry :=
  fold_left (λ acc p, creditFolder p size acc) paths m.

(** The segments [path.join] keeps of the root it is given. *)
Definition rootSegments (drivePath : string) : list (list ascii) :=
  Path.normalizeString false (Str.to_list drivePath).

(** A path at or below the scan root. *)
Definition belowRoot (root : list (list ascii)) (F : string) : Prop :=
  ∃ q, Forall validSegment q ∧ F = absolutePath (root ++ q).

(** A visit whose path is where a walk from [root] puts it. *)
Definition placed (root : list (list ascii)) (v : visit) : Prop :=
  match v with
  | Met p => belowRoot root p
  | Read p name _ =>
      ∃ rel, Forall validSegment rel ∧ validName name
             ∧ p = absolutePath (root ++ rel ++ [Str.to_list name])
  | Failed => True
  end.

(** The sum of the sizes of the files read directly in [F]. *)
Definition sizeIn (F : string) (files : list (string * Z)) : Z :=
  sumZ (map snd (filter (λ f, Path.dirname (fst f) = F) files)).

(** What the file [p] of the given size adds to the folder [F]: its size
    if [F] starts with the root string and [p] lies in the subtree of
    [F], or if [F] is the directory of [p]. *)
Definition share (drivePath F p : string) (size : Z) : Z :=
  if Str.startsWith F drivePath
  then (if inSubtree F p then size else 0)
  else (if decide (Path.dirname p = F) then size else 0).

Definition sizeDue (drivePath F : string) (files : list (string * Z)) : Z :=
  sumZ (map (λ f, share drivePath F (fst f) (snd f)) files).

(** The measure that goes down with every round of [propagate]: twice
    the length of the path, plus one unless the path is [.] or [/]. *)
Definition climb (l : list ascii) : nat :=
  2 * length l
  + (if decide (l = [Path.dot] ∨ l = [Path.slash]) then 0 else 1).

(** A task that went through the visits [vs] from [w], up to the turns
    it waited, unless it was aborted. *)
Definition follows (taskId drivePath : string) (vs : list visit)
    (w w' : world) : Prop :=
  w_abort w' = true ∨ ∃ k, w' = ticks k (runVisits taskId drivePath vs w).

(** The log grows at its end, by events of the walk. *)
Definition grows (log0 : list event) (w : world) : Prop :=
  ∃ l, w_log w = log0 ++ l ∧ Forall (λ e, walkEvent e = true) l.

(** A folder path in normal form that lies at or below the segments
    [base], or starts with the root string. *)
Definition accounted (drivePath : string) (base : list (list ascii))
    (F : string) : Prop :=
  ∃ q, Forall validSegment q ∧ F = absolutePath q
       ∧ (base `prefix_of` q ∨ Str.startsWith F drivePath = true).

(* ===================================================================== *)
(** * The numbers and the characters the embedding is exact on *)
(* ===================================================================== *)

(** The sizes of the files of a walk are added without rounding: none is
    negative and all together they stay below 2^53, so that every sum
    the scanner forms, being the sum of some of them, is an integer a
    double holds exactly. *)
Definition exactSizes (files : list (string * Z)) : bool :=
  forallb (λ f, 0 <=? snd f) files && (sumZ (map snd files) <? 2 ^ 53).

(** A string of ASCII characters. *)
Definition asciiChar (c : ascii) : bool := (nat_of_ascii c <? 128)%nat.

Definition asciiString (s : string) : bool := forallb asciiChar (Str.to_list s).

(** The files a walk read have ASCII names, and ASCII paths. *)
Definition asciiNames (vs : list visit) : bool :=
  forallb (λ v, match v with Read _ name _ => asciiString name | _ => true end) vs.

Definition asciiPaths (vs : list visit) : bool :=
  forallb (λ v, match v with Read fullPath _ _ => asciiString fullPath | _ => true end)
    vs.

(* ===================================================================== *)
(** * The tree down to the ceiling *)
(* ===================================================================== *)

(** What is left of a tree when every directory found in a listing read
    at [currentDepth >= maxDepth] is made unreadable: the directory is
    still found, what it holds is gone. *)
Fixpoint cutAt (maxDepth currentDepth : Z) (n : node) {struct n} : node :=
  match n with
  | NDir (Some entries) =>
      NDir (Some
        ((fix each (entries : list (string * node)) : list (string * node) :=
            match entries with
            | [] => []
            | (name, child) :: rest =>
                (name,
                 match child with
                 | NDir _ =>
                     if currentDepth <? maxDepth
                     then cutAt maxDepth (currentDepth + 1) child
                     else NDir None
                 | _ => child
                 end) :: each rest
            end) entries))
  | _ => n
  end.

Definition cutEntry (maxDepth currentDepth : Z) (e : string * node)
  : string * node :=
  (fst e,
   match snd e with
   | NDir _ =>
       if currentDepth <? maxDepth then cutAt maxDepth (currentDepth + 1) (snd e)
       else NDir None
   | _ => snd e
   end).

(** The node found by going down from [n] through the listings, one name
    after the other, is [target]. *)
Fixpoint leadsTo (n : node) (names : list string) (target : node) : Prop :=
  match names with
  | [] => n = target
  | name :: rest =>
      ∃ entries child,
        readdir n = Some entries ∧ (name, child) ∈ entries
        ∧ leadsTo child rest target
  end.

(** The path of what is found through [names] from [dirPath], as the
    walk forms it. *)
Definition pathOf (dirPath : string) (names : list string) : string :=
  fold_left Path.join names dirPath.

(* ===================================================================== *)
(** * Further vocabulary: entries, messages and trees *)
(* ===================================================================== *)

(** Every entry of the three dictionaries sits under the key its own
    fields announce. *)
Definition wellKeyed (st : stats) : Prop :=
  (∀ k e, folders st !! k = Some e →
          fo_path e = k ∧ fo_name e = getFolderName k)
  ∧ (∀ k e, fileTypes st !! k = Some e →
            ft_name e = k ∧ ft_description e = getFileDescription k)
  ∧ (∀ k e, applications st !! k = Some e → ap_name e = k).

(** The messages of a log, oldest first. *)
Definition sentOf (log : list event) : list message :=
  flat_map (λ e, match e with Sent m => [m] | _ => [] end) log.

Definition isProgress (m : message) : bool :=
  match m with
  | scan_progress _ _ _ _ _ _ => true
  | _ => false
  end.

(** A task on its way: announced, then progress messages only, and the
    acknowledgment of a stop request exactly when the abort flag is up,
    in which case the task has left the table. *)
Definition underWay (taskId : string) (w : world) : Prop :=
  ∃ ps, Forall (λ m, isProgress m = true) ps
        ∧ sentOf (w_log w)
          = scan_started taskId :: ps
            ++ (if w_abort w then [scan_stopped taskId] else [])
        ∧ (w_abort w = true → taskId ∉ w_tasks w).

(** The progress messages of a log: the [scannedCount] and the
    [percentage] each one carries. *)
Definition progressOf (log : list event) : list (Z * Z) :=
  flat_map (λ e, match e with
                 | Sent (scan_progress _ scanned _ _ _ percentage) =>
                     [(scanned, percentage)]
                 | _ => []
                 end) log.

(** One progress message for every 50 files counted so far. *)
Definition milestones (scanned : Z) : list (Z * Z) :=
  map (λ i, (50 * i, Z.min 99 (i / 2))) (seqZ 1 (scanned / 50)).

(** Sixty files of one byte each, named [A], [B], ... *)
Definition sixtyFiles : node :=
  NDir (Some (map (λ i, (String (ascii_of_nat (65 + i)) "", NFile (Some 1)))
                (seq 0 60))).

(** The sizes of the files read by a walk whose extension, as
    [scanDirectory] computes it, is [extension]. *)
Definition sizesOfType (extension : string) (vs : list visit) : list Z :=
  flat_map (λ v, match v with
                 | Read _ name size =>
                     if decide (fileExtension name = extension) then [size] else []
                 | _ => []
                 end) vs.

(** The entry of an extension after files of the given sizes. *)
Definition tally (sizes : list Z) (e : fileTypeEntry) : fileTypeEntry :=
  fold_left (λ e size, addFileOfType size e) sizes e.

Definition bucket (extension : string) (sizes : list Z) : fileTypeEntry :=
  {| ft_name := extension;
     ft_count := Z.of_nat (length sizes);
     ft_size := sumZ sizes;
     ft_description := getFileDescription extension |}.

(** The tree without the entries that are neither directories nor
    regular files. *)
Fixpoint withoutOthers (n : node) : node :=
  match n with
  | NDir (Some entries) =>
      NDir (Some
        (flat_map (λ e, match snd e with
                        | NOther => []
                        | _ => [(fst e, withoutOthers (snd e))]
                        end) entries))
  | _ => n
  end.

(** The number of directory levels of a tree: a file has none, a
    directory one more than the deepest directory it lists. *)
Fixpoint levels (n : node) : Z :=
  match n with
  | NDir (Some entries) =>
      1 + foldr (λ e deepest, Z.max (levels (snd e)) deepest) 0 entries
  | NDir None => 1
  | _ => 0
  end.

(** Every file of the tree that can be stat'd has a size that is not
    negative, as [statSync] reports sizes. *)
Fixpoint sized (n : node) : Prop :=
  match n with
  | NFile (Some size) => 0 ≤ size
  | NDir (Some entries) => foldr (λ e rest, sized (snd e) ∧ rest) True entries
  | _ => True
  end.

(** Two states of a task that an observer cannot tell apart: the same
    flag, table, log and clock, and the same aggregator unless the task
    is aborted (the aggregator of an aborted task is never sent). *)
Definition alike (w1 w2 : world) : Prop :=
  w_abort w1 = w_abort w2 ∧ w_tasks w1 = w_tasks w2 ∧ w_log w1 = w_log w2
  ∧ w_clock w1 = w_clock w2 ∧ (w_abort w1 = false → w_stats w1 = w_stats w2).

(** The test [part.toLowerCase().includes('program files')] of
    [getFolderName]. *)
Definition inProgramFiles (part : list ascii) : bool :=
  Str.includes_list program_files (map Str.lower_char part).

(** The files a walk read that count as applications under the name
    [appName], with their paths and sizes, in the order of the walk. *)
Definition creditsOf (appName : string) (vs : list visit) : list (string * Z) :=
  flat_map (λ v, match v with
                 | Read fullPath name size =>
                     let extension := fileExtension name in
                     if (isExecutable extension || isInAppDirectory fullPath)
                        && bool_decide (applicationName fullPath extension = appName)
                     then [(fullPath, size)] else []
                 | _ => []
                 end) vs.

Definition grow (credits : list (string * Z)) (e : appEntry) : appEntry :=
  fold_left (λ e credit, addApplicationSize (snd credit) e) credits e.

(** Two installers of the same name in two directories. *)
Definition twoInstallers : node :=
  NDir (Some
    [ ("a", NDir (Some [ ("setup.exe", NFile (Some 10)) ]));
      ("b", NDir (Some [ ("setup.msi", NFile (Some 5)) ])) ]).

(* ===================================================================== *)
(** * The task table and the connections *)
(* ===================================================================== *)

(** The view of the server a connection has: the task objects with
    their sockets and abort flags, the [Map] [scanTasks] that leads from
    task ids to task objects, and what was handed to which socket.

    A task object is shared: [scanTasks] holds a reference to it and so
    does the closure of the scan it belongs to, which goes on reading
    [task.abort] after the entry has left the table.  The objects are
    therefore kept in a store of their own, in the order of their
    creation, and the table holds positions in that store.  The walk
    itself is not run here: a scan shows as the request that starts it
    and, later, as the handler that runs when it has settled. *)
Module Server.

(** The fields of a task object the handlers read; [stats] is the
    aggregator of the scan and [startTime] a clock reading. *)
Record task := {
  t_ws : nat;
  t_drivePath : string;
  t_scanDepth : Z;
  t_abort : bool
}.

Record state := {
  objects : list task;
  scanTasks : gmap string nat;
  outbox : list (nat * message)
}.

Definition initial : state :=
  {| objects := []; scanTasks := ∅; outbox := [] |}.

(** [task.ws] and [task.abort] of the object at [ref]. *)
Definition owner (σ : state) (ref : nat) : option nat := t_ws <$> objects σ !! ref.
Definition aborted (σ : state) (ref : nat) : bool :=
  default false (t_abort <$> objects σ !! ref).

(** [task.abort = true] *)
Definition raise (t : task) : task :=
  {| t_ws := t_ws t; t_drivePath := t_drivePath t;
     t_scanDepth := t_scanDepth t; t_abort := true |}.

Definition abort (ref : nat) (σ : state) : state :=
  {| objects := alter raise ref (objects σ); scanTasks := scanTasks σ;
     outbox := outbox σ |}.

(** [ws.send(JSON.stringify(m))] *)
Definition send (ws : nat) (m : message) (σ : state) : state :=
  {| objects := objects σ; scanTasks := scanTasks σ;
     outbox := outbox σ ++ [(ws, m)] |}.

(** [scanTasks.delete(taskId)] *)
Definition unregister (taskId : string) (σ : state) : state :=
  {| objects := objects σ; scanTasks := delete taskId (scanTasks σ);
     outbox := outbox σ |}.

(** [startScan(ws, payload)] up to the launch of the scan, lines
    125-170: [found] is the answer of [existsSync], [taskId] the reading
    of the clock.  The new task object is the last of the store. *)
Definition startScan (ws : nat) (p : payload) (taskId : string) (found : bool)
    (σ : state) : state :=
  match p_drivePath p with
  | None => send ws (scan_error taskId (invalidPathError None)) σ
  | Some drivePath =>
      if bool_decide (drivePath = "") || negb found then
        send ws (scan_error taskId (invalidPathError (Some drivePath))) σ
      else
        let task := {| t_ws := ws; t_drivePath := drivePath;
                       t_scanDepth := default 2 (p_scanDepth p);
                       t_abort := false |} in
        send ws (scan_started taskId)
          {| objects := objects σ ++ [task];
             scanTasks := <[taskId := length (objects σ)]> (scanTasks σ);
             outbox := outbox σ |}
  end.

(** [stopScan(taskId)], lines 205-215.  The keys of [scanTasks] are
    strings, so a [taskId] that is no string finds nothing, like a
    string that is no key. *)
Definition stopScan (taskId : string) (σ : state) : state :=
  match scanTasks σ !! taskId with
  | Some ref =>
      match owner σ ref with
      | Some ws => unregister taskId (send ws (scan_stopped taskId) (abort ref σ))
      | None => σ
      end
  | None => σ
  end.

(** The handler of [close], lines 112-121: one round of the loop over
    the entries of [scanTasks], and the loop. *)
Definition closeTask (ws : nat) (taskId : string) (ref : nat) (σ : state) : state :=
  if decide (owner σ ref = Some ws) then unregister taskId (abort ref σ) else σ.

Definition onClose (ws : nat) (σ : state) : state :=
  map_fold (closeTask ws) σ (scanTasks σ).

(** The handlers [.then] and [.catch] of the scan of the task object at
    [ref], started under [taskId], lines 174-201; [st] is the aggregator
    of that scan. *)
Definition onSettled (ref : nat) (taskId : string) (outcome : settled)
    (st : stats) (σ : state) : state :=
  let σ :=
    if aborted σ ref then σ
    else match owner σ ref with
         | Some ws =>
             send ws (match outcome with
                      | Resolved => scan_complete taskId (formatScanResults st)
                      | Rejected => scan_error taskId "扫描已中止"
                      end) σ
         | None => σ
         end in
  unregister taskId σ.

(** What happens at the server, one handler at a time. *)
Inductive step :=
| Start (ws : nat) (p : payload) (taskId : string) (found : bool)
| Stop (taskId : string)
| Close (ws : nat)
| Settled (ref : nat) (taskId : string) (outcome : settled) (st : stats).

Definition handle (σ : state) (s : step) : state :=
  match s with
  | Start ws p taskId found => startScan ws p taskId found σ
  | Stop taskId => stopScan taskId σ
  | Close ws => onClose ws σ
  | Settled ref taskId outcome st => onSettled ref taskId outcome st σ
  end.

Definition run (steps : list step) (σ : state) : state := fold_left handle steps σ.

(** No entry of the table points outside the store. *)
Definition sound (σ : state) : Prop :=
  ∀ taskId ref, scanTasks σ !! taskId = Some ref → (ref < length (objects σ))%nat.

(** The task object at [ref] is reachable through the table. *)
Definition listed (σ : state) (ref : nat) : Prop :=
  ∃ taskId, scanTasks σ !! taskId = Some ref.

End Server.

(** A task object nothing leads to any more: it is in the store, no
    entry of the table points to it, and its flag is down. *)
Definition outOfReach (σ : Server.state) (ref : nat) : Prop :=
  Server.sound σ ∧ (ref < length (Server.objects σ))%nat
  ∧ ¬ Server.listed σ ref ∧ Server.aborted σ ref = false.

(** A request the server accepts. *)
Definition accepted (p : payload) : Prop :=
  ∃ drivePath, p_drivePath p = Some drivePath ∧ drivePath ≠ "".

(* ===================================================================== *)
(** * The list of drives *)
(* ===================================================================== *)

(** The handler of [GET /api/drives], lines 15-74.  What it asks of the
    system is kept in a record: the platform, what a command prints
    ([None] when [execSync] throws) and whether a path can be accessed.
    The handler answers with [res.json(drives)]; its outer [catch] would
    only run if that call itself threw.

    Text is [UTF-8]: a character of a JavaScript string shows as the
    bytes that encode it. *)
Module Drives.

Inductive platform := Win32 | OtherPlatform.

Record host := {
  platformOf : platform;
  execSync : string → option string;
  accessSync : string → bool
}.

(** An entry of the answer; [parts[5]] may be [undefined]. *)
Record drive := {
  name : option string;
  path : option string;
  type : string
}.

Definition local (name path : option string) : drive :=
  {| name := name; path := path; type := "local" |}.

(** ** Windows *)

(** [[A-Z]] *)
Definition capital (c : ascii) : bool :=
  let n := nat_of_ascii c in ((65 <=? n)%nat && (n <=? 90)%nat)%bool.

Definition colon : ascii := ":"%char.

(** [result.match(/[A-Z]:/g) || []]: the matches from left to right,
    each search starting where the last match ended. *)
Fixpoint matchDrives (l : list ascii) : list (list ascii) :=
  match l with
  | c :: rest =>
      match rest with
      | d :: r =>
          if capital c && bool_decide (d = colon)
          then [c; d] :: matchDrives r
          else matchDrives rest
      | [] => []
      end
  | [] => []
  end.

Definition windowsDrive (caption : string) : drive :=
  local (Some caption) (Some (caption +:+ "\")).

Definition commonDrives : list string := ["C"; "D"; "E"; "F"; "G"].

(** Lines 29-45: the letters that can be accessed, or [C:] when there
    is none. *)
Definition probeDrives (h : host) : list drive :=
  let drives :=
    flat_map (λ letter,
                let drivePath := letter +:+ ":" in
                if accessSync h drivePath then [windowsDrive drivePath] else [])
      commonDrives in
  match drives with
  | [] => [windowsDrive "C:"]
  | _ => drives
  end.

(** ** Other platforms *)

(** The white space of ECMAScript ([\s], and what [trim] removes),
    encoded: the number of bytes of the white-space character [l] begins
    with, 0 when it begins with none. *)
Definition asciiSpaces : list ascii :=
  ["009"; "010"; "011"; "012"; "013"; " "]%char.

Definition wideLength (lead : N) (next : list N) : nat :=
  match lead, next with
  | 194%N, 160%N :: _ => 2%nat                             (* U+00A0 *)
  | 225%N, [154%N; 128%N] => 3%nat                         (* U+1680 *)
  | 226%N, [128%N; x] =>                 (* U+2000-200A, 2028, 2029, 202F *)
      if ((128 <=? x)%N && (x <=? 138)%N)
         || (x =? 168)%N || (x =? 169)%N || (x =? 175)%N
      then 3%nat else 0%nat
  | 226%N, [129%N; 159%N] => 3%nat                         (* U+205F *)
  | 227%N, [128%N; 128%N] => 3%nat                         (* U+3000 *)
  | 239%N, [187%N; 191%N] => 3%nat                         (* U+FEFF *)
  | _, _ => 0%nat
  end.

Definition whiteLength (l : list ascii) : nat :=
  match l with
  | [] => 0
  | c :: r =>
      if bool_decide (c ∈ asciiSpaces) then 1
      else wideLength (N_of_ascii c) (map N_of_ascii (take 2 r))
  end.

(** [line.trim()] is empty: the line holds white space only.  [skip]
    counts the bytes still to pass of the character being read. *)
Fixpoint blank (skip : nat) (l : list ascii) : bool :=
  match l with
  | [] => true
  | _ :: r =>
      match skip with
      | S k => blank k r
      | O =>
          match whiteLength l with
          | S k => blank k r
          | O => false
          end
      end
  end.

(** [line.split(/\s+/)]: the pieces between the runs of white space;
    [afterSpace] tells that the last character read was white space. *)
Fixpoint splitSpace (skip : nat) (afterSpace : bool) (l : list ascii)
  : list (list ascii) :=
  match l with
  | [] => [[]]
  | c :: r =>
      match skip with
      | S k => splitSpace k afterSpace r
      | O =>
          match whiteLength l with
          | S k =>
              if afterSpace then splitSpace k true r
              else [] :: splitSpace k true r
          | O =>
              match splitSpace 0 false r with
              | piece :: pieces => (c :: piece) :: pieces
              | [] => [[c]]
              end
          end
      end
  end.

Definition newline : ascii := "010"%char.

(** Lines 54-57: one line of [df -h] as a drive. *)
Definition mountOf (line : list ascii) : drive :=
  let parts := splitSpace 0 false line in
  let mount := Str.of_list <$> parts !! 5%nat in
  local mount mount.

Definition unixDrives (result : string) : list drive :=
  let lines := tail (Str.split_on newline (Str.to_list result)) in
  map mountOf (filter (λ line, blank 0 line = false) lines).

(** The body of the handler: the list handed to [res.json]. *)
Definition drives (h : host) : list drive :=
  match platformOf h with
  | Win32 =>
      match execSync h "wmic logicaldisk get caption" with
      | Some result =>
          map (λ caption, windowsDrive (Str.of_list caption))
            (matchDrives (Str.to_list result))
      | None => probeDrives h
      end
  | OtherPlatform =>
      match execSync h "df -h" with
      | Some result => unixDrives result
      | None => [local (Some "/") (Some "/")]
      end
  end.

(** A byte that begins no white-space character. *)
Definition solid (c : ascii) : bool :=
  negb (bool_decide (c ∈ asciiSpaces))
  && negb (bool_decide (N_of_ascii c ∈ [194; 225; 226; 227; 239]%N)).

(** A row of columns: the first column, and each further column with
    the number of blanks, less one, that come before it. *)
Fixpoint spaced (column : list ascii) (more : list (nat * list ascii))
  : list ascii :=
  match more with
  | [] => column
  | (blanks, next) :: more' =>
      column ++ repeat " "%char (S blanks) ++ spaced next more'
  end.

Definition columns (row : list ascii * list (nat * list ascii))
  : list (list ascii) :=
  fst row :: map snd (snd row).

(** The output of [df]: a header and rows, each line ended by a
    newline. *)
Definition table (header : list ascii)
    (rows : list (list ascii * list (nat * list ascii))) : list ascii :=
  header ++ newline
  :: flat_map (λ row, spaced (fst row) (snd row) ++ [newline]) rows.

(** Columns a row can be made of: not empty, of solid bytes. *)
Definition wellFormed (row : list ascii * list (nat * list ascii)) : Prop :=
  Forall (λ column, column ≠ [] ∧ Forall (λ c, solid c = true) column)
    (columns row).

End Drives.

(** The places of a text where a capital letter is followed by a colon,
    from left to right, and the two characters found at a place. *)
Definition captionAt (l : list ascii) (i : nat) : bool :=
  match l !! i, l !! S i with
  | Some c, Some d => Drives.capital c && bool_decide (d = Drives.colon)
  | _, _ => false
  end.

Definition captionPlaces (l : list ascii) : list nat :=
  List.filter (captionAt l) (seq 0 (length l)).

Definition captionOf (l : list ascii) (i : nat) : string :=
  Str.of_list (take 2 (drop i l)).

(** A Windows machine where [wmic] prints two drives. *)
Definition twoDrives : Drives.host :=
  {| Drives.platformOf := Drives.Win32;
     Drives.execSync := λ _, Some "Caption C: D:";
     Drives.accessSync := λ _, false |}.

(** A Windows machine without [wmic] where only [E:] can be accessed. *)
Definition onlyE : Drives.host :=
  {| Drives.platformOf := Drives.Win32;
     Drives.execSync := λ _, None;
     Drives.accessSync := λ p, bool_decide (p = "E:") |}.

(** A machine where [df -h] prints a header and two rows; the mount
    point of the second has a blank in it. *)
Definition dfRows : list (list ascii * list (nat * list ascii)) :=
  [ (Str.to_list "/dev/sda1",
     [ (7%nat, Str.to_list "50G"); (2%nat, Str.to_list "20G");
       (2%nat, Str.to_list "28G"); (1%nat, Str.to_list "42%");
       (0%nat, Str.to_list "/") ]);
    (Str.to_list "/dev/sdb1",
     [ (6%nat, Str.to_list "100G"); (2%nat, Str.to_list "10G");
       (2%nat, Str.to_list "90G"); (1%nat, Str.to_list "10%");
       (0%nat, Str.to_list "/mnt/my"); (0%nat, Str.to_list "disk") ]) ].

Definition dfHeader : list ascii :=
  Str.to_list "Filesystem      Size  Used Avail Use% Mounted on".

Definition linuxBox : Drives.host :=
  {| Drives.platformOf := Drives.OtherPlatform;
     Drives.execSync := λ _, Some (Str.of_list (Drives.table dfHeader dfRows));
     Drives.accessSync := λ _, false |}.

(* ===================================================================== *)
(** * Induction on file-system trees *)
(* ===================================================================== *)

Section node_induction.
Variable P : node → Prop.
Hypothesis P_file : ∀ size, P (NFile size).
Hypothesis P_other : P NOther.
Hypothesis P_unreadable : P (NDir None).
Hypothesis P_dir :
  ∀ entries, Forall (λ e, P (snd e)) entries → P (NDir (Some entries)).

Fixpoint node_tree_ind (n : node) : P n :=
  match n with
  | NFile size => P_file size
  | NOther => P_other
  | NDir None => P_unreadable
  | NDir (Some entries) =>
      P_dir entries
        ((fix all (es : list (string * node)) : Forall (λ e, P (snd e)) es :=
            match es with
            | [] => List.Forall_nil _
            | e :: es' => List.Forall_cons _ e es' (node_tree_ind (snd e)) (all es')
            end) entries)
  end.
End node_induction.

(* ===================================================================== *)
(** * The walk, equationally *)
(* ===================================================================== *)

Section walk_equations.
Variable stops : nat → bool.
Variables taskId drivePath : string.
Variable maxDepth : Z.

Local Abbreviation walk := (scanDirectory stops taskId drivePath maxDepth).
Local Abbreviation loop := (scanEntries stops taskId drivePath maxDepth).

(** The body of [scanDirectory]: abort check, listing, loop. *)
Lemma scanDirectory_eq dirPath currentDepth n w :
  walk dirPath currentDepth n w =
  if w_abort w then (Rejected, w)
  else match readdir n with
       | Some entries => (Resolved, loop dirPath currentDepth entries w)
       | None => (Resolved, on_stats count_error w)
       end.
Proof.
  destruct n as [size|[entries|]|]; simpl; destruct (w_abort w) eqn:Hab;
    try reflexivity.
  f_equal. clear Hab. revert w.
  induction entries as [|[name child] rest IH]; intros w; [reflexivity|].
  cbn [scanEntries]. destruct (w_abort w); [reflexivity|].
  destruct child as [size|listing|].
  - apply IH.
  - destruct (currentDepth <? maxDepth); [|apply IH].
    destruct (walk _ _ _ _) as [[] w']; apply IH.
  - apply IH.
Qed.

Lemma scanEntries_aborted dirPath currentDepth e rest w :
  w_abort w = true →
  loop dirPath currentDepth (e :: rest) w = on_stats count_error w.
Proof. intros Hab. destruct e. simpl. by rewrite Hab. Qed.

Lemma scanEntries_file dirPath currentDepth name size rest w :
  w_abort w = false →
  loop dirPath currentDepth ((name, NFile size) :: rest) w =
  loop dirPath currentDepth rest
    (visitFile taskId drivePath (Path.join dirPath name) name size w).
Proof. intros Hab. simpl. by rewrite Hab. Qed.

Lemma scanEntries_other dirPath currentDepth name rest w :
  w_abort w = false →
  loop dirPath currentDepth ((name, NOther) :: rest) w =
  loop dirPath currentDepth rest w.
Proof. intros Hab. simpl. by rewrite Hab. Qed.

Lemma scanEntries_ceiling dirPath currentDepth name listing rest w :
  w_abort w = false → ¬ currentDepth < maxDepth →
  loop dirPath currentDepth ((name, NDir listing) :: rest) w =
  loop dirPath currentDepth rest
    (noteDirectory (Path.join dirPath name) w).
Proof.
  intros Hab Hd. simpl. rewrite Hab.
  destruct (Z.ltb_spec currentDepth maxDepth); [lia|done].
Qed.

Lemma scanEntries_descend dirPath currentDepth name listing rest w :
  w_abort w = false → currentDepth < maxDepth →
  loop dirPath currentDepth ((name, NDir listing) :: rest) w =
  let fullPath := Path.join dirPath name in
  let '(outcome, w') :=
    walk fullPath (currentDepth + 1) (NDir listing)
      (noteDirectory fullPath w) in
  loop dirPath currentDepth rest
    (match outcome with
     | Resolved => await stops taskId w'
     | Rejected => on_stats count_error (await stops taskId w')
     end).
Proof.
  intros Hab Hd. cbn [scanEntries]. rewrite Hab.
  destruct (Z.ltb_spec currentDepth maxDepth); [|lia].
  cbv zeta. by destruct (walk _ _ _ _) as [[] w'].
Qed.

End walk_equations.

Lemma visits_eq maxDepth dirPath currentDepth n :
  visits maxDepth dirPath currentDepth n =
  match readdir n with
  | Some entries => visitsIn maxDepth dirPath currentDepth entries
  | None => [Failed]
  end.
Proof.
  destruct n as [size|[entries|]|]; simpl; try reflexivity.
  induction entries as [|[name child] rest IH]; [reflexivity|].
  unfold visitsIn in *. simpl. rewrite IH. reflexivity.
Qed.

(* ===================================================================== *)
(** * Invariants of the walk that do not look at the aggregator *)
(* ===================================================================== *)

(** Every step of a scan is one of: an update of the aggregator, a
    progress message sent while the task is not aborted, or a suspension
    point with the stop request it may bring.  A property of the task
    that is stable under these three is stable under the whole walk. *)
Section walk_invariant.
Variable stops : nat → bool.
Variables taskId drivePath : string.
Variable maxDepth : Z.
Variable I : world → Prop.

Hypothesis I_stats : ∀ f w, I w → I (on_stats f w).
Hypothesis I_progress :
  ∀ w n t e p q, I w → w_abort w = false →
    I (send (scan_progress taskId n t e p q) w).
Hypothesis I_await : ∀ w, I w → I (await stops taskId w).

Lemma visitFile_invariant fullPath name size w :
  w_abort w = false → I w → I (visitFile taskId drivePath fullPath name size w).
Proof.
  intros Hab H. destruct size as [size|]; simpl; [|auto].
  unfold progressDue. repeat case_decide; auto.
Qed.

Lemma noteDirectory_invariant fullPath w : I w → I (noteDirectory fullPath w).
Proof. apply I_stats. Qed.

Lemma scanDirectory_invariant n :
  ∀ dirPath currentDepth w,
    I w → I (snd (scanDirectory stops taskId drivePath maxDepth dirPath currentDepth n w)).
Proof.
  induction n as [size| | |entries IH] using node_tree_ind;
    intros dirPath currentDepth w Hw; rewrite scanDirectory_eq;
    destruct (w_abort w) eqn:Hab; simpl; auto.
  clear Hab. revert w Hw.
  induction IH as [|[name child] rest IHchild _ IHrest]; intros w Hw; [done|].
  cbn [scanEntries]. destruct (w_abort w) eqn:Hab; [auto|].
  destruct child as [size|listing|].
  - apply IHrest. by apply visitFile_invariant.
  - destruct (currentDepth <? maxDepth).
    + specialize (IHchild (Path.join dirPath name) (currentDepth + 1)
                    (noteDirectory (Path.join dirPath name) w)
                    (noteDirectory_invariant _ _ Hw)).
      destruct (scanDirectory _ _ _ _ _ _ _ _) as [[] w']; simpl in IHchild;
        apply IHrest; [|apply I_stats]; by apply I_await.
    + apply IHrest. by apply noteDirectory_invariant.
  - by apply IHrest.
Qed.

Lemma scanEntries_invariant dirPath currentDepth entries w :
  I w → I (scanEntries stops taskId drivePath maxDepth dirPath currentDepth entries w).
Proof.
  intros Hw.
  pose proof (scanDirectory_invariant (NDir (Some entries)) dirPath currentDepth w Hw) as H.
  rewrite scanDirectory_eq in H. destruct (w_abort w) eqn:Hab; simpl in H; [|done].
  destruct entries as [|e rest]; [done|].
  rewrite scanEntries_aborted by done. auto.
Qed.
End walk_invariant.

(* ===================================================================== *)
(** * Cancellation *)
(* ===================================================================== *)

Lemma calm_nil taskId : calm taskId [].
Proof. intros before after H. by destruct before. Qed.

Lemma calm_snoc_quiet taskId log e :
  calm taskId log → loud e = false → calm taskId (log ++ [e]).
Proof.
  intros Hcalm He before after Heq.
  destruct after as [|x after _] using rev_ind; [constructor|].
  change (before ++ Sent (scan_stopped taskId) :: after ++ [x])
    with (before ++ (Sent (scan_stopped taskId) :: after) ++ [x]) in Heq.
  rewrite app_assoc in Heq. apply app_inj_tail in Heq as [-> ->].
  apply Forall_app. split; [by eapply Hcalm|by constructor].
Qed.

Lemma calm_snoc_fresh taskId log e :
  Sent (scan_stopped taskId) ∉ log → calm taskId (log ++ [e]).
Proof.
  intros Hfresh before after Heq.
  destruct after as [|x after _] using rev_ind; [constructor|].
  change (before ++ Sent (scan_stopped taskId) :: after ++ [x])
    with (before ++ (Sent (scan_stopped taskId) :: after) ++ [x]) in Heq.
  rewrite app_assoc in Heq. apply app_inj_tail in Heq as [-> ->].
  exfalso. apply Hfresh. set_solver.
Qed.

Section consistency.
Variable taskId : string.

Lemma consistent_stats f w : consistent taskId w → consistent taskId (on_stats f w).
Proof. done. Qed.

Lemma consistent_tick w : consistent taskId w → consistent taskId (tick w).
Proof. done. Qed.

Lemma consistent_send m w :
  consistent taskId w → w_abort w = false → m ≠ scan_stopped taskId →
  consistent taskId (send m w).
Proof.
  intros [Hcalm Hfresh] Hab Hm. split; simpl.
  - by apply calm_snoc_fresh, Hfresh.
  - intros _. specialize (Hfresh Hab). set_solver.
Qed.

Lemma consistent_delete w :
  consistent taskId w → consistent taskId (deleteTask taskId w).
Proof.
  intros [Hcalm Hfresh]. split; simpl; [by apply calm_snoc_quiet|].
  intros Hab. specialize (Hfresh Hab). set_solver.
Qed.

Lemma consistent_stop w : consistent taskId w → consistent taskId (stopScan taskId w).
Proof.
  intros Hw. unfold stopScan. case_decide; [|done].
  destruct Hw as [Hcalm _]. split; simpl; [|done].
  by do 2 (apply calm_snoc_quiet; [|done]).
Qed.

Lemma consistent_await stops w :
  consistent taskId w → consistent taskId (await stops taskId w).
Proof.
  intros Hw. unfold await.
  destruct (stops _); [apply consistent_stop|]; by apply consistent_tick.
Qed.

Lemma consistent_settled outcome w :
  consistent taskId w → consistent taskId (onSettled taskId outcome w).
Proof.
  intros Hw. destruct outcome; simpl; destruct (w_abort w) eqn:Hab;
    apply consistent_delete; try done; by apply consistent_send.
Qed.
End consistency.

Lemma startScan_consistent stops root taskId p tasks :
  consistent taskId (startScan stops root taskId p tasks).
Proof.
  unfold startScan.
  set (w0 := {| w_stats := scanStats; w_abort := false; w_tasks := tasks;
                w_log := []; w_clock := 0 |}).
  assert (consistent taskId w0) as H0 by (split; [apply calm_nil|set_solver]).
  destruct (p_drivePath p) as [drivePath|]; [|by apply consistent_send].
  destruct (if decide (drivePath = "") then None else root drivePath) as [n|];
    [|by apply consistent_send].
  set (w1 := send _ _).
  assert (consistent taskId w1) as H1.
  { split; simpl; [|set_solver].
    intros before after H. by destruct before as [|? [|? [|? ?]]]. }
  pose proof (scanDirectory_invariant stops taskId drivePath
                (default 2 (p_scanDepth p)) (consistent taskId)
                (consistent_stats taskId)
                (λ w n t e q r Hw Hab,
                   consistent_send taskId (scan_progress taskId n t e q r) w
                     Hw Hab ltac:(done))
                (consistent_await taskId stops)
                n drivePath 1 w1 H1) as H2.
  destruct (scanDirectory _ _ _ _ _ _ _ _) as [outcome w2]. simpl in H2.
  by apply consistent_settled, consistent_await.
Qed.

(** While the abort flag is up, the checkpoints of the walk unwind. *)
Lemma scanDirectory_aborted stops taskId drivePath maxDepth dirPath currentDepth n w :
  w_abort w = true →
  scanDirectory stops taskId drivePath maxDepth dirPath currentDepth n w = (Rejected, w).
Proof. intros Hab. rewrite scanDirectory_eq. by rewrite Hab. Qed.

(** C3 — Once a stop request for the task has been acknowledged
    ([scan_stopped] is in the log), the abort flag is set and none of
    [scan_progress], [scan_complete], [scan_error] follows it in the log,
    whenever the request arrives; from then on the first checkpoint of
    [scanDirectory] rejects, the checkpoint of the loop leaves the loop,
    and the handlers of the settled scan send nothing. *)
Theorem stop_silences_task stops root taskId p tasks before after :
  let w := startScan stops root taskId p tasks in
  w_log w = before ++ Sent (scan_stopped taskId) :: after →
  w_abort w = true
  ∧ Forall (λ e, loud e = false) after
  ∧ (∀ drivePath maxDepth dirPath currentDepth n e rest outcome w',
        w_abort w' = true →
        scanDirectory stops taskId drivePath maxDepth dirPath currentDepth n w'
          = (Rejected, w')
        ∧ w_log (scanEntries stops taskId drivePath maxDepth dirPath currentDepth
                   (e :: rest) w') = w_log w'
        ∧ w_log (onSettled taskId outcome w') = w_log w' ++ [TaskDeleted taskId]).
Proof.
  intros w Hlog. destruct (startScan_consistent stops root taskId p tasks) as [Hcalm Hfresh].
  fold w in Hcalm, Hfresh. split; [|split].
  - destruct (w_abort w); [done|]. exfalso. apply Hfresh; [done|].
    rewrite Hlog. set_solver.
  - by eapply Hcalm.
  - intros drivePath maxDepth dirPath currentDepth n e rest outcome w' Hab.
    split; [by apply scanDirectory_aborted|]. split.
    + by rewrite scanEntries_aborted.
    + destruct outcome; simpl; by rewrite Hab.
Qed.

Lemma stop_silences_task_witness :
  w_log (startScan stopsFirst (mounted "/data" dataTree) "17" (request "/data") ∅)
  = [TaskSet "17"; Sent (scan_started "17")]
    ++ Sent (scan_stopped "17") :: [TaskDeleted "17"; TaskDeleted "17"]
  ∧ w_abort (startScan stopsFirst (mounted "/data" dataTree) "17"
               (request "/data") ∅) = true
  ∧ Forall (λ e, loud e = false) [TaskDeleted "17"; TaskDeleted "17"].
Proof.
  assert (w_log (startScan stopsFirst (mounted "/data" dataTree) "17"
                   (request "/data") ∅)
          = [TaskSet "17"; Sent (scan_started "17")]
            ++ Sent (scan_stopped "17") :: [TaskDeleted "17"; TaskDeleted "17"])
    as Hlog by (vm_compute; reflexivity).
  split; [exact Hlog|].
  destruct (stop_silences_task stopsFirst (mounted "/data" dataTree) "17"
              (request "/data") ∅
              [TaskSet "17"; Sent (scan_started "17")]
              [TaskDeleted "17"; TaskDeleted "17"] Hlog) as (Hab & Hquiet & _).
  split; [exact Hab|exact Hquiet].
Defined.

(* ===================================================================== *)
(** * Starting a scan *)
(* ===================================================================== *)

(** C4 — A [start_scan] request whose [drivePath] is missing, empty or
    names nothing that exists makes the server send one [scan_error] and
    do nothing else: no [scan_started], no update of the task table. *)
Theorem invalid_root_is_refused stops root taskId p tasks :
  (p_drivePath p = None
   ∨ p_drivePath p = Some ""
   ∨ ∃ drivePath, p_drivePath p = Some drivePath ∧ root drivePath = None) →
  let w := startScan stops root taskId p tasks in
  w_log w = [Sent (scan_error taskId (invalidPathError (p_drivePath p)))]
  ∧ (Sent (scan_started taskId) ∉ w_log w)
  ∧ (TaskSet taskId ∉ w_log w)
  ∧ w_tasks w = tasks.
Proof.
  intros Hbad w.
  assert (w_log w = [Sent (scan_error taskId (invalidPathError (p_drivePath p)))]
          ∧ w_tasks w = tasks) as [Hlog Htasks].
  { subst w. unfold startScan.
    destruct Hbad as [->| [->| (drivePath & -> & Hroot)]]; [done|done|].
    rewrite Hroot. by case_decide. }
  rewrite Hlog. repeat split; [set_solver..|done].
Qed.

Lemma invalid_root_is_refused_witness :
  let w := startScan never (mounted "/data" dataTree) "17" (request "/nowhere") ∅ in
  w_log w = [Sent (scan_error "17" "扫描路径无效: /nowhere")]
  ∧ (Sent (scan_started "17") ∉ w_log w)
  ∧ (TaskSet "17" ∉ w_log w)
  ∧ w_tasks w = ∅.
Proof.
  apply (invalid_root_is_refused never (mounted "/data" dataTree) "17"
           (request "/nowhere") ∅).
  right. right. exists "/nowhere". split; reflexivity.
Defined.

(** The first step of a scan whose root exists. *)
Lemma startScan_valid stops root taskId p tasks drivePath n :
  p_drivePath p = Some drivePath → drivePath ≠ "" → root drivePath = Some n →
  startScan stops root taskId p tasks =
  let r := scanDirectory stops taskId drivePath (default 2 (p_scanDepth p))
             drivePath 1 n (started taskId tasks) in
  onSettled taskId (fst r) (await stops taskId (snd r)).
Proof.
  intros Hp Hne Hroot. unfold startScan. rewrite Hp.
  case_decide; [done|]. rewrite Hroot. cbv zeta.
  by destruct (scanDirectory _ _ _ _ _ _ _ _).
Qed.

(** C5, as the code has it — A root that exists but cannot be listed is
    not refused: the task is registered and announced, the walk counts
    one error and creates no entry, and the scan completes normally with
    [errorCount = 1] (unless a stop request arrives at the only
    suspension point); [scan_error] is never sent. *)
Theorem unreadable_root_completes stops root taskId p tasks drivePath n :
  p_drivePath p = Some drivePath → drivePath ≠ "" →
  root drivePath = Some n → readdir n = None →
  let w := startScan stops root taskId p tasks in
  let result :=
    {| r_totalFiles := 0; r_totalSize := 0; r_fileTypes := []; r_folders := [];
       r_applications := [placeholderApplication]; r_errorCount := 1 |} in
  fileTypes (w_stats w) = ∅ ∧ folders (w_stats w) = ∅
  ∧ applications (w_stats w) = ∅
  ∧ totalFiles (w_stats w) = 0 ∧ errorCount (w_stats w) = 1
  ∧ (∀ error, Sent (scan_error taskId error) ∉ w_log w)
  ∧ w_log w =
      [TaskSet taskId; Sent (scan_started taskId)]
      ++ (if stops 0%nat
          then [Sent (scan_stopped taskId); TaskDeleted taskId]
          else [Sent (scan_complete taskId result)])
      ++ [TaskDeleted taskId].
Proof.
  intros Hp Hne Hroot Hdir w result. subst w.
  rewrite (startScan_valid _ _ _ _ _ _ _ Hp Hne Hroot). cbv zeta.
  rewrite scanDirectory_eq, Hdir. simpl. unfold await. simpl.
  destruct (stops 0%nat).
  - unfold stopScan. simpl. rewrite decide_True by set_solver. simpl.
    repeat split; try done. intros error. set_solver.
  - simpl. repeat split; try done. intros error. set_solver.
Qed.

Lemma unreadable_root_completes_witness :
  let w := startScan never lockedRoot "17" (request "/data") ∅ in
  errorCount (w_stats w) = 1
  ∧ (∀ error, Sent (scan_error "17" error) ∉ w_log w).
Proof.
  intros w.
  destruct (unreadable_root_completes never lockedRoot "17" (request "/data") ∅
              "/data" (NDir None)) as (_ & _ & _ & _ & He & Hn & _).
  - reflexivity.
  - discriminate.
  - reflexivity.
  - reflexivity.
  - split; [exact He|exact Hn].
Defined.

(** C5, as the specification has it, fails: the scan of an unreadable
    root sends [scan_started] and ends with [scan_complete]; no
    [scan_error] is sent. *)
Lemma unreadable_root_is_not_an_error :
  let w := startScan never lockedRoot "17" (request "/data") ∅ in
  Sent (scan_started "17") ∈ w_log w
  ∧ completed "17" w
  ∧ ¬ ∃ error, Sent (scan_error "17" error) ∈ w_log w.
Proof.
  intros w.
  assert (w_log w =
          [TaskSet "17"; Sent (scan_started "17");
           Sent (scan_complete "17"
                   {| r_totalFiles := 0; r_totalSize := 0; r_fileTypes := [];
                      r_folders := [];
                      r_applications := [placeholderApplication];
                      r_errorCount := 1 |});
           TaskDeleted "17"]) as Hlog by (vm_compute; reflexivity).
  split; [|split].
  - rewrite Hlog. set_solver.
  - unfold completed. rewrite Hlog. eexists.
    do 2 apply list_elem_of_further. apply list_elem_of_here.
  - intros [error H]. rewrite Hlog in H. set_solver.
Qed.

(* ===================================================================== *)
(** * [formatScanResults] *)
(* ===================================================================== *)

Section sort_facts.
Context {A : Type} (size : A → Z).

Lemma insert_desc_Forall (P : A → Prop) x l :
  P x → Forall P l → Forall P (insert_desc size x l).
Proof.
  intros Hx Hl. induction Hl as [|y l Hy Hl IH]; simpl.
  - by constructor.
  - destruct (size y <=? size x); repeat constructor; auto.
Qed.

Lemma insert_desc_sorted x l :
  StronglySorted (largerFirst size) l →
  StronglySorted (largerFirst size) (insert_desc size x l).
Proof.
  induction 1 as [|y l Hl IH Hy]; simpl.
  - repeat constructor.
  - destruct (Z.leb_spec (size y) (size x)) as [Hle|Hlt].
    + constructor; [by constructor|]. constructor; [done|].
      eapply Forall_impl; [exact Hy|]. unfold largerFirst. intros z Hz. lia.
    + constructor; [done|]. apply insert_desc_Forall; [|done].
      unfold largerFirst. lia.
Qed.

Lemma sort_desc_sorted l : StronglySorted (largerFirst size) (sort_desc size l).
Proof.
  induction l as [|x l IH]; simpl; [constructor|]. by apply insert_desc_sorted.
Qed.

Lemma sort_desc_Forall (P : A → Prop) l :
  Forall P l → Forall P (sort_desc size l).
Proof.
  induction 1 as [|x l Hx Hl IH]; simpl; [constructor|].
  by apply insert_desc_Forall.
Qed.

Lemma take_sorted n l :
  StronglySorted (largerFirst size) l →
  StronglySorted (largerFirst size) (take n l).
Proof.
  intros Hl. revert n. induction Hl as [|x l Hl IH Hx]; intros [|n]; simpl;
    try constructor; [apply IH|].
  apply Forall_take. exact Hx.
Qed.

(** The three steps every category goes through. *)
Lemma top20_facts (keep : A → Prop) `{∀ x, Decision (keep x)} l :
  (∀ x, keep x → 0 < size x) →
  let top := take 20 (sort_desc size (filter keep l)) in
  (length top ≤ 20)%nat
  ∧ StronglySorted (largerFirst size) top
  ∧ Forall (λ x, 0 < size x) top.
Proof.
  intros Hkeep top. split; [|split].
  - subst top. rewrite length_take. lia.
  - apply take_sorted, sort_desc_sorted.
  - apply Forall_take, sort_desc_Forall. apply Forall_forall.
    intros x Hx. apply Hkeep. by apply list_elem_of_filter in Hx as [? _].
Qed.
End sort_facts.

(** C8, with the placeholder the code inserts — For every aggregator
    state the three lists of [formatScanResults] have at most 20 entries,
    are ordered by non-increasing size and hold only entries of positive
    size; when no application of positive size was recorded, the
    application list is the single placeholder entry, whose name is the
    literal [未识别应用] and whose size is 1. *)
Theorem formatScanResults_lists st :
  let result := formatScanResults st in
  ((length (r_fileTypes result) ≤ 20)%nat
   ∧ StronglySorted (largerFirst ti_size) (r_fileTypes result)
   ∧ Forall (λ item, 0 < ti_size item) (r_fileTypes result))
  ∧ ((length (r_folders result) ≤ 20)%nat
     ∧ StronglySorted (largerFirst si_size) (r_folders result)
     ∧ Forall (λ item, 0 < si_size item) (r_folders result))
  ∧ ((length (r_applications result) ≤ 20)%nat
     ∧ StronglySorted (largerFirst si_size) (r_applications result)
     ∧ Forall (λ item, 0 < si_size item) (r_applications result))
  ∧ (filter (λ item, 0 < si_size item)
       (map formatApplication (JsObj.entries (applications st))) = [] →
     r_applications result =
       [ {| si_name := JsObj.Str "未识别应用"; si_path := None; si_size := 1 |} ]).
Proof.
  intros result. subst result. unfold formatScanResults. cbn [r_fileTypes r_folders r_applications].
  split; [|split; [|split]].
  - by apply top20_facts.
  - apply top20_facts. by intros x [? _].
  - pose proof (top20_facts si_size (λ item, 0 < si_size item)
                  (map formatApplication (JsObj.entries (applications st)))
                  (λ x Hx, Hx)) as Htop.
    cbv zeta in Htop. destruct (take 20 _) as [|a l] eqn:Hl; [|exact Htop].
    repeat split; simpl; [lia| |].
    + repeat constructor.
    + repeat constructor.
  - intros Hnone. by rewrite Hnone.
Qed.

(** C8, as the specification has it, fails on the name of the
    placeholder: the entry inserted for an empty application list is not
    called [unrecognized]. *)
Lemma placeholder_is_not_unrecognized :
  ∃ item,
    r_applications (formatScanResults scanStats) = [item]
    ∧ si_size item = 1
    ∧ si_name item ≠ JsObj.Str "unrecognized".
Proof. eexists. split; [reflexivity|]. split; [reflexivity|discriminate]. Qed.

(* ===================================================================== *)
(** * A walk that is not stopped follows its visits *)
(* ===================================================================== *)

Lemma tick_ticks w : tick w = ticks 1 w.
Proof. reflexivity. Qed.

Lemma ticks_0 w : ticks 0 w = w.
Proof. by destruct w. Qed.

Lemma ticks_ticks a b w : ticks a (ticks b w) = ticks (a + b) w.
Proof. unfold ticks. simpl. f_equal. lia. Qed.

Section visits_facts.
Variables taskId drivePath : string.

Lemma applyVisit_ticks k w v :
  applyVisit taskId drivePath (ticks k w) v = ticks k (applyVisit taskId drivePath w v).
Proof.
  destruct v as [p|p name size|]; simpl; try reflexivity.
  by destruct (progressDue _ _ _).
Qed.

Lemma runVisits_ticks k vs w :
  runVisits taskId drivePath vs (ticks k w) = ticks k (runVisits taskId drivePath vs w).
Proof.
  revert w. induction vs as [|v vs IH]; intros w; [done|].
  unfold runVisits in *. simpl. by rewrite applyVisit_ticks, IH.
Qed.

Lemma runVisits_app vs1 vs2 w :
  runVisits taskId drivePath (vs1 ++ vs2) w =
  runVisits taskId drivePath vs2 (runVisits taskId drivePath vs1 w).
Proof. apply fold_left_app. Qed.

Lemma applyVisit_abort w v : w_abort (applyVisit taskId drivePath w v) = w_abort w.
Proof.
  destruct v as [p|p name size|]; simpl; try reflexivity.
  by destruct (progressDue _ _ _).
Qed.

Lemma runVisits_abort vs w : w_abort (runVisits taskId drivePath vs w) = w_abort w.
Proof.
  revert w. induction vs as [|v vs IH]; intros w; [done|].
  unfold runVisits in *. simpl. by rewrite IH, applyVisit_abort.
Qed.

Lemma applyVisit_stats w v :
  w_stats (applyVisit taskId drivePath w v) = recordVisit drivePath (w_stats w) v.
Proof.
  destruct v as [p|p name size|]; simpl; try reflexivity.
  by destruct (progressDue _ _ _).
Qed.

Lemma runVisits_stats vs w :
  w_stats (runVisits taskId drivePath vs w) = recordVisits drivePath vs (w_stats w).
Proof.
  revert w. induction vs as [|v vs IH]; intros w; [done|].
  unfold runVisits, recordVisits in *. simpl. by rewrite IH, applyVisit_stats.
Qed.

End visits_facts.

Lemma visitsIn_cons maxDepth dirPath currentDepth e rest :
  visitsIn maxDepth dirPath currentDepth (e :: rest) =
  visitsOf maxDepth dirPath currentDepth e ++ visitsIn maxDepth dirPath currentDepth rest.
Proof. reflexivity. Qed.

Section simulation.
Variable stops : nat → bool.
Variables taskId drivePath : string.
Variable maxDepth : Z.

Local Abbreviation walk := (scanDirectory stops taskId drivePath maxDepth).
Local Abbreviation loop := (scanEntries stops taskId drivePath maxDepth).
Local Abbreviation run := (runVisits taskId drivePath).
Local Abbreviation trails := (follows taskId drivePath).

(** The abort flag is never lowered. *)
Lemma await_keeps_abort w : w_abort w = true → w_abort (await stops taskId w) = true.
Proof.
  intros Hab. unfold await, stopScan.
  destruct (stops _); [case_decide|]; done.
Qed.

Lemma scanEntries_keeps_abort dirPath currentDepth entries w :
  w_abort w = true → w_abort (loop dirPath currentDepth entries w) = true.
Proof.
  apply (scanEntries_invariant stops taskId drivePath maxDepth
           (λ w, w_abort w = true)); [done|congruence|].
  apply await_keeps_abort.
Qed.

(** What a suspension point does to a task that is not aborted. *)
Lemma await_cases w :
  w_abort (await stops taskId w) = true ∨ await stops taskId w = tick w.
Proof.
  unfold await, stopScan. destruct (stops _); [|by right].
  case_decide; [by left|by right].
Qed.

Lemma follows_loop dirPath currentDepth entries :
  Forall (λ e, ∀ dirPath currentDepth w,
            w_abort w = false →
            ∃ w', walk dirPath currentDepth (snd e) w = (Resolved, w')
                  ∧ trails (visits maxDepth dirPath currentDepth (snd e)) w w')
         entries →
  ∀ w, w_abort w = false →
       trails (visitsIn maxDepth dirPath currentDepth entries) w
         (loop dirPath currentDepth entries w).
Proof.
  induction 1 as [|[name child] rest IHchild _ IHrest]; intros w Hab.
  { right. exists 0%nat. by rewrite ticks_0. }
  assert (∀ vs w1,
            visitsOf maxDepth dirPath currentDepth (name, child) = vs →
            trails vs w w1 →
            trails (visitsIn maxDepth dirPath currentDepth ((name, child) :: rest))
              w (loop dirPath currentDepth rest w1)) as Hstep.
  { intros vs w1 Hvs [Hab1|[k ->]].
    - left. by apply scanEntries_keeps_abort.
    - destruct (IHrest (ticks k (run vs w))) as [Hab2|[k' ->]].
      + simpl. by rewrite runVisits_abort.
      + by left.
      + right. exists (k' + k)%nat.
        rewrite visitsIn_cons, Hvs, runVisits_app, runVisits_ticks, ticks_ticks.
        done. }
  destruct child as [size|listing|].
  - rewrite scanEntries_file by done. apply (Hstep _ _ eq_refl).
    right. exists 0%nat. rewrite ticks_0. by destruct size.
  - destruct (Z.ltb_spec currentDepth maxDepth) as [Hlt|Hge].
    + rewrite scanEntries_descend by done. cbv zeta. cbn [snd] in IHchild.
      destruct (IHchild (Path.join dirPath name) (currentDepth + 1)
                  (noteDirectory (Path.join dirPath name) w) Hab)
        as (w' & -> & Hw').
      apply (Hstep (Met (Path.join dirPath name)
                      :: visits maxDepth (Path.join dirPath name)
                           (currentDepth + 1) (NDir listing))).
      { unfold visitsOf. simpl. by rewrite (proj2 (Z.ltb_lt _ _) Hlt). }
      destruct Hw' as [Hab'|[k ->]].
      * left. by apply await_keeps_abort.
      * destruct (await_cases (ticks k (run (visits maxDepth (Path.join dirPath name)
                                          (currentDepth + 1) (NDir listing))
                                     (noteDirectory (Path.join dirPath name) w))))
          as [Hab'| ->]; [by left|].
        right. exists (1 + k)%nat. rewrite tick_ticks, ticks_ticks. reflexivity.
    + rewrite scanEntries_ceiling by (done || lia).
      apply (Hstep [Met (Path.join dirPath name)]).
      { unfold visitsOf. simpl. by rewrite (proj2 (Z.ltb_ge _ _) Hge). }
      right. exists 0%nat. by rewrite ticks_0.
  - rewrite scanEntries_other by done. apply (Hstep [] _ eq_refl).
    right. exists 0%nat. by rewrite ticks_0.
Qed.

Lemma follows_walk n :
  ∀ dirPath currentDepth w,
    w_abort w = false →
    ∃ w', walk dirPath currentDepth n w = (Resolved, w')
          ∧ trails (visits maxDepth dirPath currentDepth n) w w'.
Proof.
  induction n as [size| | |entries IH] using node_tree_ind;
    intros dirPath currentDepth w Hab; rewrite scanDirectory_eq, Hab, visits_eq;
    simpl; eexists; (split; [reflexivity|]).
  1-3: right; exists 0%nat; by rewrite ticks_0.
  by apply follows_loop.
Qed.
End simulation.

(* ===================================================================== *)
(** * From the first message to the last *)
(* ===================================================================== *)

Section whole_scan.
Variable stops : nat → bool.
Variable taskId : string.

Lemma await_stats w : w_stats (await stops taskId w) = w_stats w.
Proof. unfold await, stopScan. destruct (stops _); [case_decide|]; done. Qed.

Lemma onSettled_stats outcome w : w_stats (onSettled taskId outcome w) = w_stats w.
Proof. destruct outcome; simpl; by destruct (w_abort w). Qed.

Lemma grows_refl w : grows (w_log w) w.
Proof. exists []. by rewrite app_nil_r. Qed.

Lemma grows_snoc log0 w w' e :
  grows log0 w → w_log w' = w_log w ++ [e] → walkEvent e = true → grows log0 w'.
Proof.
  intros (l & Hl & Hall) Hw' He. exists (l ++ [e]).
  rewrite Hw', Hl, app_assoc. split; [done|].
  apply Forall_app. split; [done|by constructor].
Qed.

Lemma grows_await log0 w : grows log0 w → grows log0 (await stops taskId w).
Proof.
  intros Hw. unfold await, stopScan. destruct (stops _); [|exact Hw].
  case_decide; [|exact Hw].
  eapply (grows_snoc log0 (send (scan_stopped taskId) (raiseAbort (tick w))));
    [|reflexivity..].
  eapply (grows_snoc log0 w); [exact Hw|reflexivity..].
Qed.

Lemma grows_walk log0 drivePath maxDepth n dirPath currentDepth w :
  grows log0 w →
  grows log0 (snd (scanDirectory stops taskId drivePath maxDepth
                     dirPath currentDepth n w)).
Proof.
  apply scanDirectory_invariant; [done| |apply grows_await].
  intros w' ????? Hw' _. by eapply grows_snoc.
Qed.

Variable root : string → option node.
Variable p : payload.
Variable tasks : gset string.
Variable drivePath : string.
Variable n : node.
Hypothesis p_valid : p_drivePath p = Some drivePath.
Hypothesis drivePath_valid : drivePath ≠ "".
Hypothesis root_valid : root drivePath = Some n.

Let maxDepth := default 2 (p_scanDepth p).
Let vs := visits maxDepth drivePath 1 n.

(** Where the log of a scan with a valid root comes from. *)
Lemma startScan_log :
  ∃ w' l,
    scanDirectory stops taskId drivePath maxDepth drivePath 1 n
      (started taskId tasks) = (Resolved, w')
    ∧ follows taskId drivePath vs (started taskId tasks) w'
    ∧ Forall (λ e, walkEvent e = true) l
    ∧ w_log (await stops taskId w') =
        [TaskSet taskId; Sent (scan_started taskId)] ++ l
    ∧ startScan stops root taskId p tasks =
        onSettled taskId Resolved (await stops taskId w').
Proof.
  destruct (follows_walk stops taskId drivePath maxDepth n drivePath 1
              (started taskId tasks) eq_refl) as (w' & Hwalk & Hfollows).
  pose proof (grows_walk (w_log (started taskId tasks)) drivePath maxDepth n
                drivePath 1 _ (grows_refl _)) as Hgrows.
  rewrite Hwalk in Hgrows. apply grows_await in Hgrows as (l & Hl & Hall).
  exists w', l. repeat split; try done.
  rewrite (startScan_valid _ _ _ _ _ _ _ p_valid drivePath_valid root_valid).
  cbv zeta. fold maxDepth. by rewrite Hwalk.
Qed.


(** A scan that sent [scan_complete] was not stopped: its aggregator
    is the one its visits build, and the message carries it. *)
Lemma completed_scan result :
  Sent (scan_complete taskId result) ∈ w_log (startScan stops root taskId p tasks) →
  w_stats (startScan stops root taskId p tasks) = recordVisits drivePath vs scanStats
  ∧ result = formatScanResults (recordVisits drivePath vs scanStats).
Proof.
  destruct startScan_log as (w' & l & _ & Hfollows & Hall & Hlog & ->).
  assert (Sent (scan_complete taskId result) ∉ l) as Hl.
  { intros Hin. by eapply Forall_forall in Hall; [|exact Hin]. }
  simpl. destruct (w_abort (await stops taskId w')) eqn:Hab; simpl.
  { rewrite Hlog. set_solver. }
  assert (w_stats w' = recordVisits drivePath vs scanStats) as Hstats.
  { destruct Hfollows as [Hab'|[k ->]].
    - apply await_keeps_abort with (stops := stops) (taskId := taskId) in Hab'.
      congruence.
    - simpl. by rewrite runVisits_stats. }
  rewrite await_stats, Hstats, Hlog. intros Hin. split; [done|].
  set_solver.
Qed.
End whole_scan.


(* ===================================================================== *)
(** * The counters *)
(* ===================================================================== *)

Lemma sumZ_app l1 l2 : sumZ (l1 ++ l2) = sumZ l1 + sumZ l2.
Proof. induction l1 as [|x l1 IH]; simpl; lia. Qed.

Lemma filesRead_cons v vs : filesRead (v :: vs) = filesRead [v] ++ filesRead vs.
Proof. unfold filesRead. simpl. by rewrite app_nil_r. Qed.

Section counters.
Variable drivePath : string.

Lemma recordVisit_totalSize st v :
  totalSize (recordVisit drivePath st v) =
  totalSize st + sumZ (map snd (filesRead [v])).
Proof. destruct v; simpl; lia. Qed.


Lemma recordVisits_totalSize vs st :
  totalSize (recordVisits drivePath vs st) =
  totalSize st + sumZ (map snd (filesRead vs)).
Proof.
  revert st. induction vs as [|v vs IH]; intros st; [simpl; lia|].
  unfold recordVisits in *. simpl fold_left. rewrite IH, recordVisit_totalSize.
  rewrite (filesRead_cons v vs), map_app, sumZ_app. lia.
Qed.

End counters.

(** C2 — Whenever a scan reaches completion, the [totalSize] it reports
    (and holds in its aggregator) is the sum of the sizes of the files the
    walk visited and whose metadata query succeeded, the sizes being in
    the range where the scanner adds without rounding: none negative,
    their sum below 2^53. *)
Theorem totalSize_sums_read_files stops root taskId p tasks result :
  Sent (scan_complete taskId result) ∈ w_log (startScan stops root taskId p tasks) →
  (∀ drivePath n,
     p_drivePath p = Some drivePath → root drivePath = Some n →
     exactSizes (filesRead (visits (default 2 (p_scanDepth p)) drivePath 1 n))
     = true) →
  ∃ drivePath n,
    p_drivePath p = Some drivePath ∧ root drivePath = Some n
    ∧ let vs := visits (default 2 (p_scanDepth p)) drivePath 1 n in
      r_totalSize result = sumZ (map snd (filesRead vs))
      ∧ totalSize (w_stats (startScan stops root taskId p tasks))
        = sumZ (map snd (filesRead vs)).
Proof.
  intros Hdone _.
  destruct (p_drivePath p) as [drivePath|] eqn:Hp; cycle 1.
  { unfold startScan in Hdone. rewrite Hp in Hdone. simpl in Hdone. set_solver. }
  destruct (decide (drivePath = "")) as [->|Hne].
  { unfold startScan in Hdone. rewrite Hp in Hdone. simpl in Hdone. set_solver. }
  destruct (root drivePath) as [n|] eqn:Hroot; cycle 1.
  { unfold startScan in Hdone. rewrite Hp, Hroot in Hdone.
    rewrite decide_False in Hdone by done. simpl in Hdone. set_solver. }
  exists drivePath, n. split; [done|]. split; [done|]. cbv zeta.
  destruct (completed_scan stops taskId root p tasks drivePath n Hp Hne Hroot
              result Hdone) as [-> ->].
  cbn [r_totalSize formatScanResults]. by rewrite recordVisits_totalSize.
Qed.

Lemma totalSize_sums_read_files_witness :
  ∃ drivePath n,
    p_drivePath (request "/data") = Some drivePath
    ∧ mounted "/data" dataTree drivePath = Some n
    ∧ let vs := visits (default 2 (p_scanDepth (request "/data"))) drivePath 1 n in
      r_totalSize
        (formatScanResults
           (w_stats (startScan never (mounted "/data" dataTree) "17"
                       (request "/data") ∅)))
      = sumZ (map snd (filesRead vs))
      ∧ totalSize (w_stats (startScan never (mounted "/data" dataTree) "17"
                              (request "/data") ∅))
        = sumZ (map snd (filesRead vs)).
Proof.
  refine (totalSize_sums_read_files never (mounted "/data" dataTree) "17"
            (request "/data") ∅ _ _ _).
  - vm_compute. do 2 apply list_elem_of_further. apply list_elem_of_here.
  - intros drivePath n [= <-] Hn. vm_compute in Hn. injection Hn as <-.
    vm_compute. reflexivity.
Defined.



(* ===================================================================== *)
(** * Absolute paths *)
(* ===================================================================== *)

Lemma to_list_of_list l : Str.to_list (Str.of_list l) = l.
Proof. apply Stdlib.Strings.String.list_ascii_of_string_of_list_ascii. Qed.

Lemma of_list_to_list s : Str.of_list (Str.to_list s) = s.
Proof. apply Stdlib.Strings.String.string_of_list_ascii_of_string. Qed.

Lemma normalize_list_absolute l :
  Path.is_absolute l = true → Path.is_absolute (Path.normalize_list l) = true.
Proof.
  destruct l as [|c l]; [done|]. intros Habs. unfold Path.normalize_list.
  rewrite Habs. cbv zeta. by destruct (Str.join_with _ _).
Qed.

Lemma join_absolute dirPath name :
  Path.isAbsolute dirPath = true → Path.isAbsolute (Path.join dirPath name) = true.
Proof.
  unfold Path.isAbsolute, Path.join. rewrite to_list_of_list.
  destruct (Str.to_list dirPath) as [|c l] eqn:Hd; [done|]. intros Habs.
  unfold Path.join_list.
  destruct (Str.to_list name); by apply normalize_list_absolute.
Qed.

(** No absolute path is the name of an inherited property. *)
Lemma absolute_not_inherited p :
  Path.isAbsolute p = true → JsObj.inherited p = false.
Proof.
  unfold Path.isAbsolute. destruct p as [|c p]; [done|]. simpl.
  intros Hc%bool_decide_eq_true. subst c.
  apply bool_decide_eq_false. unfold JsObj.prototype_keys.
  rewrite !elem_of_cons, elem_of_nil. intros H.
  repeat (destruct H as [H|H]; [discriminate H|]). done.
Qed.

Lemma ensure_lookup {V} (m : gmap string V) k fresh :
  JsObj.inherited k = false →
  JsObj.ensure k fresh m !! k = Some (default fresh (m !! k)).
Proof.
  intros Hk. unfold JsObj.ensure, JsObj.truthy_at. rewrite Hk, orb_false_r.
  case_bool_decide as Hm.
  - destruct Hm as [v Hv]. by rewrite Hv.
  - apply eq_None_not_Some in Hm. rewrite Hm. apply lookup_insert_eq.
Qed.

Lemma ensure_lookup_ne {V} (m : gmap string V) k k' fresh :
  k ≠ k' → JsObj.ensure k fresh m !! k' = m !! k'.
Proof.
  intros Hne. unfold JsObj.ensure. destruct (JsObj.truthy_at m k); [done|].
  by apply lookup_insert_ne.
Qed.

Lemma folderSize_ensure m p F :
  folderSize (JsObj.ensure p (newFolder p) m) F = folderSize m F.
Proof.
  unfold folderSize, JsObj.ensure. destruct (JsObj.truthy_at m p) eqn:Ht; [done|].
  destruct (decide (p = F)) as [->|Hne].
  - rewrite lookup_insert_eq. unfold JsObj.truthy_at in Ht.
    apply orb_false_iff in Ht as [Hm%bool_decide_eq_false _].
    apply eq_None_not_Some in Hm. by rewrite Hm.
  - by rewrite lookup_insert_ne.
Qed.

(* ===================================================================== *)
(** * The depth ceiling *)
(* ===================================================================== *)

Lemma cutAt_dir maxDepth currentDepth entries :
  cutAt maxDepth currentDepth (NDir (Some entries))
  = NDir (Some (map (cutEntry maxDepth currentDepth) entries)).
Proof.
  simpl. do 2 f_equal.
  induction entries as [|[name child] rest IH]; [reflexivity|].
  rewrite IH. reflexivity.
Qed.

(** Nothing is found in a cut tree beyond the ceiling. *)
Lemma cutAt_depth maxDepth names :
  ∀ n currentDepth target,
    names ≠ [] → leadsTo (cutAt maxDepth currentDepth n) names target →
    currentDepth + Z.of_nat (length names) ≤ Z.max currentDepth maxDepth + 1.
Proof.
  induction names as [|name rest IH]; intros n currentDepth target Hne Hn; [done|].
  destruct Hn as (entries' & child' & Hread & Hin & Hrest).
  destruct rest as [|name' rest]; [simpl; lia|].
  destruct n as [size|[entries|]|]; try discriminate Hread.
  rewrite cutAt_dir in Hread. injection Hread as <-.
  apply list_elem_of_In, in_map_iff in Hin as ([name0 child] & [= -> <-] & _).
  pose proof Hrest as (entries'' & child'' & Hread' & _).
  cbn [snd] in Hrest, Hread'.
  destruct child as [size|listing|]; try discriminate Hread'.
  destruct (Z.ltb_spec currentDepth maxDepth); [|discriminate Hread'].
  apply IH in Hrest; [|done]. simpl length in *. lia.
Qed.

(** The walk cannot tell a tree from the same tree cut at the ceiling. *)
Lemma scanDirectory_cutAt stops taskId drivePath maxDepth n :
  ∀ dirPath currentDepth w,
    scanDirectory stops taskId drivePath maxDepth dirPath currentDepth
      (cutAt maxDepth currentDepth n) w
    = scanDirectory stops taskId drivePath maxDepth dirPath currentDepth n w.
Proof.
  induction n as [size| | |entries IH] using node_tree_ind;
    intros dirPath currentDepth w; try reflexivity.
  rewrite cutAt_dir, !scanDirectory_eq. cbn [readdir].
  destruct (w_abort w); [reflexivity|]. f_equal. revert w.
  induction entries as [|[name child] rest IHrest]; intros w; [reflexivity|].
  apply Forall_cons in IH as [IHchild IH]. cbn [snd] in IHchild.
  cbn [map cutEntry fst snd scanEntries].
  destruct (w_abort w); [reflexivity|].
  destruct child as [size|listing|]; try by apply IHrest.
  destruct (currentDepth <? maxDepth) eqn:Hd.
  - assert (∃ listing', cutAt maxDepth (currentDepth + 1) (NDir listing)
                        = NDir listing') as [listing' Hcut].
    { destruct listing; simpl; eauto. }
    rewrite <-(IHchild (Path.join dirPath name) (currentDepth + 1)).
    rewrite Hcut.
    destruct (scanDirectory _ _ _ _ _ _ _ _) as [[] w']; by apply IHrest.
  - by apply IHrest.
Qed.

Lemma pathOf_absolute dirPath names :
  Path.isAbsolute dirPath = true → Path.isAbsolute (pathOf dirPath names) = true.
Proof.
  revert dirPath. induction names as [|name names IH]; intros dirPath Habs; [done|].
  apply IH. by apply join_absolute.
Qed.

(** A directory found through at most [maxDepth] names is met. *)
Lemma visits_leadsTo maxDepth names :
  ∀ n dirPath currentDepth listing,
    names ≠ [] → currentDepth + Z.of_nat (length names) ≤ maxDepth + 1 →
    leadsTo n names (NDir listing) →
    Met (pathOf dirPath names) ∈ visits maxDepth dirPath currentDepth n.
Proof.
  induction names as [|name rest IH]; intros n dirPath currentDepth listing
    Hne Hlen Hn; [done|].
  destruct Hn as (entries & child & Hread & Hin & Hrest).
  rewrite visits_eq, Hread. unfold visitsIn.
  apply list_elem_of_In, in_flat_map. exists (name, child).
  split; [by apply list_elem_of_In|]. apply list_elem_of_In.
  unfold visitsOf, pathOf. cbn [fst snd fold_left].
  destruct rest as [|name' rest].
  - simpl in Hrest. subst child. apply list_elem_of_here.
  - pose proof Hrest as (entries' & child' & Hread' & _).
    destruct child as [size|listing'|]; try discriminate Hread'.
    apply list_elem_of_further.
    simpl length in Hlen.
    destruct (Z.ltb_spec currentDepth maxDepth); [|lia].
    apply (IH _ _ _ listing); [done|simpl length; lia|done].
Qed.

Lemma ensure_keeps {V} (m : gmap string V) k fresh F :
  is_Some (m !! F) → is_Some (JsObj.ensure k fresh m !! F).
Proof.
  intros HF. unfold JsObj.ensure. destruct (JsObj.truthy_at m k); [done|].
  destruct (decide (k = F)) as [->|Hne].
  - by rewrite lookup_insert_eq.
  - by rewrite lookup_insert_ne.
Qed.

Lemma creditFolder_keeps p size m F :
  is_Some (m !! F) → is_Some (creditFolder p size m !! F).
Proof.
  intros HF. unfold creditFolder, JsObj.update.
  apply (ensure_keeps _ p (newFolder p)) in HF.
  destruct (decide (p = F)) as [->|Hne].
  - rewrite lookup_alter_eq. destruct HF as [e ->]. by eexists.
  - by rewrite lookup_alter_ne.
Qed.

Lemma propagate_keeps fuel drivePath folderPath parentPath size m F :
  is_Some (m !! F) →
  is_Some (propagate fuel drivePath folderPath parentPath size m !! F).
Proof.
  revert parentPath m. induction fuel as [|fuel IH]; intros parentPath m HF; [done|].
  simpl. destruct (keepsClimbing _ _ _); [|done].
  case_decide; [by apply creditFolder_keeps|]. by apply IH, creditFolder_keeps.
Qed.

Lemma recordVisits_keeps drivePath vs st F :
  is_Some (folders st !! F) →
  is_Some (folders (recordVisits drivePath vs st) !! F).
Proof.
  revert st. induction vs as [|v vs IH]; intros st HF; [done|].
  unfold recordVisits in *. simpl fold_left. apply IH.
  destruct v as [p|p name size|]; cbn [recordVisit]; [| |done].
  - by apply ensure_keeps.
  - unfold recordFile. cbn. unfold creditAncestors.
    by apply propagate_keeps, creditFolder_keeps.
Qed.

(** A directory the walk met has its entry from then on. *)
Lemma recordVisits_met drivePath vs st F :
  Met F ∈ vs → JsObj.inherited F = false →
  is_Some (folders (recordVisits drivePath vs st) !! F).
Proof.
  intros Hin HF. revert st. induction vs as [|v vs IH]; intros st.
  { by apply elem_of_nil in Hin. }
  unfold recordVisits in *. simpl fold_left.
  apply elem_of_cons in Hin as [<-|Hin]; [|by apply IH].
  apply (recordVisits_keeps drivePath vs). cbn [recordVisit folders with_folders].
  rewrite ensure_lookup by done. by eexists.
Qed.

Lemma startScan_cutAt stops root taskId p tasks :
  startScan stops (λ q, cutAt (default 2 (p_scanDepth p)) 1 <$> root q) taskId p tasks
  = startScan stops root taskId p tasks.
Proof.
  unfold startScan. destruct (p_drivePath p) as [drivePath|]; [|reflexivity].
  case_decide; [reflexivity|].
  destruct (root drivePath) as [n|]; [|reflexivity]. cbn [fmap option_fmap option_map].
  by rewrite scanDirectory_cutAt.
Qed.

(** C7 — A directory found in a listing read at [currentDepth = maxDepth]
    is given its folder entry and is not opened; a directory found at
    [currentDepth < maxDepth] is given its entry and walked at
    [currentDepth + 1].  The root is listed at depth 1, so a directory
    found from the root through [k] names is found at depth [k].
    Whatever the schedule, the scan of a tree is the scan of the same
    tree with every directory found at the ceiling made unreadable, a
    tree in which nothing is found through more than [maxDepth] names:
    nothing a directory at the ceiling holds is counted anywhere, not
    even as an error.  When the scan completes, every directory found from the root
    through at most [maxDepth] names has its folder entry, those at the
    ceiling included, and the aggregator is the one built from the
    visits of the walk, which opens the directories it finds while
    [currentDepth < maxDepth]. *)
Theorem depth_ceiling stops root taskId p tasks drivePath n result :
  p_drivePath p = Some drivePath → Path.isAbsolute drivePath = true →
  root drivePath = Some n →
  Sent (scan_complete taskId result) ∈ w_log (startScan stops root taskId p tasks) →
  (∀ schedule,
     startScan schedule (λ q, cutAt (default 2 (p_scanDepth p)) 1 <$> root q)
       taskId p tasks
     = startScan schedule root taskId p tasks)
  ∧ (∀ names target,
       leadsTo (cutAt (default 2 (p_scanDepth p)) 1 n) names target →
       Z.of_nat (length names) ≤ Z.max 1 (default 2 (p_scanDepth p)))
  ∧ (∀ names listing,
       names ≠ [] → Z.of_nat (length names) ≤ default 2 (p_scanDepth p) →
       leadsTo n names (NDir listing) →
       is_Some (folders (w_stats (startScan stops root taskId p tasks))
                  !! pathOf drivePath names))
  ∧ w_stats (startScan stops root taskId p tasks)
    = recordVisits drivePath
        (visits (default 2 (p_scanDepth p)) drivePath 1 n) scanStats.
Proof.
  intros Hp Habs Hroot Hdone.
  assert (drivePath ≠ "") as Hne by (by intros ->).
  destruct (completed_scan stops taskId root p tasks drivePath n Hp Hne Hroot
              result Hdone) as [Hstats _].
  split; [intros schedule; apply startScan_cutAt|]. split; [|split; [|done]].
  { intros names target Hn. destruct names as [|name names]; [simpl; lia|].
    apply cutAt_depth in Hn; [lia|done]. }
  intros names listing Hnames Hlen Hn. rewrite Hstats.
  apply recordVisits_met.
  - apply (visits_leadsTo _ names n drivePath 1 listing); [done|lia|done].
  - by apply absolute_not_inherited, pathOf_absolute.
Qed.

Lemma depth_ceiling_witness :
  (∀ schedule,
     startScan schedule
       (λ q, cutAt (default 2 (p_scanDepth (request "/data"))) 1
               <$> mounted "/data" dataTree q)
       "17" (request "/data") ∅
     = startScan schedule (mounted "/data" dataTree) "17" (request "/data") ∅)
  ∧ (∀ names target,
       leadsTo (cutAt (default 2 (p_scanDepth (request "/data"))) 1 dataTree)
         names target →
       Z.of_nat (length names) ≤ Z.max 1 (default 2 (p_scanDepth (request "/data"))))
  ∧ (∀ names listing,
       names ≠ [] →
       Z.of_nat (length names) ≤ default 2 (p_scanDepth (request "/data")) →
       leadsTo dataTree names (NDir listing) →
       is_Some (folders (w_stats (startScan never (mounted "/data" dataTree) "17"
                                    (request "/data") ∅))
                  !! pathOf "/data" names))
  ∧ w_stats (startScan never (mounted "/data" dataTree) "17" (request "/data") ∅)
    = recordVisits "/data"
        (visits (default 2 (p_scanDepth (request "/data"))) "/data" 1 dataTree)
        scanStats.
Proof.
  refine (depth_ceiling never (mounted "/data" dataTree) "17" (request "/data") ∅
            "/data" dataTree
            (formatScanResults
               (w_stats (startScan never (mounted "/data" dataTree) "17"
                           (request "/data") ∅)))
            _ _ _ _).
  - reflexivity.
  - reflexivity.
  - reflexivity.
  - vm_compute. do 2 apply list_elem_of_further. apply list_elem_of_here.
Defined.

(** The scenario of the specification.  With the default ceiling of 2,
    [sub] is found at depth 1 and walked, [deep] is found at depth 2: it
    gets an entry, of size 0, and [c.txt] inside it is counted nowhere.
    With a ceiling of 3 it is walked, and [c.txt] is counted. *)
Lemma deep_is_at_the_ceiling :
  let w2 := startScan never (mounted "/data" dataTree) "17" (request "/data") ∅ in
  let w3 := startScan never (mounted "/data" dataTree) "17"
              {| p_drivePath := Some "/data"; p_scanDepth := Some 3 |} ∅ in
  (fo_size <$> folders (w_stats w2) !! "/data/sub/deep" = Some 0
   ∧ totalFiles (w_stats w2) = 2 ∧ totalSize (w_stats w2) = 150)
  ∧ (fo_size <$> folders (w_stats w3) !! "/data/sub/deep" = Some 7
     ∧ totalFiles (w_stats w3) = 3 ∧ totalSize (w_stats w3) = 157).
Proof. vm_compute. repeat split; reflexivity. Qed.

(* ===================================================================== *)
(** * Applications and file types *)
(* ===================================================================== *)

(** What [creditApplication] does when the derived name is not the name
    of an inherited property: the entry under that name grows by the
    size of the file, every other entry keeps its size; a file that is
    no application indicator changes nothing. *)
Lemma creditApplication_spec fullPath extension size m name :
  let appName := applicationName fullPath extension in
  applicationSize (creditApplication fullPath extension size m) name =
  applicationSize m name
  + (if isExecutable extension || isInAppDirectory fullPath
     then if decide (name = appName)
          then if JsObj.inherited appName && negb (bool_decide (is_Some (m !! appName)))
               then 0 else size
          else 0
     else 0).
Proof.
  intros appName. unfold creditApplication, applicationSize. fold appName.
  destruct (isExecutable extension || isInAppDirectory fullPath); [|simpl; lia].
  unfold JsObj.update. destruct (decide (name = appName)) as [->|Hne].
  - rewrite lookup_alter_eq. unfold JsObj.ensure, JsObj.truthy_at.
    case_bool_decide as Hm.
    + destruct Hm as [e He]. rewrite andb_false_r. simpl. by rewrite He.
    + apply eq_None_not_Some in Hm. rewrite Hm, andb_true_r. simpl.
      destruct (JsObj.inherited appName); simpl.
      * rewrite Hm. simpl. lia.
      * rewrite lookup_insert_eq. simpl. lia.
  - rewrite lookup_alter_ne by done. rewrite ensure_lookup_ne by done. lia.
Qed.

(** C9 fails on the code — The key of an application entry is the file
    name with the lower-cased extension cut off, compared letter by
    letter: [Setup.EXE] is an executable, and its size goes to the entry
    [Setup.EXE], not [Setup].  A matched file whose derived name is an
    inherited property, such as [toString.exe], gets no entry at all. *)
Theorem application_key_keeps_uppercase_extension :
  let w := startScan never (mounted "/data" installerTree) "17" (request "/data") ∅ in
  isExecutable (fileExtension "Setup.EXE") = true
  ∧ applications (w_stats w) !! "Setup" = None
  ∧ applications (w_stats w) !! "Setup.EXE"
    = Some {| ap_name := "Setup.EXE"; ap_path := "/data/Setup.EXE"; ap_size := 10 |}
  ∧ isExecutable (fileExtension "toString.exe") = true
  ∧ applications (w_stats w) !! "toString" = None
  ∧ totalSize (w_stats w) = 13.
Proof. vm_compute. repeat split; reflexivity. Qed.

Section books.
Implicit Types m : gmap string fileTypeEntry.

Lemma countOfTypes_insert m k e :
  m !! k = None → countOfTypes (<[k := e]> m) = ft_count e + countOfTypes m.
Proof.
  intros Hk. unfold countOfTypes.
  rewrite map_fold_insert_L; [done| |done]. intros; lia.
Qed.

Lemma sizeOfTypes_insert m k e :
  m !! k = None → sizeOfTypes (<[k := e]> m) = ft_size e + sizeOfTypes m.
Proof.
  intros Hk. unfold sizeOfTypes.
  rewrite map_fold_insert_L; [done| |done]. intros; lia.
Qed.

Lemma countOfTypes_delete m k e :
  m !! k = Some e → countOfTypes m = ft_count e + countOfTypes (delete k m).
Proof.
  intros Hk. rewrite <-(insert_delete_id m k e) at 1 by done.
  apply countOfTypes_insert, lookup_delete_eq.
Qed.

Lemma sizeOfTypes_delete m k e :
  m !! k = Some e → sizeOfTypes m = ft_size e + sizeOfTypes (delete k m).
Proof.
  intros Hk. rewrite <-(insert_delete_id m k e) at 1 by done.
  apply sizeOfTypes_insert, lookup_delete_eq.
Qed.

(** A file whose extension is not an inherited property lands in one
    bucket. *)
Lemma creditFileType_sums m extension size :
  JsObj.inherited extension = false →
  countOfTypes (creditFileType extension size m) = countOfTypes m + 1
  ∧ sizeOfTypes (creditFileType extension size m) = sizeOfTypes m + size.
Proof.
  intros Hext. unfold creditFileType, JsObj.update, JsObj.ensure, JsObj.truthy_at.
  rewrite Hext, orb_false_r. case_bool_decide as Hm.
  - destruct Hm as [e He].
    assert (alter (addFileOfType size) extension m
            = <[extension := addFileOfType size e]> (delete extension m)) as ->.
    { apply map_eq. intros k. destruct (decide (k = extension)) as [->|Hne].
      - by rewrite lookup_alter_eq, He, lookup_insert_eq.
      - by rewrite lookup_alter_ne, lookup_insert_ne, lookup_delete_ne. }
    rewrite countOfTypes_insert, sizeOfTypes_insert by apply lookup_delete_eq.
    rewrite (countOfTypes_delete m extension e He),
      (sizeOfTypes_delete m extension e He). simpl. lia.
  - apply eq_None_not_Some in Hm. rewrite alter_insert_eq.
    rewrite countOfTypes_insert, sizeOfTypes_insert by done. simpl. lia.
Qed.

(** An inherited extension changes no bucket. *)
Lemma creditFileType_inherited m extension size :
  JsObj.inherited extension = true → m !! extension = None →
  creditFileType extension size m = m.
Proof.
  intros Hext Hm. unfold creditFileType, JsObj.update, JsObj.ensure, JsObj.truthy_at.
  rewrite Hext, orb_true_r. apply map_eq. intros k.
  destruct (decide (k = extension)) as [->|Hne].
  - by rewrite lookup_alter_eq, Hm.
  - by rewrite lookup_alter_ne.
Qed.

(** The books stay balanced over every file whose extension is not an
    inherited property. *)
Lemma recordFile_balanced drivePath fullPath name size st :
  JsObj.inherited (fileExtension name) = false →
  balanced st → balanced (recordFile drivePath fullPath name size st).
Proof.
  intros Hext (Hscanned & Hcount & Hsize).
  destruct (creditFileType_sums (fileTypes st) (fileExtension name) size Hext)
    as [Hc Hs].
  unfold balanced, recordFile. simpl. rewrite Hc, Hs. lia.
Qed.
End books.

(** C10 fails on the code — A file whose extension is the name of a
    property every object inherits ([constructor], [__proto__]) is
    counted in [totalFiles], [totalSize] and [scannedCount], but the
    bucket test [!stats.fileTypes[extension]] finds the inherited
    property, no entry is created, and the sums over the file types stay
    behind the totals. *)
Theorem inherited_extension_unbalances_books :
  let w := startScan never (mounted "/data" constructorTree) "17" (request "/data") ∅ in
  fileExtension "a.constructor" = "constructor"
  ∧ totalFiles (w_stats w) = 1 ∧ scannedCount (w_stats w) = 1
  ∧ totalSize (w_stats w) = 5
  ∧ fileTypes (w_stats w) = ∅
  ∧ countOfTypes (fileTypes (w_stats w)) = 0
  ∧ sizeOfTypes (fileTypes (w_stats w)) = 0
  ∧ ¬ balanced (w_stats w).
Proof.
  intros w.
  assert (totalFiles (w_stats w) = 1 ∧ scannedCount (w_stats w) = 1
          ∧ totalSize (w_stats w) = 5 ∧ fileTypes (w_stats w) = ∅)
    as (Hf & Hs & Ht & Hm) by (vm_compute; repeat split; reflexivity).
  rewrite Hf, Hs, Ht, Hm. repeat split; try reflexivity.
  intros (_ & Hcount & _). rewrite Hf, Hm in Hcount. discriminate Hcount.
Qed.

(* ===================================================================== *)
(** * Paths in normal form *)
(* ===================================================================== *)

Section segments.
Implicit Types (s r : list ascii) (segs : list (list ascii)).

Lemma split_on_nonempty sep r : Str.split_on sep r ≠ [].
Proof.
  destruct r as [|c r]; simpl; [done|].
  case_decide; [done|]. by destruct (Str.split_on sep r).
Qed.

Lemma split_on_app sep s r :
  sep ∉ s →
  Str.split_on sep (s ++ r) =
  (s ++ default [] (head (Str.split_on sep r))) :: tail (Str.split_on sep r).
Proof.
  induction s as [|c s IH]; intros Hs; simpl.
  - pose proof (split_on_nonempty sep r). by destruct (Str.split_on sep r).
  - rewrite decide_False by set_solver. rewrite IH by set_solver. done.
Qed.

Lemma split_on_segments segs :
  Forall (λ s, Path.slash ∉ s) segs →
  Str.split_on Path.slash (flat_map (λ s, Path.slash :: s) segs) = [] :: segs.
Proof.
  induction 1 as [|s segs Hs _ IH]; [done|].
  simpl. f_equal.
  rewrite split_on_app by done. rewrite IH. simpl. by rewrite app_nil_r.
Qed.

Lemma push_valid b res s :
  validSegment s → Path.push_segment b res s = s :: res.
Proof.
  intros (Hne & _ & Hdot & Hdots). unfold Path.push_segment.
  by rewrite !decide_False.
Qed.

Lemma fold_push_valid b segs res :
  Forall validSegment segs →
  fold_left (Path.push_segment b) segs res = rev segs ++ res.
Proof.
  intros H. revert res. induction H as [|s segs Hs _ IH]; intros res; [done|].
  simpl. rewrite push_valid by done. rewrite IH. by rewrite <-app_assoc.
Qed.

Lemma join_with_segments segs :
  segs ≠ [] →
  Path.slash :: Str.join_with Path.slash segs = flat_map (λ s, Path.slash :: s) segs.
Proof.
  induction segs as [|s segs IH]; [done|]. intros _.
  destruct segs as [|s' segs]; [simpl; by rewrite app_nil_r|].
  change (Str.join_with Path.slash (s :: s' :: segs))
    with (s ++ Path.slash :: Str.join_with Path.slash (s' :: segs)).
  rewrite IH by done. reflexivity.
Qed.

Lemma validSegment_no_slash segs :
  Forall validSegment segs → Forall (λ s, Path.slash ∉ s) segs.
Proof. intros H. eapply Forall_impl; [exact H|]. by intros s (_ & ? & _). Qed.

Lemma absoluteList_app segs s :
  absoluteList (segs ++ [s]) = flat_map (λ s, Path.slash :: s) segs ++ Path.slash :: s.
Proof.
  unfold absoluteList. destruct (segs ++ [s]) eqn:H; [by destruct segs|].
  rewrite <-H, flat_map_app. simpl. by rewrite app_nil_r.
Qed.

Lemma absoluteList_absolute segs : ∃ l, absoluteList segs = Path.slash :: l.
Proof. destruct segs; simpl; eauto. Qed.

Lemma trailing_slash_app l s :
  s ≠ [] → Path.slash ∉ s → Path.trailing_slash (l ++ s) = false.
Proof.
  intros Hne Hs. unfold Path.trailing_slash. rewrite rev_app_distr.
  destruct s as [|c s _] using rev_ind; [done|].
  rewrite rev_app_distr. simpl. apply bool_decide_eq_false. set_solver.
Qed.

Lemma normalize_list_nonempty l :
  l ≠ [] →
  Path.normalize_list l =
  let isAbsolute := Path.is_absolute l in
  let body := Str.join_with Path.slash (Path.normalizeString (negb isAbsolute) l) in
  match body with
  | [] =>
      if isAbsolute then [Path.slash]
      else if Path.trailing_slash l then [Path.dot; Path.slash] else [Path.dot]
  | _ =>
      let body' := if Path.trailing_slash l then body ++ [Path.slash] else body in
      if isAbsolute then Path.slash :: body' else body'
  end.
Proof. by destruct l. Qed.

(** [path.join(dir, name)] appends the segment. *)
Lemma join_list_segment segs s :
  Forall validSegment segs → validSegment s →
  Path.join_list (absoluteList segs) s = absoluteList (segs ++ [s]).
Proof.
  intros Hsegs Hs. pose proof Hs as (Hne & Hslash & _).
  destruct (absoluteList_absolute segs) as [l Hl].
  unfold Path.join_list. rewrite Hl. destruct s as [|c s]; [done|].
  rewrite <-Hl. remember (c :: s) as name.
  assert (Str.split_on Path.slash (absoluteList segs ++ Path.slash :: name)
          = match segs with [] => [[]; []; name] | _ => [] :: segs ++ [name] end)
    as Hsplit.
  { destruct segs as [|s1 segs'].
    - simpl. rewrite <-(app_nil_r name) at 1.
      rewrite split_on_app by done. simpl. by rewrite app_nil_r.
    - change (absoluteList (s1 :: segs'))
        with (flat_map (λ s, Path.slash :: s) (s1 :: segs')).
      rewrite <-absoluteList_app.
      change (absoluteList ((s1 :: segs') ++ [name]))
        with (flat_map (λ s, Path.slash :: s) ((s1 :: segs') ++ [name])).
      apply split_on_segments.
      apply validSegment_no_slash, Forall_app. split; [done|by constructor]. }
  rewrite normalize_list_nonempty by (by destruct (absoluteList segs)).
  assert (Path.is_absolute (absoluteList segs ++ Path.slash :: name) = true) as ->.
  { by rewrite Hl. }
  assert (Path.trailing_slash (absoluteList segs ++ Path.slash :: name) = false) as ->.
  { rewrite (app_assoc _ [Path.slash] name) by done.
    apply trailing_slash_app; [by subst|done]. }
  cbv zeta. unfold Path.normalizeString. rewrite Hsplit.
  assert (fold_left (Path.push_segment (negb true))
            match segs with [] => [[]; []; name] | _ :: _ => [] :: segs ++ [name] end []
          = rev (segs ++ [name])) as ->.
  { destruct segs as [|s1 segs'].
    - simpl. rewrite push_valid; done.
    - cbn [fold_left]. unfold Path.push_segment at 2. rewrite decide_True by done.
      rewrite fold_push_valid, app_nil_r; [done|].
      apply Forall_app. split; [done|by constructor]. }
  rewrite rev_involutive.
  pose proof (join_with_segments (segs ++ [name])) as Hj.
  destruct (Str.join_with Path.slash (segs ++ [name])) as [|b body] eqn:Hbody.
  { exfalso. destruct segs as [|s1 [|s2 segs']]; simpl in Hbody.
    - by subst.
    - pose proof Hsegs as [(H1 & _) _]%Forall_cons. by destruct s1.
    - pose proof Hsegs as [(H1 & _) _]%Forall_cons. by destruct s1. }
  rewrite Hj by (by destruct segs).
  unfold absoluteList. by destruct (segs ++ [name]) eqn:H; [destruct segs|].
Qed.
End segments.

Section dirname_facts.
Implicit Types (s r : list ascii) (segs : list (list ascii)).

Lemma drop_slashes_segment r x :
  r ≠ [] → Path.slash ∉ r → Path.drop_slashes (r ++ x) = r ++ x.
Proof.
  destruct r as [|c r]; [done|]. intros _ Hr. simpl.
  rewrite decide_False; [done|]. set_solver.
Qed.

Lemma take_component_segment r x :
  Path.slash ∉ r →
  Path.take_component (r ++ Path.slash :: x) = (r, Path.slash :: x).
Proof.
  induction r as [|c r IH]; intros Hr; [done|].
  simpl. rewrite decide_False by set_solver. rewrite IH by set_solver. done.
Qed.

Lemma take_component_last r :
  Path.slash ∉ r → Path.take_component r = (r, []).
Proof.
  induction r as [|c r IH]; intros Hr; [done|].
  simpl. rewrite decide_False by set_solver. rewrite IH by set_solver. done.
Qed.

Lemma not_elem_of_rev (c : ascii) r : c ∉ r → c ∉ rev r.
Proof.
  intros H Hin. apply H, list_elem_of_In, in_rev. by apply list_elem_of_In.
Qed.

(** [path.dirname] drops the last segment. *)
Lemma dirname_list_segment segs s :
  Forall validSegment segs → validSegment s →
  Path.dirname_list (absoluteList (segs ++ [s])) = absoluteList segs.
Proof.
  intros Hsegs (Hne & Hslash & _). rewrite absoluteList_app.
  assert (rev s ≠ []) as Hrev by (by destruct s using rev_ind; [|rewrite rev_app_distr]).
  pose proof (not_elem_of_rev _ _ Hslash) as Hrslash.
  destruct segs as [|s1 segs'].
  - simpl. rewrite <-(app_nil_r (rev s)), drop_slashes_segment by done.
    rewrite app_nil_r, take_component_last by done. done.
  - pose proof Hsegs as [(Hne1 & _) _]%Forall_cons.
    cbn [flat_map app]. unfold Path.dirname_list.
    rewrite rev_app_distr. cbn [rev]. rewrite <-app_assoc. cbn [app].
    rewrite drop_slashes_segment, take_component_segment by done. cbn [snd].
    rewrite rev_involutive.
    destruct (rev (s1 ++ flat_map (λ s0, Path.slash :: s0) segs')) eqn:Hr.
    + apply (f_equal (@length _)) in Hr. rewrite length_rev, length_app in Hr.
      destruct s1; [done|simpl in Hr; lia].
    + reflexivity.
Qed.

(** Two lists of segments with the same path are the same list. *)
Lemma absoluteList_inj segs1 segs2 :
  Forall validSegment segs1 → Forall validSegment segs2 →
  absoluteList segs1 = absoluteList segs2 → segs1 = segs2.
Proof.
  intros H1 H2 Heq.
  assert (∀ s segs, validSegment s →
            absoluteList [] ≠ absoluteList (s :: segs)) as Hroot.
  { intros s segs (Hne & _) H. simpl in H. by destruct s. }
  destruct segs1 as [|a segs1], segs2 as [|b segs2]; [done| | |].
  - exfalso. apply Forall_cons in H2 as [Hb _]. by eapply Hroot.
  - exfalso. apply Forall_cons in H1 as [Ha _]. by eapply Hroot.
  - apply (f_equal (Str.split_on Path.slash)) in Heq. unfold absoluteList in Heq.
    rewrite !split_on_segments in Heq by by apply validSegment_no_slash.
    by simplify_eq.
Qed.

Lemma length_absoluteList segs : (length segs ≤ length (absoluteList segs))%nat.
Proof.
  destruct segs as [|s segs]; [simpl; lia|]. unfold absoluteList.
  generalize (s :: segs). intros l. induction l as [|x l IH]; simpl; [lia|].
  rewrite length_app. lia.
Qed.

Lemma length_absoluteList_app segs s :
  validSegment s →
  (length (absoluteList segs) < length (absoluteList (segs ++ [s])))%nat.
Proof.
  intros (Hne & _). rewrite absoluteList_app. rewrite length_app. simpl.
  destruct segs as [|s1 segs]; simpl; [destruct s; [done|simpl; lia]|lia].
Qed.
End dirname_facts.

Section prefix_facts.
Implicit Types (s r : list ascii) (segs : list (list ascii)).

Lemma starts_with_spec p l : Str.starts_with p l = true ↔ ∃ x, l = p ++ x.
Proof.
  revert l. induction p as [|a p IH]; intros l; simpl.
  - split; [intros _; by exists l|done].
  - destruct l as [|b l]; [split; [done|by intros [x Hx]]|].
    case_decide as Hab.
    + subst b. rewrite IH. split; intros [x Hx]; exists x; by simplify_eq/=.
    + split; [done|]. intros [x Hx]. by simplify_eq/=.
Qed.

(** Two segments followed by the same separator. *)
Lemma segment_split a b u v :
  Path.slash ∉ a → Path.slash ∉ b →
  a ++ Path.slash :: u = b ++ v →
  v = [] ∨ (∃ v', v = Path.slash :: v') →
  a = b ∧ v = Path.slash :: u.
Proof.
  revert b. induction a as [|c a IH]; intros b Ha Hb Heq Hv.
  - destruct b as [|d b]; simpl in *.
    + by subst v.
    + simplify_eq. set_solver.
  - destruct b as [|d b]; simpl in *.
    + destruct Hv as [->|[v' ->]]; [done|]. simplify_eq. set_solver.
    + simplify_eq. destruct (IH b) as [-> ->]; [set_solver..|done|done|done].
Qed.

Lemma flat_map_segments_head segs :
  flat_map (λ s, Path.slash :: s) segs = []
  ∨ ∃ v', flat_map (λ s, Path.slash :: s) segs = Path.slash :: v'.
Proof. destruct segs; simpl; eauto. Qed.

(** A path that continues another one after a separator has the segments
    of the other one as a proper prefix of its own. *)
Lemma segments_extend A B x :
  Forall validSegment A → Forall validSegment B →
  flat_map (λ s, Path.slash :: s) B
    = flat_map (λ s, Path.slash :: s) A ++ Path.slash :: x →
  ∃ C, C ≠ [] ∧ B = A ++ C.
Proof.
  intros HA. revert B. induction HA as [|a A Ha _ IH]; intros B HB Heq.
  - exists B. split; [|done]. by destruct B.
  - destruct HB as [|b B Hb HB]; [done|]. simpl in Heq. simplify_eq.
    rewrite <-app_assoc in Heq.
    destruct Ha as (_ & Ha & _), Hb as (_ & Hb & _).
    assert (∃ u, flat_map (λ s, Path.slash :: s) A ++ Path.slash :: x
                 = Path.slash :: u) as [u Hu].
    { destruct (flat_map_segments_head A) as [->|[v' ->]]; simpl; eauto. }
    rewrite Hu in Heq. symmetry in Heq.
    destruct (segment_split a b u _ Ha Hb Heq (flat_map_segments_head B))
      as [-> HB'].
    rewrite <-Hu in HB'. destruct (IH B HB HB') as (C & HC & ->).
    by exists C.
Qed.

Lemma to_list_append (p q : string) :
  Str.to_list (p +:+ q) = Str.to_list p ++ Str.to_list q.
Proof. induction p as [|c p IH]; simpl; [done|]. by f_equal. Qed.

Lemma trailing_slash_absoluteList segs :
  Forall validSegment segs → segs ≠ [] →
  Path.trailing_slash (absoluteList segs) = false.
Proof.
  intros Hsegs Hne. destruct segs as [|s segs _] using rev_ind; [done|].
  apply Forall_app in Hsegs as [_ [(Hs & Hslash & _) _]%Forall_cons].
  rewrite absoluteList_app.
  rewrite (app_assoc _ [Path.slash] s). by apply trailing_slash_app.
Qed.

(** The subtree of a folder, in terms of segments. *)
Lemma inSubtree_segments A B s :
  Forall validSegment A → Forall validSegment B → validSegment s →
  inSubtree (absolutePath A) (absolutePath (B ++ [s])) = true ↔ A `prefix_of` B.
Proof.
  intros HA HB Hs. unfold inSubtree, absolutePath, Str.startsWith.
  rewrite !to_list_of_list.
  destruct A as [|a A].
  - simpl. split; [intros _; apply prefix_nil|intros _].
    by destruct (absoluteList_absolute (B ++ [s])) as [l ->].
  - rewrite trailing_slash_absoluteList by done.
    rewrite to_list_append, to_list_of_list. rewrite starts_with_spec.
    change (absoluteList (a :: A)) with (flat_map (λ s, Path.slash :: s) (a :: A)).
    assert (absoluteList (B ++ [s]) = flat_map (λ s, Path.slash :: s) (B ++ [s]))
      as -> by (by destruct B).
    split.
    + intros [x Hx]. rewrite <-app_assoc in Hx.
      destruct (segments_extend (a :: A) (B ++ [s]) x HA) as (C & HC & HBC).
      { apply Forall_app. split; [done|by constructor]. }
      { exact Hx. }
      destruct C as [|c C _] using rev_ind; [done|].
      rewrite app_assoc in HBC. apply app_inj_tail in HBC as [-> _].
      by exists C.
    + intros [C ->]. rewrite <-app_assoc, flat_map_app.
      destruct (flat_map_segments_head (C ++ [s])) as [Hnil|[v' ->]].
      * by destruct C.
      * exists v'. by rewrite <-app_assoc.
Qed.
End prefix_facts.

(** ** The same on strings *)

Section normal_paths.
Implicit Types (segs rel : list (list ascii)) (name : string).

Lemma join_absolutePath segs name :
  Forall validSegment segs → validName name →
  Path.join (absolutePath segs) name = absolutePath (segs ++ [Str.to_list name]).
Proof.
  intros Hsegs Hname. unfold Path.join, absolutePath.
  by rewrite to_list_of_list, join_list_segment.
Qed.

Lemma dirname_absolutePath segs s :
  Forall validSegment segs → validSegment s →
  Path.dirname (absolutePath (segs ++ [s])) = absolutePath segs.
Proof.
  intros Hsegs Hs. unfold Path.dirname, absolutePath.
  by rewrite to_list_of_list, dirname_list_segment.
Qed.

Lemma dirname_root : Path.dirname (absolutePath []) = absolutePath [].
Proof. reflexivity. Qed.

Lemma absolutePath_inj segs1 segs2 :
  Forall validSegment segs1 → Forall validSegment segs2 →
  absolutePath segs1 = absolutePath segs2 → segs1 = segs2.
Proof.
  intros H1 H2 Heq. apply absoluteList_inj; [done..|].
  apply (f_equal Str.to_list) in Heq. unfold absolutePath in Heq.
  by rewrite !to_list_of_list in Heq.
Qed.

Lemma absolutePath_absolute segs : Path.isAbsolute (absolutePath segs) = true.
Proof.
  unfold Path.isAbsolute, absolutePath. rewrite to_list_of_list.
  by destruct (absoluteList_absolute segs) as [l ->].
Qed.

Lemma absolutePath_not_inherited segs : JsObj.inherited (absolutePath segs) = false.
Proof. apply absolute_not_inherited, absolutePath_absolute. Qed.

Lemma absolutePath_not_empty segs : absolutePath segs ≠ "".
Proof.
  intros H. apply (f_equal Str.to_list) in H. unfold absolutePath in H.
  rewrite to_list_of_list in H. by destruct (absoluteList_absolute segs) as [l Hl];
    rewrite Hl in H.
Qed.
End normal_paths.

(* ===================================================================== *)
(** * The roll-up of folder sizes *)
(* ===================================================================== *)

Section prefixes_facts.
Context {A : Type}.
Implicit Types (l q : list A).

Lemma prefixes_snoc l x : prefixes (l ++ [x]) = prefixes l ++ [l ++ [x]].
Proof. induction l as [|y l IH]; simpl; [done|]. by rewrite IH, map_app. Qed.

Lemma rev_prefixes_snoc l x :
  rev (prefixes (l ++ [x])) = (l ++ [x]) :: rev (prefixes l).
Proof. by rewrite prefixes_snoc, rev_app_distr. Qed.

Lemma elem_of_prefixes q l : q ∈ prefixes l ↔ q `prefix_of` l.
Proof.
  revert q. induction l as [|x l IH]; intros q; simpl.
  - rewrite list_elem_of_singleton. split; [intros ->; done|].
    intros H. by apply prefix_nil_inv in H.
  - rewrite elem_of_cons, list_elem_of_fmap. split.
    + intros [->|(r & -> & Hr)]; [apply prefix_nil|].
      apply IH in Hr. by apply prefix_cons.
    + destruct q as [|y q]; [by left|]. intros H. right.
      pose proof (prefix_cons_inv_1 _ _ _ _ H) as ->.
      exists q. split; [done|]. apply IH. by eapply prefix_cons_inv_2.
Qed.
End prefixes_facts.

Section credit.
Implicit Types (m : gmap string folderEntry) (F p : string).

Lemma folderSize_creditFolder m p size F :
  JsObj.inherited p = false →
  folderSize (creditFolder p size m) F
  = folderSize m F + (if decide (F = p) then size else 0).
Proof.
  intros Hp. unfold creditFolder, JsObj.update, folderSize.
  destruct (decide (F = p)) as [->|Hne].
  - rewrite lookup_alter_eq, ensure_lookup by done.
    destruct (m !! p); simpl; lia.
  - rewrite lookup_alter_ne by done. rewrite ensure_lookup_ne by done. lia.
Qed.

Lemma creditFolder_keys m p size F :
  is_Some (creditFolder p size m !! F) → is_Some (m !! F) ∨ F = p.
Proof.
  unfold creditFolder, JsObj.update. destruct (decide (F = p)) as [->|Hne]; [by right|].
  rewrite lookup_alter_ne by done. rewrite ensure_lookup_ne by done. by left.
Qed.

Lemma folderSize_creditAll ps m size F :
  Forall (λ p, JsObj.inherited p = false) ps →
  folderSize (creditAll size ps m) F
  = folderSize m F + sumZ (map (λ p, if decide (F = p) then size else 0) ps).
Proof.
  intros Hps. revert m. induction Hps as [|p ps Hp _ IH]; intros m; simpl; [lia|].
  unfold creditAll in *. simpl. rewrite IH, folderSize_creditFolder by done. lia.
Qed.

Lemma creditAll_keys ps m size F :
  is_Some (creditAll size ps m !! F) → is_Some (m !! F) ∨ F ∈ ps.
Proof.
  revert m. induction ps as [|p ps IH]; intros m; [by left|].
  unfold creditAll in *. simpl. intros [H|H]%IH; [|set_solver].
  apply creditFolder_keys in H as [?| ->]; [by left|set_solver].
Qed.
End credit.

Section raw_root.
Implicit Types (l s : list ascii) (segs res : list (list ascii)).

Lemma split_on_no_slash l : Forall (λ s, Path.slash ∉ s) (Str.split_on Path.slash l).
Proof.
  induction l as [|c l IH]; simpl.
  - repeat constructor. apply not_elem_of_nil.
  - case_decide as Hc.
    + constructor; [apply not_elem_of_nil|done].
    + destruct (Str.split_on Path.slash l) as [|s ss].
      * repeat constructor. set_solver.
      * apply Forall_cons in IH as [Hs Hss]. constructor; [set_solver|done].
Qed.

Lemma split_on_snoc l s :
  Path.slash ∉ s →
  Str.split_on Path.slash (l ++ Path.slash :: s) = Str.split_on Path.slash l ++ [s].
Proof.
  intros Hs. induction l as [|c l IH]; simpl.
  - rewrite <-(app_nil_r s) at 1. rewrite split_on_app by done. simpl.
    by rewrite app_nil_r.
  - case_decide; rewrite IH; [done|].
    pose proof (split_on_nonempty Path.slash l).
    by destruct (Str.split_on Path.slash l).
Qed.

Lemma push_segment_valid res s :
  Path.slash ∉ s → Forall validSegment res →
  Forall validSegment (Path.push_segment false res s).
Proof.
  intros Hs Hres. unfold Path.push_segment. repeat case_decide; try done.
  - destruct Hres as [|top below Htop Hbelow]; [done|].
    case_decide; [by constructor|done].
  - by constructor.
Qed.

Lemma fold_push_valid_stack segs res :
  Forall (λ s, Path.slash ∉ s) segs → Forall validSegment res →
  Forall validSegment (fold_left (Path.push_segment false) segs res).
Proof.
  intros Hsegs. revert res. induction Hsegs as [|s segs Hs _ IH]; intros res Hres;
    [done|]. simpl. by apply IH, push_segment_valid.
Qed.

Lemma rootSegments_valid drivePath : Forall validSegment (rootSegments drivePath).
Proof.
  unfold rootSegments, Path.normalizeString. apply Forall_forall. intros s Hs.
  apply list_elem_of_In, in_rev, list_elem_of_In in Hs.
  revert s Hs. apply Forall_forall, fold_push_valid_stack; [|constructor].
  apply split_on_no_slash.
Qed.

Lemma join_list_root l s :
  Path.is_absolute l = true → validSegment s →
  Path.join_list l s = absoluteList (Path.normalizeString false l ++ [s]).
Proof.
  intros Habs Hs. pose proof Hs as (Hne & Hslash & _).
  destruct l as [|c l']; [done|]. destruct s as [|d s']; [done|].
  remember (c :: l') as l eqn:El. remember (d :: s') as s eqn:Es.
  assert (l ≠ []) as Hl by (by subst).
  unfold Path.join_list. rewrite El, Es. rewrite <-El, <-Es.
  rewrite normalize_list_nonempty by (by destruct l).
  assert (Path.is_absolute (l ++ Path.slash :: s) = true) as ->
    by (by destruct l).
  assert (Path.trailing_slash (l ++ Path.slash :: s) = false) as ->.
  { rewrite (app_assoc _ [Path.slash] s). by apply trailing_slash_app. }
  cbv zeta. unfold Path.normalizeString. rewrite split_on_snoc by done.
  rewrite fold_left_app. cbn [fold_left negb].
  rewrite push_valid by done. cbn [rev].
  set (base := rev (fold_left (Path.push_segment false) (Str.split_on Path.slash l) [])).
  pose proof (join_with_segments (base ++ [s])) as Hj.
  destruct (Str.join_with Path.slash (base ++ [s])) as [|b body] eqn:Hbody.
  { exfalso. destruct base as [|s1 [|s2 base']]; simpl in Hbody.
    - done.
    - by destruct s1.
    - by destruct s1. }
  rewrite Hj by (by destruct base).
  unfold absoluteList. by destruct (base ++ [s]) eqn:H; [destruct base|].
Qed.

(** [path.join(root, name)] for a root as the client wrote it: the
    segments of the root, then the name. *)
Lemma join_root drivePath name :
  Path.isAbsolute drivePath = true → validName name →
  Path.join drivePath name
  = absolutePath (rootSegments drivePath ++ [Str.to_list name]).
Proof.
  intros Habs Hname. unfold Path.join, absolutePath, rootSegments.
  by rewrite join_list_root.
Qed.

Lemma rootSegments_absolutePath root :
  Forall validSegment root → rootSegments (absolutePath root) = root.
Proof.
  intros Hroot. unfold rootSegments, absolutePath, Path.normalizeString.
  rewrite to_list_of_list. destruct root as [|s root]; [done|].
  unfold absoluteList. rewrite split_on_segments by by apply validSegment_no_slash.
  change (fold_left (Path.push_segment false) ([] :: s :: root) [])
    with (fold_left (Path.push_segment false) (s :: root) []).
  rewrite fold_push_valid by done. by rewrite app_nil_r, rev_involutive.
Qed.
End raw_root.

Section climbing.
Implicit Types (l r k D : list (list ascii)) (m : gmap string folderEntry).
Variable drivePath : string.

Lemma len_absolutePath segs :
  Str.len (absolutePath segs) = Z.of_nat (length (absoluteList segs)).
Proof. unfold Str.len, absolutePath. by rewrite to_list_of_list. Qed.

Lemma absolutePath_snoc_ne segs s :
  validSegment s → absolutePath (segs ++ [s]) ≠ absolutePath segs.
Proof.
  intros Hs Heq. apply (f_equal Str.len) in Heq. rewrite !len_absolutePath in Heq.
  pose proof (length_absoluteList_app segs s Hs). lia.
Qed.

Lemma startsWith_below r k :
  Str.startsWith (absolutePath (r ++ k)) (absolutePath r) = true.
Proof.
  unfold Str.startsWith, absolutePath. rewrite !to_list_of_list.
  apply starts_with_spec. destruct r as [|s r].
  - destruct (absoluteList_absolute ([] ++ k)) as [l ->]. by exists l.
  - exists (flat_map (λ s, Path.slash :: s) k).
    change (absoluteList ((s :: r) ++ k))
      with (flat_map (λ s, Path.slash :: s) ((s :: r) ++ k)).
    by rewrite flat_map_app.
Qed.

Lemma starts_with_length (p l : list ascii) :
  Str.starts_with p l = true → (length p ≤ length l)%nat.
Proof.
  intros [x ->]%starts_with_spec. rewrite length_app. lia.
Qed.

Lemma starts_with_trans (p q l : list ascii) :
  Str.starts_with p q = true → Str.starts_with q l = true →
  Str.starts_with p l = true.
Proof.
  intros [x ->]%starts_with_spec [y ->]%starts_with_spec.
  apply starts_with_spec. exists (x ++ y). by rewrite app_assoc.
Qed.

(** The length test of the loop follows from its prefix test. *)
Lemma stillBelow_startsWith p : stillBelow drivePath p = Str.startsWith p drivePath.
Proof.
  unfold stillBelow. destruct (Str.startsWith p drivePath) eqn:Hp;
    [|by rewrite andb_false_r].
  rewrite andb_true_r. apply Z.leb_le. unfold Str.len.
  apply starts_with_length in Hp. lia.
Qed.

(** Once an ancestor is below the root, so is every path under it. *)
Lemma stillBelow_mono r k :
  stillBelow drivePath (absolutePath r) = true →
  stillBelow drivePath (absolutePath (r ++ k)) = true.
Proof.
  rewrite !stillBelow_startsWith. unfold Str.startsWith. intros Hr.
  eapply starts_with_trans; [exact Hr|]. apply startsWith_below.
Qed.

Lemma keepsClimbing_absolutePath l folderPath :
  absolutePath l ≠ folderPath →
  keepsClimbing drivePath folderPath (absolutePath l)
  = stillBelow drivePath (absolutePath l).
Proof.
  intros Hne. unfold keepsClimbing, stillBelow.
  rewrite (bool_decide_eq_false_2 _ (absolutePath_not_empty _)).
  by rewrite (bool_decide_eq_false_2 _ Hne).
Qed.

(** The loop credits the path it starts from and its ancestors, and
    stops at the first one that is not below the root. *)
Lemma propagate_chain l folderPath size :
  Forall validSegment l →
  (∀ r, r `prefix_of` l → absolutePath r ≠ folderPath) →
  ∀ fuel m,
    (length l < fuel)%nat →
    propagate fuel drivePath folderPath (absolutePath l) size m
    = creditAll size (map absolutePath (climbers drivePath l)) m.
Proof.
  induction l as [|x l IH] using rev_ind; intros Hl Hne fuel m Hfuel.
  - destruct fuel as [|fuel]; [simpl in Hfuel; lia|].
    cbn [propagate]. rewrite keepsClimbing_absolutePath by (by apply Hne).
    unfold climbers. cbn [prefixes rev app takeWhile].
    destruct (stillBelow drivePath (absolutePath [])); [|done].
    by rewrite decide_True by apply dirname_root.
  - apply Forall_app in Hl as [Hl [Hx _]%Forall_cons].
    destruct fuel as [|fuel]; [simpl in Hfuel; lia|].
    rewrite length_app in Hfuel. simpl in Hfuel.
    cbn [propagate]. rewrite keepsClimbing_absolutePath by (by apply Hne).
    unfold climbers. rewrite rev_prefixes_snoc. cbn [takeWhile].
    destruct (stillBelow drivePath (absolutePath (l ++ [x]))); [|done].
    cbn [map creditAll fold_left].
    rewrite dirname_absolutePath by done.
    rewrite decide_False by (intros H; symmetry in H; by eapply absolutePath_snoc_ne).
    apply IH; [done| |lia].
    intros r Hr. apply Hne. by apply prefix_app_r.
Qed.

Lemma rounds_absolutePath segs : (length segs < rounds (absolutePath segs))%nat.
Proof.
  unfold rounds, absolutePath. rewrite to_list_of_list.
  pose proof (length_absoluteList segs). lia.
Qed.

(** The folders of the aggregator after a file of the directory with
    segments [D] was recorded. *)
Lemma recordFile_folders D name size st :
  Forall validSegment D → validName name →
  folders (recordFile drivePath (absolutePath (D ++ [Str.to_list name])) name size st)
  = creditAll size (creditedFolders drivePath D) (folders st).
Proof.
  intros HD Hname. cbn [recordFile folders with_scannedCount with_folders
    with_applications with_fileTypes with_totals].
  rewrite dirname_absolutePath by done.
  unfold creditAncestors, creditedFolders. cbn [creditAll fold_left].
  destruct D as [|x D _] using rev_ind.
  - rewrite dirname_root. reflexivity.
  - apply Forall_app in HD as [HD [Hx _]%Forall_cons].
    rewrite dirname_absolutePath by done.
    unfold ancestors. rewrite rev_prefixes_snoc. cbn [tail].
    apply propagate_chain; [done| |apply rounds_absolutePath].
    intros r Hr Heq. apply absolutePath_inj in Heq.
    + subst r. apply prefix_length in Hr. rewrite length_app in Hr. simpl in Hr. lia.
    + destruct Hr as [k ->]. by apply Forall_app in HD as [? _].
    + apply Forall_app. split; [done|by constructor].
Qed.
End climbing.

Lemma elem_of_takeWhile {A : Type} (keep : A → bool) (x : A) (xs : list A) :
  x ∈ takeWhile keep xs → x ∈ xs ∧ keep x = true.
Proof.
  induction xs as [|y xs IH]; simpl; [by intros ?%elem_of_nil|].
  destruct (keep y) eqn:Hy; [|by intros ?%elem_of_nil].
  intros [->|H]%elem_of_cons; [split; [by left|done]|].
  destruct (IH H). split; [by right|done].
Qed.

Lemma ancestors_snoc {A : Type} (xs : list A) x :
  ancestors (xs ++ [x]) = rev (prefixes xs).
Proof. unfold ancestors. by rewrite rev_prefixes_snoc. Qed.

Lemma elem_of_ancestors {A : Type} (ys xs : list A) :
  ys ∈ ancestors xs → ys `prefix_of` xs.
Proof.
  destruct xs as [|x xs _] using rev_ind; [by intros ?%elem_of_nil|].
  rewrite ancestors_snoc. intros Hr.
  apply list_elem_of_In, in_rev, list_elem_of_In, elem_of_prefixes in Hr.
  by apply prefix_app_r.
Qed.

Lemma prefix_snoc_inv {A : Type} (ys xs : list A) x :
  ys `prefix_of` xs ++ [x] ↔ ys = xs ++ [x] ∨ ys `prefix_of` xs.
Proof.
  split.
  - intros [k Hk]. destruct k as [|y k _] using rev_ind.
    + left. by rewrite app_nil_r in Hk.
    + right. rewrite app_assoc in Hk. apply app_inj_tail in Hk as [-> _].
      by exists k.
  - intros [->|H]; [done|by apply prefix_app_r].
Qed.

Section rollup.
Variable drivePath : string.
Implicit Types (l r q D : list (list ascii)) (m : gmap string folderEntry).

(** Among the ancestors the loop reaches from [l], the path with
    segments [q] occurs once if [q] is a prefix of [l] and is below the
    root, and not at all otherwise. *)
Lemma climbers_count l q size :
  Forall validSegment l → Forall validSegment q →
  sumZ (map (λ p, if decide (absolutePath q = p) then size else 0)
          (map absolutePath (climbers drivePath l)))
  = if decide (q `prefix_of` l)
    then (if stillBelow drivePath (absolutePath q) then size else 0)
    else 0.
Proof.
  intros Hl Hq. induction l as [|x l IH] using rev_ind.
  - unfold climbers. cbn [prefixes rev app takeWhile].
    destruct (decide (q `prefix_of` [])) as [Hp|Hp].
    + apply prefix_nil_inv in Hp as ->.
      destruct (stillBelow drivePath (absolutePath [])); [|done].
      cbn [map sumZ foldr]. rewrite decide_True by done. lia.
    + destruct (stillBelow drivePath (absolutePath [])); [|done].
      cbn [map sumZ foldr]. rewrite decide_False; [lia|]. intros Heq.
      apply absolutePath_inj in Heq; [|done..]. subst q. by apply Hp.
  - apply Forall_app in Hl as [Hl [Hx _]%Forall_cons]. specialize (IH Hl).
    unfold climbers in *. rewrite rev_prefixes_snoc. cbn [takeWhile].
    destruct (decide (q = l ++ [x])) as [->|Hne].
    + rewrite (decide_True (P := l ++ [x] `prefix_of` l ++ [x])) by done.
      destruct (stillBelow drivePath (absolutePath (l ++ [x]))); [|done].
      cbn [map sumZ foldr]. rewrite decide_True by done. fold (sumZ).
      change (foldr Z.add 0) with sumZ. rewrite IH.
      rewrite decide_False; [lia|]. intros Hp%prefix_length.
      rewrite length_app in Hp. simpl in Hp. lia.
    + assert (q `prefix_of` l ++ [x] ↔ q `prefix_of` l) as Hiff.
      { split; [|by apply prefix_app_r]. intros [k Hk].
        destruct k as [|y k _] using rev_ind.
        - rewrite app_nil_r in Hk. by subst.
        - rewrite app_assoc in Hk. apply app_inj_tail in Hk as [-> _].
          by exists k. }
      destruct (stillBelow drivePath (absolutePath (l ++ [x]))) eqn:Htop.
      * cbn [map sumZ foldr]. change (foldr Z.add 0) with sumZ. rewrite IH.
        rewrite decide_False; cycle 1.
        { intros Heq. apply absolutePath_inj in Heq; [done..|].
          apply Forall_app. split; [done|by constructor]. }
        destruct (decide (q `prefix_of` l)) as [Hp|Hp].
        -- rewrite decide_True by by apply Hiff. lia.
        -- rewrite decide_False by (by rewrite Hiff). lia.
      * simpl. destruct (decide (q `prefix_of` l ++ [x])) as [[k Hk]|Hp]; [|done].
        destruct (stillBelow drivePath (absolutePath q)) eqn:Hbelow; [|done].
        rewrite Hk in Htop. by rewrite (stillBelow_mono drivePath q k Hbelow) in Htop.
Qed.

Lemma creditedFolders_not_inherited D :
  Forall (λ p, JsObj.inherited p = false) (creditedFolders drivePath D).
Proof.
  unfold creditedFolders. constructor; [apply absolutePath_not_inherited|].
  apply Forall_forall. intros p (r & -> & _)%list_elem_of_fmap.
  apply absolutePath_not_inherited.
Qed.

(** Every credited folder is a path in normal form over a prefix of the
    directory, and it is the directory itself or starts with the root. *)
Lemma creditedFolders_spec D p :
  Forall validSegment D → p ∈ creditedFolders drivePath D →
  ∃ r, r `prefix_of` D ∧ p = absolutePath r
       ∧ (r = D ∨ Str.startsWith p drivePath = true).
Proof.
  intros HD. unfold creditedFolders. intros [->|Hp]%elem_of_cons.
  - exists D. split; [done|]. split; [done|by left].
  - apply list_elem_of_fmap in Hp as (r & -> & Hr).
    apply elem_of_takeWhile in Hr as [Hr Hbelow].
    exists r. split; [by apply elem_of_ancestors|]. split; [done|right].
    by rewrite <-stillBelow_startsWith.
Qed.

(** What a file of the directory [D] adds to the folder with segments
    [q]. *)
Lemma folderSize_credited D q name size m :
  Forall validSegment D → Forall validSegment q → validName name →
  folderSize (creditAll size (creditedFolders drivePath D) m) (absolutePath q)
  = folderSize m (absolutePath q)
    + share drivePath (absolutePath q)
        (absolutePath (D ++ [Str.to_list name])) size.
Proof.
  intros HD Hq Hname.
  rewrite folderSize_creditAll by apply creditedFolders_not_inherited. f_equal.
  unfold creditedFolders, share. cbn [map sumZ foldr].
  change (foldr Z.add 0) with sumZ.
  rewrite dirname_absolutePath by done.
  rewrite <-stillBelow_startsWith.
  pose proof (inSubtree_segments q D (Str.to_list name) Hq HD Hname) as Hsub.
  assert ((if decide (absolutePath q = absolutePath D) then size else 0)
          = (if decide (q = D) then size else 0)) as ->.
  { destruct (decide (q = D)) as [->|Hne]; [by rewrite decide_True|].
    rewrite decide_False; [done|]. intros Heq. by apply absolutePath_inj in Heq. }
  assert ((if decide (absolutePath D = absolutePath q) then size else 0)
          = (if decide (q = D) then size else 0)) as ->.
  { destruct (decide (q = D)) as [->|Hne]; [by rewrite decide_True|].
    rewrite decide_False; [done|]. intros Heq.
    symmetry in Heq. by apply absolutePath_inj in Heq. }
  destruct D as [|x D _] using rev_ind.
  - cbn [ancestors prefixes rev app tail takeWhile map sumZ foldr].
    cbn [app] in Hsub.
    destruct (decide (q = [])) as [->|Hne].
    + rewrite (proj2 Hsub) by done. destruct (stillBelow _ _); lia.
    + destruct (inSubtree _ _) eqn:Hin.
      * pose proof (proj1 Hsub eq_refl) as Hp. by apply prefix_nil_inv in Hp.
      * destruct (stillBelow _ _); lia.
  - apply Forall_app in HD as [HD [Hx _]%Forall_cons].
    rewrite ancestors_snoc. fold (climbers drivePath D).
    rewrite climbers_count by done.
    pose proof (prefix_snoc_inv q D x) as Hsnoc.
    destruct (decide (q = D ++ [x])) as [->|Hne].
    + rewrite (proj2 Hsub) by done. rewrite decide_False; cycle 1.
      { intros Hp%prefix_length. rewrite length_app in Hp. simpl in Hp. lia. }
      destruct (stillBelow _ _); lia.
    + destruct (decide (q `prefix_of` D)) as [Hp|Hp].
      * rewrite (proj2 Hsub) by (by apply Hsnoc; right).
        destruct (stillBelow _ _); lia.
      * destruct (inSubtree _ _) eqn:Hin.
        -- pose proof (proj1 Hsub eq_refl) as Hq'.
           by apply Hsnoc in Hq' as [?|?].
        -- destruct (stillBelow _ _); lia.
Qed.
Lemma sizeDue_app F files1 files2 :
  sizeDue drivePath F (files1 ++ files2)
  = sizeDue drivePath F files1 + sizeDue drivePath F files2.
Proof. unfold sizeDue. by rewrite map_app, sumZ_app. Qed.

(** The two readings of [sizeDue]. *)
Lemma sizeDue_cases F files :
  sizeDue drivePath F files
  = if Str.startsWith F drivePath then sizeBelow F files else sizeIn F files.
Proof.
  unfold sizeDue, sizeBelow, sizeIn, share.
  destruct (Str.startsWith F drivePath);
    induction files as [|[p size] files IH]; simpl; try done;
    rewrite filter_cons; simpl.
  - destruct (inSubtree F p).
    + rewrite decide_True by done. simpl. by rewrite IH.
    + by rewrite decide_False.
  - case_decide; simpl; by rewrite IH.
Qed.

Variable base : list (list ascii).
Hypothesis base_valid : Forall validSegment base.

Lemma recordVisit_folderSize v st q :
  placed base v → Forall validSegment q →
  folderSize (folders (recordVisit drivePath st v)) (absolutePath q)
  = folderSize (folders st) (absolutePath q)
    + sizeDue drivePath (absolutePath q) (filesRead [v]).
Proof.
  intros Hv Hq. destruct v as [p|p name size|]; cbn [recordVisit].
  - cbn [folders with_folders]. rewrite folderSize_ensure. unfold sizeDue. simpl. lia.
  - destruct Hv as (rel & Hrel & Hname & ->).
    rewrite (app_assoc base rel).
    rewrite recordFile_folders by (done || by apply Forall_app).
    rewrite (folderSize_credited (base ++ rel) q name) by (done || by apply Forall_app).
    unfold sizeDue. simpl. lia.
  - unfold sizeDue. simpl. lia.
Qed.

Lemma recordVisit_keys v st F :
  placed base v →
  is_Some (folders (recordVisit drivePath st v) !! F) →
  is_Some (folders st !! F) ∨ accounted drivePath base F.
Proof.
  intros Hv. destruct v as [p|p name size|]; cbn [recordVisit]; [| |by left].
  - cbn [folders with_folders].
    destruct (decide (p = F)) as [->|Hne].
    + intros _. right. destruct Hv as (q & Hq & ->).
      exists (base ++ q). split; [by apply Forall_app|]. split; [done|].
      left. by exists q.
    + rewrite ensure_lookup_ne by done. by left.
  - destruct Hv as (rel & Hrel & Hname & ->).
    rewrite (app_assoc base rel).
    rewrite recordFile_folders by (done || by apply Forall_app).
    intros [H|H]%creditAll_keys; [by left|right].
    apply creditedFolders_spec in H as (r & Hr & -> & Hor);
      [|by apply Forall_app].
    exists r. split; [|split; [done|]].
    + destruct Hr as [k Hk].
      assert (Forall validSegment (base ++ rel)) as H by (by apply Forall_app).
      rewrite Hk in H. by apply Forall_app in H as [? _].
    + destruct Hor as [->|?]; [left; by exists rel|by right].
Qed.

Lemma recordVisits_folderSize vs st q :
  Forall (placed base) vs → Forall validSegment q →
  folderSize (folders (recordVisits drivePath vs st)) (absolutePath q)
  = folderSize (folders st) (absolutePath q)
    + sizeDue drivePath (absolutePath q) (filesRead vs).
Proof.
  intros Hvs Hq. revert st.
  induction Hvs as [|v vs Hv _ IH]; intros st; [unfold sizeDue; simpl; lia|].
  unfold recordVisits in *. simpl fold_left. rewrite IH.
  rewrite (recordVisit_folderSize v st q) by done.
  rewrite (filesRead_cons v vs), sizeDue_app. lia.
Qed.

Lemma recordVisits_keys vs st F :
  Forall (placed base) vs →
  is_Some (folders (recordVisits drivePath vs st) !! F) →
  is_Some (folders st !! F) ∨ accounted drivePath base F.
Proof.
  intros Hvs. revert st. induction Hvs as [|v vs Hv _ IH]; intros st; [by left|].
  unfold recordVisits in *. simpl fold_left.
  intros [H|H]%IH; [|by right]. by eapply recordVisit_keys.
Qed.
End rollup.

Lemma validTree_dir entries :
  validTree (NDir (Some entries))
  ↔ Forall (λ e, validName (fst e) ∧ validTree (snd e)) entries.
Proof.
  simpl. induction entries as [|[name child] rest IH].
  - split; [constructor|done].
  - rewrite Forall_cons. simpl. rewrite <-IH. tauto.
Qed.

(** Every path of a walk over a valid tree is where the segments say,
    as soon as the directory the walk starts from joins names the way a
    path in normal form does. *)
Lemma visits_placed maxDepth base n :
  Forall validSegment base →
  ∀ dirPath rel currentDepth,
    Forall validSegment rel →
    (∀ name, validName name →
       Path.join dirPath name = absolutePath (base ++ rel ++ [Str.to_list name])) →
    validTree n →
    Forall (placed base) (visits maxDepth dirPath currentDepth n).
Proof.
  intros Hbase. induction n as [size| | |entries IH] using node_tree_ind;
    intros dirPath rel currentDepth Hrel Hjoin Hn; rewrite visits_eq; simpl;
    try (by repeat constructor).
  apply validTree_dir in Hn. unfold visitsIn.
  induction entries as [|[name child] rest IHrest]; [constructor|].
  apply Forall_cons in IH as [IHchild IH].
  apply Forall_cons in Hn as [[Hname Hchild] Hn]. simpl in Hname, Hchild, IHchild.
  simpl flat_map. apply Forall_app. split; [|by apply IHrest].
  unfold visitsOf. cbn [fst snd]. rewrite Hjoin by done.
  assert (Forall validSegment (rel ++ [Str.to_list name])) as Hrel'.
  { apply Forall_app. split; [done|by constructor]. }
  destruct child as [[size|]|listing|]; try by repeat constructor.
  - constructor; [|constructor]. by exists rel.
  - constructor; [by exists (rel ++ [Str.to_list name])|].
    destruct (currentDepth <? maxDepth); [|constructor].
    apply (IHchild _ (rel ++ [Str.to_list name])); [done| |done].
    intros name' Hname'. rewrite !app_assoc.
    rewrite join_absolutePath; [done| |done].
    rewrite <-app_assoc. by apply Forall_app.
Qed.

(** C1, with the stopping rule the code has — After every completed walk
    from an absolute root, over a tree whose names are names as
    [readdirSync] returns them, a folder [F] that has an entry and whose
    path starts with the root string holds, as its size, the sum of the
    sizes of the files the walk visited and could stat whose path lies
    in the subtree of [F]; a folder whose path does not start with the
    root string holds the sum for the files directly in it.  When the
    root is written in normal form ([/], or [/s1/.../sk] without a
    separator at its end), every folder with an entry starts with it.
    The sizes are in the range where the scanner adds without rounding:
    none negative, their sum below 2^53. *)
Theorem folder_sizes_roll_up stops disk taskId p tasks result drivePath n F entry :
  p_drivePath p = Some drivePath → Path.isAbsolute drivePath = true →
  disk drivePath = Some n → validTree n →
  exactSizes (filesRead (visits (default 2 (p_scanDepth p)) drivePath 1 n)) = true →
  Sent (scan_complete taskId result) ∈ w_log (startScan stops disk taskId p tasks) →
  folders (w_stats (startScan stops disk taskId p tasks)) !! F = Some entry →
  let files := filesRead (visits (default 2 (p_scanDepth p)) drivePath 1 n) in
  (Str.startsWith F drivePath = true → fo_size entry = sizeBelow F files)
  ∧ (Str.startsWith F drivePath = false → fo_size entry = sizeIn F files)
  ∧ (∀ root, Forall validSegment root → drivePath = absolutePath root →
             Str.startsWith F drivePath = true).
Proof.
  intros Hp Habs Hdisk Hn _ Hdone HF files.
  assert (drivePath ≠ "") as Hne by (by intros ->).
  destruct (completed_scan stops taskId disk p tasks drivePath n Hp Hne Hdisk
              result Hdone) as [Hstats _].
  rewrite Hstats in HF.
  pose proof (rootSegments_valid drivePath) as Hbase.
  pose proof (visits_placed (default 2 (p_scanDepth p)) (rootSegments drivePath) n
                Hbase drivePath [] 1 ltac:(constructor)
                (λ name Hname, join_root drivePath name Habs Hname) Hn) as Hplaced.
  destruct (recordVisits_keys drivePath (rootSegments drivePath) Hbase _ scanStats
              F Hplaced ltac:(by eexists)) as [[e He]|(q & Hq & -> & Hor)].
  { cbn [folders scanStats] in He. by rewrite lookup_empty in He. }
  pose proof (recordVisits_folderSize drivePath (rootSegments drivePath) Hbase _
                scanStats q Hplaced Hq) as Hsize.
  unfold folderSize at 1 2 in Hsize.
  rewrite HF in Hsize. cbn [folders scanStats] in Hsize.
  rewrite lookup_empty, sizeDue_cases in Hsize. simpl in Hsize. fold files in Hsize.
  split; [|split].
  - intros Hstarts. rewrite Hstarts in Hsize. lia.
  - intros Hstarts. rewrite Hstarts in Hsize. lia.
  - intros root Hroot ->. destruct Hor as [[k Hk]|?]; [|done].
    rewrite rootSegments_absolutePath in Hk by done. subst q.
    apply startsWith_below.
Qed.

Lemma folder_sizes_roll_up_witness :
  let files :=
    filesRead (visits (default 2 (p_scanDepth (request "/data"))) "/data" 1 dataTree) in
  (Str.startsWith "/data" "/data" = true →
   fo_size {| fo_name := JsObj.Str "data"; fo_path := "/data"; fo_size := 150 |}
   = sizeBelow "/data" files)
  ∧ (Str.startsWith "/data" "/data" = false →
     fo_size {| fo_name := JsObj.Str "data"; fo_path := "/data"; fo_size := 150 |}
     = sizeIn "/data" files)
  ∧ (∀ root, Forall validSegment root → "/data" = absolutePath root →
             Str.startsWith "/data" "/data" = true).
Proof.
  refine (folder_sizes_roll_up never (mounted "/data" dataTree) "17"
            (request "/data") ∅
            (formatScanResults
               (w_stats (startScan never (mounted "/data" dataTree) "17"
                           (request "/data") ∅)))
            "/data" dataTree "/data" _ _ _ _ _ _ _ _).
  - reflexivity.
  - reflexivity.
  - reflexivity.
  - simpl. unfold validName, validSegment. vm_compute.
    repeat split; try discriminate; intros H;
      repeat (apply elem_of_cons in H as [H|H]; [discriminate H|]);
      by apply elem_of_nil in H.
  - vm_compute. reflexivity.
  - vm_compute. do 2 apply list_elem_of_further. apply list_elem_of_here.
  - vm_compute. reflexivity.
Defined.

(** C1, as the specification has it, fails for a root written with a
    separator at its end: both files lie below the root [/data/] and in
    the subtree of the folder [/data], which has an entry, but the file
    of the subdirectory is not credited to it, because the ancestor
    [/data] is shorter than the root string [/data/]. *)
Lemma trailing_separator_breaks_roll_up :
  let w := startScan never (mounted "/data/" dataTree) "17" (request "/data/") ∅ in
  let files := filesRead (visits 2 "/data/" 1 dataTree) in
  completed "17" w
  ∧ files = [("/data/a.txt", 100); ("/data/sub/b.txt", 50)]
  ∧ Forall (λ f, Str.startsWith (fst f) "/data/" = true) files
  ∧ fo_size <$> folders (w_stats w) !! "/data" = Some 100
  ∧ sizeBelow "/data" files = 150.
Proof.
  intros w files.
  assert (files = [("/data/a.txt", 100); ("/data/sub/b.txt", 50)]) as Hfiles
    by (vm_compute; reflexivity).
  split; [|split; [done|split; [|split]]].
  - exists (formatScanResults (w_stats w)).
    vm_compute. do 2 apply list_elem_of_further. apply list_elem_of_here.
  - rewrite Hfiles. by repeat constructor.
  - vm_compute. reflexivity.
  - rewrite Hfiles. vm_compute. reflexivity.
Qed.

(* ===================================================================== *)
(** * The rounds of [propagate] are never used up *)
(* ===================================================================== *)

Section rounds_suffice.
Implicit Types (l r : list ascii).

Lemma drop_slashes_length r : (length (Path.drop_slashes r) ≤ length r)%nat.
Proof.
  induction r as [|c r IH]; simpl; [lia|]. case_decide; simpl; lia.
Qed.

Lemma drop_slashes_head r c r' :
  Path.drop_slashes r = c :: r' → c ≠ Path.slash.
Proof.
  induction r as [|d r IH]; simpl; [done|].
  case_decide; [done|]. by intros [= -> ->].
Qed.

Lemma take_component_length r :
  length r
  = (length (fst (Path.take_component r)) + length (snd (Path.take_component r)))%nat.
Proof.
  induction r as [|c r IH]; simpl; [done|].
  case_decide; simpl; [done|].
  destruct (Path.take_component r) as [comp rest]. simpl in *. lia.
Qed.

Lemma take_component_nonempty c r :
  c ≠ Path.slash → fst (Path.take_component (c :: r)) ≠ [].
Proof.
  intros Hc. simpl. rewrite decide_False by done.
  by destruct (Path.take_component r).
Qed.

(** [path.dirname] returns its argument or a path of smaller measure. *)
Lemma dirname_list_climb l :
  l ≠ [] →
  Path.dirname_list l = l ∨ (climb (Path.dirname_list l) < climb l)%nat.
Proof.
  destruct l as [|c0 t]; [done|]. intros _. unfold Path.dirname_list.
  pose proof (drop_slashes_length (rev t)) as Hdrop.
  pose proof (take_component_length (Path.drop_slashes (rev t))) as Htake.
  rewrite length_rev in Hdrop.
  destruct (snd (Path.take_component (Path.drop_slashes (rev t))))
    as [|sep before] eqn:Hsnd.
  - destruct t as [|c1 t].
    + case_bool_decide as Hc0; [left; by subst|].
      destruct (decide (c0 = Path.dot)) as [->|Hdot]; [by left|right].
      unfold climb.
      rewrite (decide_True (P := [Path.dot] = [Path.dot] ∨ _)) by (by left).
      rewrite decide_False; [simpl; lia|]. intros [[= ?]|[= ?]]; done.
    + right. unfold climb. simpl length.
      rewrite (decide_False (P := c0 :: c1 :: t = [Path.dot] ∨ _))
        by (by intros [?|?]).
      case_bool_decide; rewrite decide_True by auto; cbn [length]; lia.
  - right.
    assert (2 + length before ≤ length t)%nat as Hlen.
    { destruct (Path.drop_slashes (rev t)) as [|c r'] eqn:Hr; [done|].
      pose proof (drop_slashes_head _ _ _ Hr) as Hc.
      pose proof (take_component_nonempty c r' Hc) as Hcomp.
      destruct (fst (Path.take_component (c :: r'))); [done|].
      cbn [length] in *. lia. }
    unfold climb. simpl length.
    rewrite (decide_False (P := c0 :: t = [Path.dot] ∨ _)); cycle 1.
    { intros [[= ? ->]|[= ? ->]]; simpl in Hlen; lia. }
    destruct before as [|b before].
    + case_bool_decide; case_decide; cbn [length] in *; lia.
    + cbn [length]. rewrite length_rev. cbn [length] in *. case_decide; lia.
Qed.

Lemma climb_rounds p : (climb (Str.to_list p) < rounds p)%nat.
Proof. unfold climb, rounds. case_decide; lia. Qed.

Lemma to_list_nonempty p : p ≠ "" → Str.to_list p ≠ [].
Proof. by destruct p. Qed.

(** Whatever the paths, [propagate] gives the same result for every
    number of rounds above the measure of the path it starts from: the
    loop always ends on its own condition. *)
Lemma propagate_fuel drivePath folderPath size fuel1 :
  ∀ fuel2 parentPath m,
    (climb (Str.to_list parentPath) < fuel1)%nat →
    (climb (Str.to_list parentPath) < fuel2)%nat →
    propagate fuel1 drivePath folderPath parentPath size m
    = propagate fuel2 drivePath folderPath parentPath size m.
Proof.
  induction fuel1 as [|fuel1 IH]; intros fuel2 parentPath m H1 H2; [lia|].
  destruct fuel2 as [|fuel2]; [lia|]. cbn [propagate].
  destruct (keepsClimbing drivePath folderPath parentPath) eqn:Hk; [|done].
  case_decide as Hnew; [done|].
  assert (parentPath ≠ "") as Hne.
  { unfold keepsClimbing in Hk. intros ->. by rewrite bool_decide_eq_true_2 in Hk. }
  destruct (dirname_list_climb (Str.to_list parentPath) (to_list_nonempty _ Hne))
    as [Hsame|Hless].
  - exfalso. apply Hnew. unfold Path.dirname. rewrite Hsame. apply of_list_to_list.
  - unfold Path.dirname in *. apply IH; rewrite to_list_of_list; lia.
Qed.

Lemma creditAncestors_fuel drivePath folderPath size m fuel :
  (rounds (Path.dirname folderPath) ≤ fuel)%nat →
  propagate fuel drivePath folderPath (Path.dirname folderPath) size m
  = creditAncestors drivePath folderPath size m.
Proof.
  intros Hfuel. unfold creditAncestors.
  pose proof (climb_rounds (Path.dirname folderPath)).
  apply propagate_fuel; lia.
Qed.
End rounds_suffice.

(* ===================================================================== *)
(** * Invariants of the walk, step by step *)
(* ===================================================================== *)

(** The steps of a scan, one by one: an error counted, a folder entry
    made for a directory met, a file handled while the task is not
    aborted, a suspension point.  What is stable under the four is
    stable under the walk. *)
Section walk_steps.
Variable stops : nat → bool.
Variables taskId drivePath : string.
Variable maxDepth : Z.
Variable I : world → Prop.

Hypothesis I_error : ∀ w, I w → I (on_stats count_error w).
Hypothesis I_note : ∀ fullPath w, I w → I (noteDirectory fullPath w).
Hypothesis I_file :
  ∀ fullPath name size w, I w → w_abort w = false →
    I (visitFile taskId drivePath fullPath name size w).
Hypothesis I_await : ∀ w, I w → I (await stops taskId w).

Lemma scanDirectory_steps n :
  ∀ dirPath currentDepth w,
    I w → I (snd (scanDirectory stops taskId drivePath maxDepth dirPath currentDepth n w)).
Proof.
  induction n as [size| | |entries IH] using node_tree_ind;
    intros dirPath currentDepth w Hw; rewrite scanDirectory_eq;
    destruct (w_abort w) eqn:Hab; simpl; auto.
  clear Hab. revert w Hw.
  induction IH as [|[name child] rest IHchild _ IHrest]; intros w Hw; [done|].
  cbn [scanEntries]. destruct (w_abort w) eqn:Hab; [auto|].
  destruct child as [size|listing|].
  - apply IHrest. by apply I_file.
  - destruct (currentDepth <? maxDepth).
    + specialize (IHchild (Path.join dirPath name) (currentDepth + 1)
                    (noteDirectory (Path.join dirPath name) w)
                    (I_note _ _ Hw)).
      destruct (scanDirectory _ _ _ _ _ _ _ _) as [[] w']; simpl in IHchild;
        apply IHrest; [|apply I_error]; by apply I_await.
    + apply IHrest. by apply I_note.
  - by apply IHrest.
Qed.
End walk_steps.

(** The same for a property of the aggregator alone: it is enough that
    the three updates of the aggregator keep it. *)
Section stats_steps.
Variable drivePath : string.
Variable J : stats → Prop.

Hypothesis J_error : ∀ st, J st → J (count_error st).
Hypothesis J_note :
  ∀ fullPath st,
    J st → J (with_folders (JsObj.ensure fullPath (newFolder fullPath) (folders st)) st).
Hypothesis J_record :
  ∀ fullPath name size st, J st → J (recordFile drivePath fullPath name size st).

Lemma visitFile_stats taskId fullPath name size w :
  w_stats (visitFile taskId drivePath fullPath name size w) =
  match size with
  | Some size => recordFile drivePath fullPath name size (w_stats w)
  | None => count_error (w_stats w)
  end.
Proof. destruct size as [size|]; simpl; [|done]. by destruct (progressDue _ _ _). Qed.

Lemma scanDirectory_stats stops taskId maxDepth n dirPath currentDepth w :
  J (w_stats w) →
  J (w_stats (snd (scanDirectory stops taskId drivePath maxDepth
                     dirPath currentDepth n w))).
Proof.
  apply (scanDirectory_steps stops taskId drivePath maxDepth (λ w, J (w_stats w))).
  - intros w' H. by apply J_error.
  - intros p w' H. by apply J_note.
  - intros p name size w' H _. rewrite visitFile_stats. destruct size; auto.
  - intros w' H. by rewrite await_stats.
Qed.

End stats_steps.

(** Whatever the request and the stop requests, the aggregator of a
    scan is built by the three updates from the empty one. *)
Lemma startScan_stats (J : stats → Prop) stops root taskId p tasks :
  (∀ st, J st → J (count_error st)) →
  (∀ fullPath st,
      J st → J (with_folders (JsObj.ensure fullPath (newFolder fullPath) (folders st)) st)) →
  (∀ drivePath fullPath name size st,
      J st → J (recordFile drivePath fullPath name size st)) →
  J scanStats → J (w_stats (startScan stops root taskId p tasks)).
Proof.
  intros J_error J_note J_record J0. unfold startScan.
  destruct (p_drivePath p) as [drivePath|]; [|done].
  destruct (if decide (drivePath = "") then None else root drivePath) as [n|];
    [|done].
  pose proof (scanDirectory_stats drivePath J J_error J_note (J_record drivePath)
                stops taskId (default 2 (p_scanDepth p)) n drivePath 1
                (send (scan_started taskId)
                   (registerTask taskId
                      {| w_stats := scanStats; w_abort := false; w_tasks := tasks;
                         w_log := []; w_clock := 0 |})) J0) as H.
  destruct (scanDirectory _ _ _ _ _ _ _ _) as [outcome w]. simpl in H.
  by rewrite onSettled_stats, await_stats.
Qed.

(* ===================================================================== *)
(** * What the entries of the dictionaries hold *)
(* ===================================================================== *)

(** [if (!obj[k]) obj[k] = fresh; obj[k].field = ...]: a property of the
    entries that the fresh entry has, and that the update keeps, holds of
    every entry afterwards.  The fresh entry is stored only under a key
    that is not an inherited property. *)
Lemma ensure_entries {V} (Q : string → V → Prop) k fresh (m : gmap string V) :
  (∀ k' e, m !! k' = Some e → Q k' e) →
  (JsObj.inherited k = false → Q k fresh) →
  ∀ k' e, JsObj.ensure k fresh m !! k' = Some e → Q k' e.
Proof.
  intros Hm Hfresh k' e. unfold JsObj.ensure, JsObj.truthy_at.
  destruct (bool_decide (is_Some (m !! k)) || JsObj.inherited k) eqn:Ht; [apply Hm|].
  apply orb_false_iff in Ht as [_ Hk].
  destruct (decide (k = k')) as [<-|Hne].
  - rewrite lookup_insert_eq. intros [= <-]. auto.
  - rewrite lookup_insert_ne by done. apply Hm.
Qed.

Lemma credit_entries {V} (Q : string → V → Prop) f k fresh (m : gmap string V) :
  (∀ k' e, m !! k' = Some e → Q k' e) →
  (JsObj.inherited k = false → Q k fresh) →
  (∀ e, Q k e → Q k (f e)) →
  ∀ k' e, JsObj.update f k (JsObj.ensure k fresh m) !! k' = Some e → Q k' e.
Proof.
  intros Hm Hfresh Hf k' e. unfold JsObj.update.
  pose proof (ensure_entries Q k fresh m Hm Hfresh) as He.
  destruct (decide (k = k')) as [<-|Hne].
  - rewrite lookup_alter_eq.
    destruct (JsObj.ensure k fresh m !! k) as [e0|] eqn:H0; [|done].
    intros [= <-]. apply Hf. by apply He.
  - rewrite lookup_alter_ne by done. apply He.
Qed.

Section folder_entries.
Variable Q : string → folderEntry → Prop.
Hypothesis Q_new : ∀ p, JsObj.inherited p = false → Q p (newFolder p).
Hypothesis Q_add : ∀ p size e, Q p e → Q p (addFolderSize size e).

Local Abbreviation holds := (λ m : gmap string folderEntry,
                               ∀ k e, m !! k = Some e → Q k e).

Lemma creditFolder_entries p size m : holds m → holds (creditFolder p size m).
Proof.
  intros Hm. cbv beta in *. unfold creditFolder.
  apply (credit_entries Q); auto.
Qed.

Lemma propagate_entries fuel drivePath folderPath parentPath size m :
  holds m → holds (propagate fuel drivePath folderPath parentPath size m).
Proof.
  revert parentPath m. induction fuel as [|fuel IH]; intros parentPath m Hm; [done|].
  simpl. destruct (keepsClimbing _ _ _); [|done].
  case_decide; [by apply creditFolder_entries|].
  by apply IH, creditFolder_entries.
Qed.

Lemma recordFile_folder_entries drivePath fullPath name size st :
  holds (folders st) → holds (folders (recordFile drivePath fullPath name size st)).
Proof.
  intros Hm. unfold recordFile, creditAncestors. cbn.
  by apply propagate_entries, creditFolder_entries.
Qed.
End folder_entries.

Lemma recordFile_wellKeyed drivePath fullPath name size st :
  wellKeyed st → wellKeyed (recordFile drivePath fullPath name size st).
Proof.
  intros (Hfolders & Htypes & Happs). split; [|split].
  - apply (recordFile_folder_entries
             (λ k e, fo_path e = k ∧ fo_name e = getFolderName k)); [done..|].
    exact Hfolders.
  - unfold recordFile. cbn.
    apply (credit_entries
             (λ k e, ft_name e = k ∧ ft_description e = getFileDescription k));
      [exact Htypes|done|done].
  - unfold recordFile. cbn. unfold creditApplication.
    destruct (isExecutable _ || isInAppDirectory _); [|exact Happs].
    apply (credit_entries (λ k e, ap_name e = k)); [exact Happs|done|done].
Qed.

Lemma startScan_wellKeyed stops root taskId p tasks :
  wellKeyed (w_stats (startScan stops root taskId p tasks)).
Proof.
  apply (startScan_stats wellKeyed).
  - by intros st H.
  - intros fullPath st (Hfolders & Htypes & Happs). split; [|done].
    cbn. apply (ensure_entries
                  (λ k e, fo_path e = k ∧ fo_name e = getFolderName k));
      [exact Hfolders|done].
  - intros. by apply recordFile_wellKeyed.
  - split; [|split]; intros k e H; cbn in H; by rewrite lookup_empty in H.
Qed.

(* ===================================================================== *)
(** * The task table and the messages of one scan *)
(* ===================================================================== *)

Lemma sentOf_app l1 l2 : sentOf (l1 ++ l2) = sentOf l1 ++ sentOf l2.
Proof. unfold sentOf. by rewrite flat_map_app. Qed.

Section table.
Variable stops : nat → bool.
Variable taskId : string.
Variable tasks : gset string.

Lemma await_table w :
  w_tasks w ∖ {[taskId]} = tasks ∖ {[taskId]} →
  w_tasks (await stops taskId w) ∖ {[taskId]} = tasks ∖ {[taskId]}.
Proof.
  intros H. unfold await, stopScan. destruct (stops _); [|done].
  case_decide; [|done]. simpl. set_solver.
Qed.

Lemma scanDirectory_table drivePath maxDepth n dirPath currentDepth w :
  w_tasks w ∖ {[taskId]} = tasks ∖ {[taskId]} →
  w_tasks (snd (scanDirectory stops taskId drivePath maxDepth dirPath currentDepth n w))
    ∖ {[taskId]} = tasks ∖ {[taskId]}.
Proof.
  apply (scanDirectory_invariant stops taskId drivePath maxDepth
           (λ w, w_tasks w ∖ {[taskId]} = tasks ∖ {[taskId]})).
  - done.
  - done.
  - apply await_table.
Qed.

Lemma await_underWay w : underWay taskId w → underWay taskId (await stops taskId w).
Proof.
  intros (ps & Hps & Hlog & Htab). unfold await, stopScan.
  destruct (stops _); [|by exists ps].
  case_decide as Hin; [|by exists ps].
  destruct (w_abort w) eqn:Hab; [by destruct (Htab eq_refl)|].
  exists ps. split; [done|]. split.
  - simpl. rewrite !sentOf_app, Hlog. simpl. by rewrite !app_nil_r.
  - intros _. simpl. set_solver.
Qed.

Lemma scanDirectory_underWay drivePath maxDepth n dirPath currentDepth w :
  underWay taskId w →
  underWay taskId
    (snd (scanDirectory stops taskId drivePath maxDepth dirPath currentDepth n w)).
Proof.
  apply (scanDirectory_invariant stops taskId drivePath maxDepth (underWay taskId)).
  - done.
  - intros w' count total errors path percentage (ps & Hps & Hlog & Htab) Hab.
    exists (ps ++ [scan_progress taskId count total errors path percentage]).
    split; [apply Forall_app; split; [done|by constructor]|].
    split; [|done]. simpl. rewrite sentOf_app, Hlog, Hab. simpl.
    by rewrite !app_nil_r.
  - apply await_underWay.
Qed.
End table.

(** X1 — Once a scan with a valid root has run its course, completed or
    stopped, its id has left the task table and every other id is where
    it was. *)
Theorem task_leaves_table stops root taskId p tasks drivePath n :
  p_drivePath p = Some drivePath → drivePath ≠ "" → root drivePath = Some n →
  w_tasks (startScan stops root taskId p tasks) = tasks ∖ {[taskId]}.
Proof.
  intros Hp Hne Hroot. rewrite (startScan_valid _ _ _ _ _ _ _ Hp Hne Hroot).
  cbv zeta.
  pose proof (scanDirectory_table stops taskId tasks drivePath
                (default 2 (p_scanDepth p)) n drivePath 1 (started taskId tasks)
                ltac:(simpl; set_solver)) as H.
  apply (await_table stops taskId tasks) in H.
  destruct (scanDirectory _ _ _ _ _ _ _ _) as [outcome w]. simpl in H.
  destruct outcome; simpl; destruct (w_abort _); simpl; set_solver.
Qed.

Lemma task_leaves_table_witness :
  w_tasks (startScan stopsFirst (mounted "/data" dataTree) "17" (request "/data")
             {["17"; "16"]})
  = ({["17"; "16"]} : gset string) ∖ {["17"]}.
Proof.
  refine (task_leaves_table stopsFirst (mounted "/data" dataTree) "17"
            (request "/data") {["17"; "16"]} "/data" dataTree _ _ _).
  - reflexivity.
  - discriminate.
  - reflexivity.
Defined.

(** X2 — The messages of a scan with a valid root are, in this order:
    [scan_started], progress messages, and one closing message, which is
    [scan_stopped] when a stop request was handled and [scan_complete]
    with the formatted aggregator otherwise. *)
Theorem one_closing_message stops root taskId p tasks drivePath n :
  p_drivePath p = Some drivePath → drivePath ≠ "" → root drivePath = Some n →
  let w := startScan stops root taskId p tasks in
  ∃ ps,
    Forall (λ m, isProgress m = true) ps
    ∧ sentOf (w_log w)
      = scan_started taskId :: ps
        ++ [if w_abort w then scan_stopped taskId
            else scan_complete taskId (formatScanResults (w_stats w))].
Proof.
  intros Hp Hne Hroot w.
  destruct (startScan_log stops taskId root p tasks drivePath n Hp Hne Hroot)
    as (w' & l & Hwalk & _ & _ & _ & Hw).
  pose proof (scanDirectory_underWay stops taskId drivePath
                (default 2 (p_scanDepth p)) n drivePath 1 (started taskId tasks))
    as H.
  rewrite Hwalk in H. simpl in H.
  destruct (await_underWay stops taskId w') as (ps & Hps & Hlog & _).
  { apply H. exists []. split; [constructor|]. split; [reflexivity|done]. }
  exists ps. split; [done|]. subst w. rewrite Hw. simpl.
  destruct (w_abort (await stops taskId w')) eqn:Hab; simpl.
  - rewrite sentOf_app, Hlog. simpl. by rewrite Hab, app_nil_r.
  - rewrite !sentOf_app, Hlog. simpl. by rewrite Hab, !app_nil_r.
Qed.

Lemma one_closing_message_witness :
  ∃ ps,
    Forall (λ m, isProgress m = true) ps
    ∧ sentOf (w_log (startScan stopsFirst (mounted "/data" dataTree) "17"
                       (request "/data") ∅))
      = scan_started "17" :: ps
        ++ [if w_abort (startScan stopsFirst (mounted "/data" dataTree) "17"
                          (request "/data") ∅)
            then scan_stopped "17"
            else scan_complete "17"
                   (formatScanResults
                      (w_stats (startScan stopsFirst (mounted "/data" dataTree) "17"
                                  (request "/data") ∅)))].
Proof.
  refine (one_closing_message stopsFirst (mounted "/data" dataTree) "17"
            (request "/data") ∅ "/data" dataTree _ _ _).
  - reflexivity.
  - discriminate.
  - reflexivity.
Defined.

(* ===================================================================== *)
(** * Progress messages *)
(* ===================================================================== *)

Lemma progressOf_app l1 l2 : progressOf (l1 ++ l2) = progressOf l1 ++ progressOf l2.
Proof. unfold progressOf. by rewrite flat_map_app. Qed.

Lemma milestones_same n : 0 ≤ n → (n + 1) mod 50 ≠ 0 → milestones (n + 1) = milestones n.
Proof.
  intros Hn Hmod. unfold milestones. f_equal. f_equal.
  Z.to_euclidean_division_equations. lia.
Qed.

Lemma milestones_next n :
  0 ≤ n → (n + 1) mod 50 = 0 →
  milestones (n + 1) = milestones n ++ [(n + 1, Z.min 99 ((n + 1) / 100))].
Proof.
  intros Hn Hmod. unfold milestones.
  assert ((n + 1) / 50 = n / 50 + 1) as -> by (Z.to_euclidean_division_equations; lia).
  rewrite seqZ_app by (Z.to_euclidean_division_equations; lia).
  rewrite map_app. f_equal. simpl. f_equal. f_equal.
  - Z.to_euclidean_division_equations; lia.
  - f_equal. Z.to_euclidean_division_equations; lia.
Qed.

Section progress.
Variable stops : nat → bool.
Variables taskId drivePath : string.
Hypothesis taskId_valid : taskId ≠ "".

Local Abbreviation paced :=
  (λ w : world, 0 ≤ scannedCount (w_stats w)
                ∧ progressOf (w_log w) = milestones (scannedCount (w_stats w))).

Lemma visitFile_paced fullPath name size w :
  paced w → paced (visitFile taskId drivePath fullPath name size w).
Proof.
  cbv beta. intros [Hn Hlog]. destruct size as [size|]; [|done].
  unfold visitFile. cbv zeta.
  assert (scannedCount
            (w_stats (on_stats (recordFile drivePath fullPath name size) w))
          = scannedCount (w_stats w) + 1) as Hst by reflexivity.
  unfold progressDue. rewrite Hst, Z.rem_mod_nonneg by lia.
  case_decide as Hmod.
  - rewrite decide_False by done. cbn [w_stats w_log send].
    rewrite Hst. split; [lia|].
    rewrite progressOf_app. cbn [w_log on_stats]. rewrite Hlog. simpl.
    by rewrite milestones_next.
  - rewrite Hst. split; [lia|]. cbn [w_log on_stats].
    by rewrite milestones_same.
Qed.

Lemma await_paced w : paced w → paced (await stops taskId w).
Proof.
  cbv beta. intros [Hn Hlog]. unfold await, stopScan.
  destruct (stops _); [|done]. case_decide; [|done]. simpl.
  split; [done|]. rewrite !progressOf_app, Hlog. simpl. by rewrite !app_nil_r.
Qed.

Lemma scanDirectory_paced maxDepth n dirPath currentDepth w :
  paced w →
  paced (snd (scanDirectory stops taskId drivePath maxDepth dirPath currentDepth n w)).
Proof.
  apply (scanDirectory_steps stops taskId drivePath maxDepth paced).
  - done.
  - done.
  - intros fullPath name size w' H _. by apply visitFile_paced.
  - apply await_paced.
Qed.
End progress.

(** X3 — Whatever the tree and the stop requests, the progress messages of a
    scan are, in this order, those of 50, 100, 150, ... files, up to
    the number of files counted when the scan ended, and the message of
    [50 i] files carries the percentage [min(99, i / 2)]. *)
Theorem progress_every_fifty stops root taskId p tasks :
  taskId ≠ "" →
  let w := startScan stops root taskId p tasks in
  progressOf (w_log w) = milestones (scannedCount (w_stats w)).
Proof.
  intros Hid w. subst w. unfold startScan.
  destruct (p_drivePath p) as [drivePath|]; [|reflexivity].
  destruct (if decide (drivePath = "") then None else root drivePath) as [n|];
    [|reflexivity].
  pose proof (scanDirectory_paced stops taskId drivePath Hid
                (default 2 (p_scanDepth p)) n drivePath 1
                (send (scan_started taskId)
                   (registerTask taskId
                      {| w_stats := scanStats; w_abort := false; w_tasks := tasks;
                         w_log := []; w_clock := 0 |}))
                ltac:(split; [done|reflexivity])) as H.
  destruct (scanDirectory _ _ _ _ _ _ _ _) as [outcome w].
  apply (await_paced stops taskId) in H as [_ H]. simpl in H.
  rewrite onSettled_stats.
  destruct outcome; simpl; destruct (w_abort _); simpl;
    rewrite ?progressOf_app, H; simpl; by rewrite ?app_nil_r.
Qed.

Lemma progress_every_fifty_witness :
  progressOf (w_log (startScan never (mounted "/data" sixtyFiles) "17"
                       (request "/data") ∅))
  = milestones (scannedCount
                  (w_stats (startScan never (mounted "/data" sixtyFiles) "17"
                              (request "/data") ∅))).
Proof.
  refine (progress_every_fifty never (mounted "/data" sixtyFiles) "17"
            (request "/data") ∅ _).
  discriminate.
Defined.

(* ===================================================================== *)
(** * Files counted, and files per extension *)
(* ===================================================================== *)

Section counting.
Variable drivePath : string.

Lemma recordVisits_counts vs st :
  totalFiles (recordVisits drivePath vs st)
  = totalFiles st + Z.of_nat (length (filesRead vs))
  ∧ scannedCount (recordVisits drivePath vs st)
    = scannedCount st + Z.of_nat (length (filesRead vs)).
Proof.
  revert st. induction vs as [|v vs IH]; intros st; [simpl; lia|].
  unfold recordVisits in *. simpl fold_left.
  destruct (IH (recordVisit drivePath st v)) as [-> ->].
  rewrite (filesRead_cons v vs), length_app.
  destruct v; simpl; lia.
Qed.

Lemma creditFileType_lookup m extension size ext :
  JsObj.inherited extension = false →
  creditFileType extension size m !! ext
  = if decide (extension = ext)
    then Some (addFileOfType size (default (newFileType extension) (m !! extension)))
    else m !! ext.
Proof.
  intros Hext. unfold creditFileType, JsObj.update. case_decide as Heq.
  - subst ext. by rewrite lookup_alter_eq, ensure_lookup.
  - rewrite lookup_alter_ne by done. by rewrite ensure_lookup_ne.
Qed.

(** No entry is ever stored under the name of an inherited property. *)
Lemma recordVisits_no_inherited vs st ext :
  JsObj.inherited ext = true → fileTypes st !! ext = None →
  fileTypes (recordVisits drivePath vs st) !! ext = None.
Proof.
  intros Hext. revert st. induction vs as [|v vs IH]; intros st Hst; [done|].
  unfold recordVisits in *. simpl fold_left. apply IH.
  destruct v as [q|q name size|]; simpl; try done.
  destruct (decide (fileExtension name = ext)) as [Heq|Hne].
  - rewrite creditFileType_inherited; [done|by rewrite Heq|by rewrite Heq].
  - unfold creditFileType, JsObj.update.
    rewrite lookup_alter_ne by done. by rewrite ensure_lookup_ne.
Qed.

Lemma recordVisits_bucket vs st ext :
  JsObj.inherited ext = false →
  fileTypes (recordVisits drivePath vs st) !! ext
  = match sizesOfType ext vs with
    | [] => fileTypes st !! ext
    | sizes => Some (tally sizes (default (newFileType ext) (fileTypes st !! ext)))
    end.
Proof.
  intros Hext. revert st. induction vs as [|v vs IH]; intros st; [done|].
  unfold recordVisits in *. simpl fold_left. rewrite IH. clear IH.
  unfold sizesOfType. simpl flat_map. fold (sizesOfType ext vs).
  destruct v as [q|q name size|]; try done. cbn [recordVisit].
  assert (fileTypes (recordFile drivePath q name size st)
          = creditFileType (fileExtension name) size (fileTypes st)) as -> by done.
  destruct (decide (fileExtension name = ext)) as [Heq|Hne].
  - rewrite Heq, creditFileType_lookup, decide_True by done. simpl.
    by destruct (sizesOfType ext vs).
  - simpl.
    assert (creditFileType (fileExtension name) size (fileTypes st) !! ext
            = fileTypes st !! ext) as ->; [|done].
    unfold creditFileType, JsObj.update.
    rewrite lookup_alter_ne by done. by rewrite ensure_lookup_ne.
Qed.

Lemma tally_bucket ext sizes1 sizes2 :
  tally sizes2 (bucket ext sizes1) = bucket ext (sizes1 ++ sizes2).
Proof.
  revert sizes1. induction sizes2 as [|size sizes2 IH]; intros sizes1.
  - by rewrite app_nil_r.
  - simpl.
    assert (addFileOfType size (bucket ext sizes1) = bucket ext (sizes1 ++ [size]))
      as ->.
    { unfold addFileOfType, bucket. simpl. f_equal.
      - rewrite length_app. simpl. lia.
      - rewrite sumZ_app. simpl. lia. }
    fold (tally sizes2 (bucket ext (sizes1 ++ [size]))).
    by rewrite IH, <-app_assoc.
Qed.
End counting.

(** X4 — When a scan completes, the [totalFiles] it reports, and the
    [scannedCount] of its aggregator, are the number of files the walk
    visited and whose metadata query succeeded. *)
Theorem totalFiles_counts_read_files stops root taskId p tasks drivePath n result :
  p_drivePath p = Some drivePath → drivePath ≠ "" → root drivePath = Some n →
  Sent (scan_complete taskId result) ∈ w_log (startScan stops root taskId p tasks) →
  let files := filesRead (visits (default 2 (p_scanDepth p)) drivePath 1 n) in
  r_totalFiles result = Z.of_nat (length files)
  ∧ scannedCount (w_stats (startScan stops root taskId p tasks))
    = Z.of_nat (length files).
Proof.
  intros Hp Hne Hroot Hdone files.
  destruct (completed_scan stops taskId root p tasks drivePath n Hp Hne Hroot
              result Hdone) as [-> ->].
  cbn [r_totalFiles formatScanResults].
  destruct (recordVisits_counts drivePath
              (visits (default 2 (p_scanDepth p)) drivePath 1 n) scanStats)
    as [-> ->].
  done.
Qed.

Lemma totalFiles_counts_read_files_witness :
  r_totalFiles
    (formatScanResults
       (w_stats (startScan never (mounted "/data" dataTree) "17"
                   (request "/data") ∅)))
  = Z.of_nat (length (filesRead
                        (visits (default 2 (p_scanDepth (request "/data")))
                           "/data" 1 dataTree)))
  ∧ scannedCount (w_stats (startScan never (mounted "/data" dataTree) "17"
                             (request "/data") ∅))
    = Z.of_nat (length (filesRead
                          (visits (default 2 (p_scanDepth (request "/data")))
                             "/data" 1 dataTree))).
Proof.
  refine (totalFiles_counts_read_files never (mounted "/data" dataTree) "17"
            (request "/data") ∅ "/data" dataTree _ _ _ _ _).
  - reflexivity.
  - discriminate.
  - reflexivity.
  - vm_compute. do 2 apply list_elem_of_further. apply list_elem_of_here.
Defined.

(** X5 — When a scan completes, the file-type dictionary holds exactly one
    entry for every extension met that is not the name of an inherited
    property: it counts the files read with that extension, sums their
    sizes, and carries the extension as its name and the description
    [getFileDescription] gives.  The names of the files read are ASCII,
    and their sizes are in the range where the scanner adds without
    rounding: none negative, their sum below 2^53. *)
Theorem fileTypes_count_by_extension
    stops root taskId p tasks drivePath n result extension :
  p_drivePath p = Some drivePath → drivePath ≠ "" → root drivePath = Some n →
  asciiNames (visits (default 2 (p_scanDepth p)) drivePath 1 n) = true →
  exactSizes (filesRead (visits (default 2 (p_scanDepth p)) drivePath 1 n)) = true →
  Sent (scan_complete taskId result) ∈ w_log (startScan stops root taskId p tasks) →
  let sizes :=
    sizesOfType extension (visits (default 2 (p_scanDepth p)) drivePath 1 n) in
  fileTypes (w_stats (startScan stops root taskId p tasks)) !! extension
  = if JsObj.inherited extension then None
    else match sizes with
         | [] => None
         | _ => Some (bucket extension sizes)
         end.
Proof.
  intros Hp Hne Hroot _ _ Hdone sizes.
  destruct (completed_scan stops taskId root p tasks drivePath n Hp Hne Hroot
              result Hdone) as [-> _].
  destruct (JsObj.inherited extension) eqn:Hext.
  - by apply recordVisits_no_inherited.
  - rewrite recordVisits_bucket by done. fold sizes.
    destruct sizes as [|size sizes']; [done|].
    cbn [fileTypes scanStats]. rewrite lookup_empty.
    change (default (newFileType extension) None) with (bucket extension []).
    by rewrite tally_bucket.
Qed.

Lemma fileTypes_count_by_extension_witness :
  fileTypes (w_stats (startScan never (mounted "/data" dataTree) "17"
                        (request "/data") ∅)) !! "txt"
  = if JsObj.inherited "txt" then None
    else match sizesOfType "txt"
                 (visits (default 2 (p_scanDepth (request "/data")))
                    "/data" 1 dataTree) with
         | [] => None
         | _ => Some (bucket "txt"
                        (sizesOfType "txt"
                           (visits (default 2 (p_scanDepth (request "/data")))
                              "/data" 1 dataTree)))
         end.
Proof.
  refine (fileTypes_count_by_extension never (mounted "/data" dataTree) "17"
            (request "/data") ∅ "/data" dataTree
            (formatScanResults
               (w_stats (startScan never (mounted "/data" dataTree) "17"
                           (request "/data") ∅)))
            "txt" _ _ _ _ _ _).
  - reflexivity.
  - discriminate.
  - reflexivity.
  - vm_compute. reflexivity.
  - vm_compute. reflexivity.
  - vm_compute. do 2 apply list_elem_of_further. apply list_elem_of_here.
Defined.

(* ===================================================================== *)
(** * The depth ceiling beyond the depth of the tree *)
(* ===================================================================== *)

Lemma levels_dir entries :
  levels (NDir (Some entries))
  = 1 + foldr (λ e deepest, Z.max (levels (snd e)) deepest) 0 entries.
Proof. reflexivity. Qed.

Lemma deepest_nonneg (entries : list (string * node)) :
  0 ≤ foldr (λ e deepest, Z.max (levels (snd e)) deepest) 0 entries.
Proof. induction entries as [|e rest IH]; simpl; lia. Qed.

Lemma levels_dir_positive listing : 1 ≤ levels (NDir listing).
Proof.
  destruct listing as [entries|]; [|simpl; lia].
  rewrite levels_dir. pose proof (deepest_nonneg entries). lia.
Qed.

(** A ceiling at or beyond the last level of the tree is never met:
    two such ceilings give the same walk. *)
Lemma scanDirectory_deep_enough stops taskId drivePath maxDepth1 maxDepth2 n :
  ∀ dirPath currentDepth w,
    currentDepth + levels n ≤ maxDepth1 + 1 →
    currentDepth + levels n ≤ maxDepth2 + 1 →
    scanDirectory stops taskId drivePath maxDepth1 dirPath currentDepth n w
    = scanDirectory stops taskId drivePath maxDepth2 dirPath currentDepth n w.
Proof.
  induction n as [size| | |entries IH] using node_tree_ind;
    intros dirPath currentDepth w H1 H2; try reflexivity.
  rewrite !scanDirectory_eq. destruct (w_abort w); [done|]. simpl. f_equal.
  rewrite levels_dir in H1, H2. revert w.
  induction IH as [|[name child] rest IHchild _ IHrest]; intros w; [done|].
  simpl in H1, H2. cbn [scanEntries]. destruct (w_abort w); [done|].
  destruct child as [size|listing|].
  - apply IHrest; lia.
  - pose proof (levels_dir_positive listing) as Hdir.
    pose proof (deepest_nonneg rest) as Hrest.
    simpl snd in *.
    destruct (Z.ltb_spec currentDepth maxDepth1); [|lia].
    destruct (Z.ltb_spec currentDepth maxDepth2); [|lia].
    rewrite (IHchild (Path.join dirPath name) (currentDepth + 1)) by lia.
    destruct (scanDirectory _ _ _ _ _ _ _ _) as [[] w']; apply IHrest; lia.
  - apply IHrest; lia.
Qed.

(** X6 — Two requests for the same root whose [scanDepth] both reach the
    last level of the tree are answered alike, whatever the stop
    requests: beyond the depth of the tree, [scanDepth] changes nothing. *)
Theorem scanDepth_beyond_tree stops root taskId p1 p2 tasks drivePath n :
  p_drivePath p1 = Some drivePath → p_drivePath p2 = Some drivePath →
  root drivePath = Some n →
  levels n ≤ default 2 (p_scanDepth p1) → levels n ≤ default 2 (p_scanDepth p2) →
  startScan stops root taskId p1 tasks = startScan stops root taskId p2 tasks.
Proof.
  intros Hp1 Hp2 Hroot H1 H2. unfold startScan. rewrite Hp1, Hp2.
  case_decide; [done|]. rewrite Hroot.
  by rewrite (scanDirectory_deep_enough stops taskId drivePath
                (default 2 (p_scanDepth p1)) (default 2 (p_scanDepth p2)) n
                drivePath 1) by lia.
Qed.

Lemma scanDepth_beyond_tree_witness :
  startScan stopsFirst (mounted "/data" dataTree) "17"
    {| p_drivePath := Some "/data"; p_scanDepth := Some 3 |} ∅
  = startScan stopsFirst (mounted "/data" dataTree) "17"
      {| p_drivePath := Some "/data"; p_scanDepth := Some 8 |} ∅.
Proof.
  refine (scanDepth_beyond_tree stopsFirst (mounted "/data" dataTree) "17"
            {| p_drivePath := Some "/data"; p_scanDepth := Some 3 |}
            {| p_drivePath := Some "/data"; p_scanDepth := Some 8 |}
            ∅ "/data" dataTree _ _ _ _ _).
  - reflexivity.
  - reflexivity.
  - reflexivity.
  - vm_compute. discriminate.
  - vm_compute. discriminate.
Defined.

(* ===================================================================== *)
(** * Entries that are neither files nor directories *)
(* ===================================================================== *)

Lemma alike_refl w : alike w w.
Proof. by repeat split. Qed.

Lemma alike_eq w1 w2 : alike w1 w2 → w_abort w1 = false → w1 = w2.
Proof.
  intros (Hab & Htasks & Hlog & Hclock & Hstats) H. specialize (Hstats H).
  destruct w1, w2. simpl in *. by subst.
Qed.

Lemma alike_stats f w1 w2 : alike w1 w2 → alike (on_stats f w1) (on_stats f w2).
Proof.
  intros (Hab & Htasks & Hlog & Hclock & Hstats). repeat split; simpl; try done.
  intros H. by rewrite Hstats.
Qed.

Lemma alike_await stops taskId w1 w2 :
  alike w1 w2 → alike (await stops taskId w1) (await stops taskId w2).
Proof.
  intros (Hab & Htasks & Hlog & Hclock & Hstats). unfold await, stopScan.
  rewrite Hclock. destruct (stops _).
  - cbn [w_tasks tick]. rewrite Htasks.
    case_decide; repeat split; simpl; try done; congruence.
  - repeat split; simpl; try done; congruence.
Qed.

Lemma alike_settled taskId outcome w1 w2 :
  alike w1 w2 → alike (onSettled taskId outcome w1) (onSettled taskId outcome w2).
Proof.
  intros Hw. destruct (w_abort w1) eqn:Hab1.
  - destruct Hw as (Hab & Htasks & Hlog & Hclock & Hstats).
    destruct outcome; simpl; rewrite <-Hab, Hab1; repeat split; simpl;
      try done; congruence.
  - by rewrite (alike_eq w1 w2 Hw Hab1).
Qed.

Lemma withoutOthers_dir entries :
  withoutOthers (NDir (Some entries))
  = NDir (Some (flat_map (λ e, match snd e with
                               | NOther => []
                               | _ => [(fst e, withoutOthers (snd e))]
                               end) entries)).
Proof. reflexivity. Qed.

Section others.
Variable stops : nat → bool.
Variables taskId drivePath : string.
Variable maxDepth : Z.

Local Abbreviation walk := (scanDirectory stops taskId drivePath maxDepth).
Local Abbreviation loop := (scanEntries stops taskId drivePath maxDepth).

(** An aborted loop stops at its next round if there is one; the two
    outcomes differ in the error count only. *)
Lemma scanEntries_aborted_alike dirPath currentDepth entries w1 w2 :
  w_abort w1 = true → alike w1 w2 →
  alike (loop dirPath currentDepth entries w1) (on_stats count_error w2).
Proof.
  intros Hab1 Hw. destruct entries as [|e rest].
  - destruct Hw as (Hab & Htasks & Hlog & Hclock & Hstats).
    repeat split; simpl; try done. congruence.
  - rewrite scanEntries_aborted by done. by apply alike_stats.
Qed.

Lemma scanDirectory_withoutOthers n :
  ∀ dirPath currentDepth w1 w2,
    alike w1 w2 →
    fst (walk dirPath currentDepth (withoutOthers n) w1)
    = fst (walk dirPath currentDepth n w2)
    ∧ alike (snd (walk dirPath currentDepth (withoutOthers n) w1))
        (snd (walk dirPath currentDepth n w2)).
Proof.
  induction n as [size| | |entries IH] using node_tree_ind;
    intros dirPath currentDepth w1 w2 Hw.
  1-3: rewrite !scanDirectory_eq; pose proof Hw as (Hab & _);
       rewrite <-Hab; destruct (w_abort w1); simpl;
       (split; [done|]); try done; by apply alike_stats.
  rewrite withoutOthers_dir, !scanDirectory_eq.
  pose proof Hw as (Hab & _). rewrite <-Hab.
  destruct (w_abort w1) eqn:Hab1; simpl; [done|]. split; [done|].
  apply (alike_eq w1 w2 Hw) in Hab1 as ->. clear Hw Hab.
  assert (alike w2 w2) as Hw by apply alike_refl. revert Hw.
  generalize w2 at 1 3 as w1. generalize w2 as w2'. clear w2.
  induction IH as [|[name child] rest IHchild _ IHrest]; intros w2 w1 Hw; [done|].
  simpl flat_map. cbn [scanEntries].
  pose proof Hw as (Hab & _).
  destruct (w_abort w2) eqn:Hab2.
  { destruct child as [size|listing|]; cbn [snd fst app];
      [| |by apply scanEntries_aborted_alike].
    all: rewrite scanEntries_aborted by done; by apply alike_stats. }
  apply (alike_eq w1 w2 Hw) in Hab as Heq. subst w1.
  destruct child as [size|listing|]; cbn [snd fst app].
  - cbn [withoutOthers scanEntries]. rewrite Hab2. apply IHrest, alike_refl.
  - cbn [snd] in IHchild.
    assert (∃ listing', withoutOthers (NDir listing) = NDir listing') as [listing' Hl].
    { destruct listing; simpl; eauto. }
    rewrite Hl. cbn [scanEntries]. rewrite Hab2.
    destruct (currentDepth <? maxDepth); [|apply IHrest, alike_refl].
    rewrite <-Hl.
    destruct (IHchild (Path.join dirPath name) (currentDepth + 1)
                (noteDirectory (Path.join dirPath name) w2)
                (noteDirectory (Path.join dirPath name) w2) (alike_refl _))
      as [Hout Hres].
    destruct (walk _ _ (withoutOthers _) _) as [outcome1 w1'].
    destruct (walk _ _ (NDir listing) _) as [outcome2 w2'].
    simpl in Hout, Hres. subst outcome2.
    destruct outcome1; apply IHrest; [|apply alike_stats]; by apply alike_await.
  - apply IHrest, alike_refl.
Qed.
End others.

(** X7 — Entries that are neither directories nor regular files (symbolic
    links, sockets, devices) are invisible: a tree and the same tree
    without them give, for every request and every arrival of stop
    requests, the same messages in the same order, the same task table
    and, unless the scan was stopped, the same aggregator. *)
Theorem other_entries_are_invisible stops root taskId p tasks :
  let w1 := startScan stops (λ q, withoutOthers <$> root q) taskId p tasks in
  let w2 := startScan stops root taskId p tasks in
  w_log w1 = w_log w2 ∧ w_tasks w1 = w_tasks w2 ∧ w_abort w1 = w_abort w2
  ∧ (w_abort w2 = false → w_stats w1 = w_stats w2).
Proof.
  intros w1 w2.
  assert (alike w1 w2) as (Hab & Htasks & Hlog & Hclock & Hstats);
    [|repeat split; try done; intros H; apply Hstats; congruence].
  subst w1 w2. unfold startScan.
  destruct (p_drivePath p) as [drivePath|]; [|apply alike_refl].
  case_decide; [apply alike_refl|].
  destruct (root drivePath) as [n|]; simpl; [|apply alike_refl].
  destruct (scanDirectory_withoutOthers stops taskId drivePath
              (default 2 (p_scanDepth p)) n drivePath 1 _ _
              (alike_refl
                 (send (scan_started taskId)
                    (registerTask taskId
                       {| w_stats := scanStats; w_abort := false; w_tasks := tasks;
                          w_log := []; w_clock := 0 |}))))
    as [Hout Hres].
  destruct (scanDirectory _ _ _ _ _ _ (withoutOthers n) _) as [outcome1 w1'].
  destruct (scanDirectory _ _ _ _ _ _ n _) as [outcome2 w2'].
  simpl in Hout, Hres. subst outcome2.
  by apply alike_settled, alike_await.
Qed.

(* ===================================================================== *)
(** * Folder sizes and the total *)
(* ===================================================================== *)

Lemma sized_dir entries :
  sized (NDir (Some entries)) ↔ Forall (λ e, sized (snd e)) entries.
Proof.
  simpl. induction entries as [|e rest IH]; simpl.
  - split; [constructor|done].
  - rewrite Forall_cons, IH. done.
Qed.

Lemma filesRead_app vs1 vs2 : filesRead (vs1 ++ vs2) = filesRead vs1 ++ filesRead vs2.
Proof. unfold filesRead. by rewrite flat_map_app. Qed.

Lemma filesRead_sized maxDepth n :
  ∀ dirPath currentDepth,
    sized n →
    Forall (λ f, 0 ≤ snd f) (filesRead (visits maxDepth dirPath currentDepth n)).
Proof.
  induction n as [size| | |entries IH] using node_tree_ind;
    intros dirPath currentDepth Hn; rewrite visits_eq; simpl;
    try (by repeat constructor).
  apply sized_dir in Hn. unfold visitsIn.
  induction entries as [|[name child] rest IHrest]; [constructor|].
  apply Forall_cons in IH as [IHchild IH].
  apply Forall_cons in Hn as [Hchild Hn]. simpl in Hchild, IHchild.
  simpl flat_map. rewrite filesRead_app. apply Forall_app.
  split; [|by apply IHrest].
  unfold visitsOf. cbn [fst snd].
  destruct child as [[size|]|listing|]; try by repeat constructor.
  rewrite (filesRead_cons (Met _)). simpl.
  destruct (currentDepth <? maxDepth); [by apply IHchild|constructor].
Qed.

(** Part of a list of sizes that are not negative sums to no more than
    the whole list. *)
Lemma sumZ_filter_bounds (keep : string * Z → Prop) `{∀ f, Decision (keep f)}
    (files : list (string * Z)) :
  Forall (λ f, 0 ≤ snd f) files →
  0 ≤ sumZ (map snd (filter keep files)) ≤ sumZ (map snd files).
Proof.
  induction 1 as [|f files Hf _ IH]; [simpl; lia|].
  rewrite filter_cons. destruct (decide (keep f)); simpl; lia.
Qed.

(** X8 — When a scan of an absolute root completes and no file of the tree
    has a negative size, the size of every folder entry lies between 0
    and the total size of the scan. *)
Theorem folder_sizes_within_total
    stops disk taskId p tasks result drivePath n F entry :
  p_drivePath p = Some drivePath → Path.isAbsolute drivePath = true →
  disk drivePath = Some n → validTree n → sized n →
  Sent (scan_complete taskId result) ∈ w_log (startScan stops disk taskId p tasks) →
  folders (w_stats (startScan stops disk taskId p tasks)) !! F = Some entry →
  0 ≤ fo_size entry ≤ totalSize (w_stats (startScan stops disk taskId p tasks)).
Proof.
  intros Hp Habs Hdisk Hn Hsized Hdone HF.
  assert (drivePath ≠ "") as Hne by (by intros ->).
  destruct (completed_scan stops taskId disk p tasks drivePath n Hp Hne Hdisk
              result Hdone) as [Hstats _].
  rewrite Hstats in HF |- *.
  pose proof (rootSegments_valid drivePath) as Hbase.
  pose proof (visits_placed (default 2 (p_scanDepth p)) (rootSegments drivePath) n
                Hbase drivePath [] 1 ltac:(constructor)
                (λ name Hname, join_root drivePath name Habs Hname) Hn) as Hplaced.
  destruct (recordVisits_keys drivePath (rootSegments drivePath) Hbase _ scanStats
              F Hplaced ltac:(by eexists)) as [[e He]|(q & Hq & -> & Hor)].
  { cbn [folders scanStats] in He. by rewrite lookup_empty in He. }
  pose proof (recordVisits_folderSize drivePath (rootSegments drivePath) Hbase _
                scanStats q Hplaced Hq) as Hsize.
  unfold folderSize at 1 2 in Hsize.
  rewrite HF in Hsize. cbn [folders scanStats] in Hsize.
  rewrite lookup_empty, sizeDue_cases in Hsize. simpl in Hsize.
  rewrite recordVisits_totalSize. cbn [totalSize scanStats].
  pose proof (filesRead_sized (default 2 (p_scanDepth p)) n drivePath 1 Hsized)
    as Hfiles.
  rewrite Hsize. destruct (Str.startsWith _ _).
  - pose proof (sumZ_filter_bounds
                  (λ f, inSubtree (absolutePath q) (fst f) = true) _ Hfiles).
    unfold sizeBelow. lia.
  - pose proof (sumZ_filter_bounds
                  (λ f, Path.dirname (fst f) = absolutePath q) _ Hfiles).
    unfold sizeIn. lia.
Qed.

Lemma folder_sizes_within_total_witness :
  0 ≤ fo_size {| fo_name := JsObj.Str "sub"; fo_path := "/data/sub"; fo_size := 50 |}
    ≤ totalSize (w_stats (startScan never (mounted "/data" dataTree) "17"
                            (request "/data") ∅)).
Proof.
  refine (folder_sizes_within_total never (mounted "/data" dataTree) "17"
            (request "/data") ∅
            (formatScanResults
               (w_stats (startScan never (mounted "/data" dataTree) "17"
                           (request "/data") ∅)))
            "/data" dataTree "/data/sub" _ _ _ _ _ _ _ _).
  - reflexivity.
  - reflexivity.
  - reflexivity.
  - simpl. unfold validName, validSegment. vm_compute.
    repeat split; try discriminate; intros H;
      repeat (apply elem_of_cons in H as [H|H]; [discriminate H|]);
      by apply elem_of_nil in H.
  - vm_compute. repeat split; discriminate.
  - vm_compute. do 2 apply list_elem_of_further. apply list_elem_of_here.
  - vm_compute. reflexivity.
Defined.

(* ===================================================================== *)
(** * The twenty entries [formatScanResults] keeps *)
(* ===================================================================== *)

Section largest.
Context {A : Type} (size : A → Z).

Lemma elem_of_insert_desc x y l : y ∈ insert_desc size x l ↔ y = x ∨ y ∈ l.
Proof.
  induction l as [|z l IH]; simpl; [set_solver|].
  destruct (size z <=? size x); [set_solver|].
  rewrite !elem_of_cons, IH. tauto.
Qed.

Lemma elem_of_sort_desc y l : y ∈ sort_desc size l ↔ y ∈ l.
Proof.
  induction l as [|x l IH]; simpl; [done|].
  rewrite elem_of_insert_desc, IH, elem_of_cons. tauto.
Qed.

(** What a sorted list loses when it is cut is no larger than anything
    it keeps, and nothing is lost unless the cut is full. *)
Lemma take_sorted_covers k l y :
  StronglySorted (largerFirst size) l → y ∈ l →
  y ∈ take k l
  ∨ (length (take k l) = k ∧ ∀ x, x ∈ take k l → size y ≤ size x).
Proof.
  intros Hl. revert k. induction Hl as [|x0 l Hl IH Hx0]; intros k Hy.
  { by apply elem_of_nil in Hy. }
  destruct k as [|k]; [right; split; [done|]; intros x Hx; by apply elem_of_nil in Hx|].
  simpl. apply elem_of_cons in Hy as [->|Hy]; [left; apply list_elem_of_here|].
  destruct (IH k Hy) as [Hin|[Hlen Hall]]; [left; by apply list_elem_of_further|].
  right. split; [by rewrite Hlen|].
  intros x [->|Hx]%elem_of_cons; [|by apply Hall].
  by eapply Forall_forall in Hx0; [|exact Hy].
Qed.

Lemma top20_covers (keep : A → Prop) `{∀ x, Decision (keep x)} l y :
  y ∈ l → keep y →
  let top := take 20 (sort_desc size (filter keep l)) in
  y ∈ top ∨ (length top = 20%nat ∧ ∀ x, x ∈ top → size y ≤ size x).
Proof.
  intros Hy Hkeep top. apply take_sorted_covers; [apply sort_desc_sorted|].
  apply elem_of_sort_desc, list_elem_of_filter. done.
Qed.

Lemma top20_origin (keep : A → Prop) `{∀ x, Decision (keep x)} l x :
  x ∈ take 20 (sort_desc size (filter keep l)) → x ∈ l ∧ keep x.
Proof.
  intros Hx. apply subseteq_take in Hx.
  apply elem_of_sort_desc, list_elem_of_filter in Hx. tauto.
Qed.
End largest.

Lemma elem_of_formatted {V B} (format : string * V → B) (m : gmap string V) x :
  x ∈ map format (JsObj.entries m) ↔ ∃ k e, m !! k = Some e ∧ x = format (k, e).
Proof.
  unfold JsObj.entries. rewrite list_elem_of_In, in_map_iff. split.
  - intros ([k e] & <- & Hin%list_elem_of_In%elem_of_map_to_list). eauto.
  - intros (k & e & Hin & ->). exists (k, e). split; [done|].
    by apply list_elem_of_In, elem_of_map_to_list.
Qed.

(** X9 — Each list of the result is made of entries of the aggregator, and
    loses none of the largest: an entry of positive size (for folders,
    with a name that is not empty) is either listed, or the list is full
    and everything it holds is at least as large.  The application list
    holds the placeholder exactly when no application has a positive
    size, and then it holds nothing else. *)
Theorem formatScanResults_keeps_largest st :
  let result := formatScanResults st in
  ((∀ k e, fileTypes st !! k = Some e → 0 < ft_size e →
      formatFileType (k, e) ∈ r_fileTypes result
      ∨ (length (r_fileTypes result) = 20%nat
         ∧ ∀ x, x ∈ r_fileTypes result → ft_size e ≤ ti_size x))
   ∧ (∀ x, x ∈ r_fileTypes result →
        ∃ k e, fileTypes st !! k = Some e ∧ x = formatFileType (k, e)))
  ∧ ((∀ k e, folders st !! k = Some e → 0 < fo_size e →
        JsObj.truthy (fo_name e) = true →
        formatFolder (k, e) ∈ r_folders result
        ∨ (length (r_folders result) = 20%nat
           ∧ ∀ x, x ∈ r_folders result → fo_size e ≤ si_size x))
     ∧ (∀ x, x ∈ r_folders result →
          ∃ k e, folders st !! k = Some e ∧ x = formatFolder (k, e)))
  ∧ ((∀ k e, applications st !! k = Some e → 0 < ap_size e →
        formatApplication (k, e) ∈ r_applications result
        ∨ (length (r_applications result) = 20%nat
           ∧ ∀ x, x ∈ r_applications result → ap_size e ≤ si_size x))
     ∧ (∀ x, x ∈ r_applications result →
          x = placeholderApplication
          ∨ ∃ k e, applications st !! k = Some e ∧ x = formatApplication (k, e)))
  ∧ ((placeholderApplication ∈ r_applications result
      ↔ ∀ k e, applications st !! k = Some e → ap_size e ≤ 0)
     ∧ (placeholderApplication ∈ r_applications result →
        r_applications result = [placeholderApplication])).
Proof.
  intros result. subst result. unfold formatScanResults.
  cbn [r_fileTypes r_folders r_applications].
  split; [|split; [|split]]; [split|split|split|].
  - intros k e Hk He.
    apply (top20_covers ti_size (λ item, 0 < ti_size item) _ (formatFileType (k, e)));
      [|done].
    apply elem_of_formatted. eauto.
  - intros x [Hx _]%top20_origin. by apply elem_of_formatted in Hx.
  - intros k e Hk He Hname.
    apply (top20_covers si_size
             (λ item, 0 < si_size item ∧ JsObj.truthy (si_name item) = true)
             _ (formatFolder (k, e))); [|done].
    apply elem_of_formatted. eauto.
  - intros x [Hx _]%top20_origin. by apply elem_of_formatted in Hx.
  - intros k e Hk He.
    pose proof (top20_covers si_size (λ item, 0 < si_size item)
                  (map formatApplication (JsObj.entries (applications st)))
                  (formatApplication (k, e))
                  ltac:(apply elem_of_formatted; eauto) He) as Htop.
    cbv zeta in Htop. destruct (take 20 _) as [|a l] eqn:Hl; [|exact Htop].
    destruct Htop as [Hin|[Hlen _]]; [by apply elem_of_nil in Hin|done].
  - intros x Hx. destruct (take 20 _) as [|a l] eqn:Hl.
    + left. by apply list_elem_of_singleton in Hx.
    + right. rewrite <-Hl in Hx. apply top20_origin in Hx as [Hx _].
      by apply elem_of_formatted in Hx.
  - pose proof (top20_covers si_size (λ item, 0 < si_size item)
                  (map formatApplication (JsObj.entries (applications st))))
      as Hcovers.
    pose proof (top20_origin si_size (λ item, 0 < si_size item)
                  (map formatApplication (JsObj.entries (applications st))))
      as Horigin.
    cbv zeta in Hcovers. destruct (take 20 _) as [|a l] eqn:Hl.
    + split; [|done]. split; [|intros _; apply list_elem_of_here].
      intros _ k e Hk. destruct (decide (0 < ap_size e)) as [He|]; [|lia].
      destruct (Hcovers (formatApplication (k, e))
                  ltac:(apply elem_of_formatted; eauto) He) as [Hin|[Hlen _]];
        [by apply elem_of_nil in Hin|done].
    + assert (placeholderApplication ∉ a :: l) as Hnot.
      { intros [Hin _]%Horigin.
        by apply elem_of_formatted in Hin as (k & e & _ & Heq). }
      split; [|done]. split; [done|]. intros Hnone.
      destruct (Horigin a ltac:(apply list_elem_of_here)) as [Hin Ha].
      apply elem_of_formatted in Hin as (k & e & Hk & ->).
      apply Hnone in Hk. simpl in Ha. lia.
Qed.

(* ===================================================================== *)
(** * Names and descriptions *)
(* ===================================================================== *)

Lemma of_list_nonempty l : l ≠ [] → Str.of_list l ≠ "".
Proof. by destruct l. Qed.

Lemma truthy_of_list l : l ≠ [] → JsObj.truthy (JsObj.Str (Str.of_list l)) = true.
Proof.
  intros Hl. simpl. apply negb_true_iff, bool_decide_eq_false.
  by apply of_list_nonempty.
Qed.

(** What a table of strings that are not empty gives is never falsy. *)
Lemma table_get_truthy tbl k v :
  Forall (λ kv, snd kv ≠ "") tbl →
  JsObj.table_get tbl k = Some v → JsObj.truthy v = true.
Proof.
  intros Htbl. unfold JsObj.table_get.
  destruct (JsObj.assoc tbl k) as [d|] eqn:Hd.
  - intros [= <-]. simpl. apply negb_true_iff, bool_decide_eq_false.
    induction Htbl as [|[k' d'] tbl Hkv _ IH]; [done|].
    simpl in Hd. case_decide; [by injection Hd as <-|auto].
  - destruct (JsObj.inherited k); [by intros [= <-]|done].
Qed.

Lemma systemFolderNames_filled : Forall (λ kv, snd kv ≠ "") systemFolderNames.
Proof. unfold systemFolderNames. repeat constructor; discriminate. Qed.

Lemma descriptions_filled : Forall (λ kv, snd kv ≠ "") descriptions.
Proof. unfold descriptions. repeat constructor; discriminate. Qed.

Lemma after_first_match_elem pred parts part :
  after_first_match pred parts = Some part → part ∈ parts.
Proof.
  induction parts as [|p rest IH]; simpl; [done|].
  destruct (pred p).
  - destruct rest as [|q rest']; simpl; [done|]. intros [= <-]. set_solver.
  - intros H. apply list_elem_of_further. by apply IH.
Qed.

(** [getFolderName] never gives a name that is falsy. *)
Lemma getFolderName_truthy folderPath : JsObj.truthy (getFolderName folderPath) = true.
Proof.
  unfold getFolderName. case_decide; [done|].
  set (parts := filter _ _).
  assert (∀ part, part ∈ parts → part ≠ []) as Hparts.
  { intros part Hin. by apply list_elem_of_filter in Hin as [? _]. }
  destruct (last parts) as [folderName|] eqn:Hlast; [|done].
  apply last_Some_elem_of in Hlast.
  destruct (JsObj.table_get _ _) as [friendly|] eqn:Hget.
  { eapply table_get_truthy; [apply systemFolderNames_filled|exact Hget]. }
  destruct (Str.includes _ _); [|by apply truthy_of_list, Hparts].
  destruct (after_first_match _ _) as [program|] eqn:Hprog;
    [|by apply truthy_of_list, Hparts].
  apply truthy_of_list, Hparts. by eapply after_first_match_elem.
Qed.

Lemma append_nonempty (s t : string) : t ≠ "" → s +:+ t ≠ "".
Proof. intros Ht. destruct s; [done|discriminate]. Qed.

(** Nor does [getFileDescription] give an empty description. *)
Lemma getFileDescription_truthy extension :
  JsObj.truthy (getFileDescription extension) = true.
Proof.
  unfold getFileDescription.
  destruct (JsObj.table_get _ _) as [d|] eqn:Hget.
  { eapply table_get_truthy; [apply descriptions_filled|exact Hget]. }
  simpl. apply negb_true_iff, bool_decide_eq_false. by apply append_nonempty.
Qed.

Lemma fileExtension_nonempty name : fileExtension name ≠ "".
Proof. unfold fileExtension. cbv zeta. by case_decide. Qed.

Lemma startScan_extensions stops root taskId p tasks k e :
  fileTypes (w_stats (startScan stops root taskId p tasks)) !! k = Some e → k ≠ "".
Proof.
  revert k e.
  apply (startScan_stats (λ st, ∀ k e, fileTypes st !! k = Some e → k ≠ "")).
  - by intros st H.
  - by intros fullPath st H.
  - intros drivePath fullPath name size st H. unfold recordFile. cbn.
    apply (credit_entries (λ k _, k ≠ "")); [exact H| |done].
    intros _. apply fileExtension_nonempty.
  - intros k e H. cbn in H. by rewrite lookup_empty in H.
Qed.

(** X10 — Whatever the tree, the request and the stop requests, every entry
    of the aggregator of a scan sits under the key its fields announce:
    a folder entry under its path, with the name [getFolderName] gives
    for it, which is never falsy; a file-type entry under its name,
    which is not empty, with the description [getFileDescription] gives
    for it, which is not empty either; an application entry under its
    name.  So [formatScanResults] never falls back on the key for a name
    or a description, and drops no folder for want of a name. *)
Theorem scan_entries_are_well_formed stops root taskId p tasks :
  let st := w_stats (startScan stops root taskId p tasks) in
  (∀ k e, folders st !! k = Some e →
     fo_path e = k ∧ fo_name e = getFolderName k
     ∧ JsObj.truthy (fo_name e) = true
     ∧ formatFolder (k, e)
       = {| si_name := getFolderName k; si_path := Some k; si_size := fo_size e |})
  ∧ (∀ k e, fileTypes st !! k = Some e →
       ft_name e = k ∧ k ≠ "" ∧ ft_description e = getFileDescription k
       ∧ formatFileType (k, e)
         = {| ti_name := k; ti_type := k;
              ti_description := getFileDescription k;
              ti_count := ft_count e; ti_size := ft_size e |})
  ∧ (∀ k e, applications st !! k = Some e → ap_name e = k).
Proof.
  intros st.
  destruct (startScan_wellKeyed stops root taskId p tasks)
    as (Hfolders & Htypes & Happs).
  fold st in Hfolders, Htypes, Happs.
  split; [|split; [|exact Happs]].
  - intros k e Hk. destruct (Hfolders k e Hk) as [Hpath Hname].
    split; [done|]. split; [done|]. split.
    + rewrite Hname. apply getFolderName_truthy.
    + simpl. by rewrite Hpath, Hname.
  - intros k e Hk. destruct (Htypes k e Hk) as [Hname Hdesc].
    pose proof (startScan_extensions stops root taskId p tasks k e Hk) as Hne.
    split; [done|]. split; [done|]. split; [done|].
    simpl. rewrite Hname, Hdesc, getFileDescription_truthy.
    by rewrite decide_False.
Qed.

Lemma includes_list_spec p l :
  Str.includes_list p l = true ↔ ∃ x z, l = x ++ p ++ z.
Proof.
  induction l as [|c l IH]; simpl.
  - rewrite orb_false_r, starts_with_spec. split.
    + intros [z Hz]. by exists [], z.
    + intros (x & z & H). destruct x; [by exists z|done].
  - rewrite orb_true_iff, starts_with_spec, IH. split.
    + intros [[z Hz]|(x & z & Hl)]; [by exists [], z|].
      exists (c :: x), z. simpl. by rewrite Hl.
    + intros ([|c' x] & z & H); [left; by exists z|].
      right. injection H as -> ->. by exists x, z.
Qed.

Lemma to_list_toLowerCase s :
  Str.to_list (Str.toLowerCase s) = map Str.lower_char (Str.to_list s).
Proof. unfold Str.toLowerCase. apply to_list_of_list. Qed.

Lemma to_list_absolutePath segs : Str.to_list (absolutePath segs) = absoluteList segs.
Proof. apply to_list_of_list. Qed.

(** The parts [getFolderName] cuts a path in normal form into are its
    segments. *)
Lemma parts_absolutePath segs :
  Forall validSegment segs →
  filter (λ part, part ≠ [])
    (Str.split_on Path.sep (Str.to_list (absolutePath segs))) = segs.
Proof.
  intros Hsegs. rewrite to_list_absolutePath. unfold Path.sep.
  destruct segs as [|s segs]; [reflexivity|].
  unfold absoluteList. rewrite split_on_segments by by apply validSegment_no_slash.
  rewrite filter_cons, decide_False by (by intros H).
  induction Hsegs as [|s' segs' [Hne _] _ IH]; [done|].
  by rewrite filter_cons, decide_True, IH.
Qed.

(** X11 — The folder at the end of a path in normal form is called by its
    last segment, unless that segment is one of the system folders (or
    the name of an inherited property) or the path runs through a
    [Program Files] folder. *)
Theorem getFolderName_last_segment segs s :
  Forall validSegment (segs ++ [s]) →
  JsObj.table_get systemFolderNames (Str.of_list s) = None →
  Str.includes (Str.toLowerCase (absolutePath (segs ++ [s]))) "program files" = false →
  getFolderName (absolutePath (segs ++ [s])) = JsObj.Str (Str.of_list s).
Proof.
  intros Hsegs Htable Hpf. unfold getFolderName.
  rewrite decide_False by apply absolutePath_not_empty.
  rewrite parts_absolutePath by done. rewrite last_snoc, Htable, Hpf. done.
Qed.

Lemma getFolderName_last_segment_witness :
  getFolderName (absolutePath ([Str.to_list "data"] ++ [Str.to_list "sub"]))
  = JsObj.Str (Str.of_list (Str.to_list "sub")).
Proof.
  refine (getFolderName_last_segment [Str.to_list "data"] (Str.to_list "sub") _ _ _).
  - unfold validSegment. vm_compute.
    repeat constructor; try discriminate; intros H;
      repeat (apply elem_of_cons in H as [H|H]; [discriminate H|]);
      by apply elem_of_nil in H.
  - reflexivity.
  - reflexivity.
Defined.

(** X12 — The table of system folders is read before anything else: a folder
    whose last segment is one of its keys gets the name the table gives,
    wherever it lies, and a folder whose last segment is the name of a
    property every object inherits ([constructor], [toString], ...) gets
    that built-in for a name, which is no string. *)
Theorem getFolderName_reads_the_table_first segs s friendly :
  Forall validSegment (segs ++ [s]) →
  JsObj.table_get systemFolderNames (Str.of_list s) = Some friendly →
  getFolderName (absolutePath (segs ++ [s])) = friendly.
Proof.
  intros Hsegs Htable. unfold getFolderName.
  rewrite decide_False by apply absolutePath_not_empty.
  rewrite parts_absolutePath by done. by rewrite last_snoc, Htable.
Qed.

Lemma getFolderName_reads_the_table_first_witness :
  getFolderName
    (absolutePath ([Str.to_list "Program Files"; Str.to_list "Foo"]
                   ++ [Str.to_list "constructor"]))
  = JsObj.Builtin "constructor".
Proof.
  refine (getFolderName_reads_the_table_first
            [Str.to_list "Program Files"; Str.to_list "Foo"]
            (Str.to_list "constructor") (JsObj.Builtin "constructor") _ _).
  - unfold validSegment. vm_compute.
    repeat constructor; try discriminate; intros H;
      repeat (apply elem_of_cons in H as [H|H]; [discriminate H|]);
      by apply elem_of_nil in H.
  - reflexivity.
Defined.

Lemma after_first_match_app pred A pf prog B :
  Forall (λ a, pred a = false) A → pred pf = true →
  after_first_match pred (A ++ pf :: prog :: B) = Some prog.
Proof.
  intros HA Hpf. induction HA as [|a A Ha _ IH]; simpl.
  - by rewrite Hpf.
  - by rewrite Ha.
Qed.

Lemma absoluteList_middle A s B :
  absoluteList (A ++ s :: B)
  = flat_map (λ s, Path.slash :: s) A ++ Path.slash :: s
    ++ flat_map (λ s, Path.slash :: s) B.
Proof.
  unfold absoluteList. destruct (A ++ s :: B) eqn:H; [by destruct A|].
  rewrite <-H, flat_map_app. reflexivity.
Qed.

(** A path through a part that holds [program files] holds it too. *)
Lemma includes_program_files A pf B :
  inProgramFiles pf = true →
  Str.includes (Str.toLowerCase (absolutePath (A ++ pf :: B))) "program files" = true.
Proof.
  intros (x & z & Hpf)%includes_list_spec. unfold Str.includes.
  rewrite to_list_toLowerCase, to_list_absolutePath, absoluteList_middle.
  rewrite map_app. simpl. rewrite map_app, Hpf.
  apply includes_list_spec.
  exists (map Str.lower_char (flat_map (λ s, Path.slash :: s) A)
          ++ Str.lower_char Path.slash :: x),
    (z ++ map Str.lower_char (flat_map (λ s, Path.slash :: s) B)).
  unfold program_files. by rewrite <-!app_assoc.
Qed.

(** X13 — Below the first folder of a path whose name holds [program files],
    every folder is called like the folder right after that one (the
    program), however deep it lies, unless its own name is one of the
    system folders or the name of an inherited property. *)
Theorem getFolderName_program_files A pf prog B :
  Forall validSegment (A ++ pf :: prog :: B) →
  Forall (λ a, inProgramFiles a = false) A → inProgramFiles pf = true →
  (∀ folder, last (prog :: B) = Some folder →
             JsObj.table_get systemFolderNames (Str.of_list folder) = None) →
  getFolderName (absolutePath (A ++ pf :: prog :: B)) = JsObj.Str (Str.of_list prog).
Proof.
  intros Hsegs HA Hpf Htable. unfold getFolderName.
  rewrite decide_False by apply absolutePath_not_empty.
  rewrite parts_absolutePath by done.
  assert (∃ folder, last (prog :: B) = Some folder) as [folder Hlast].
  { destruct (last (prog :: B)) eqn:H; [eauto|]. by apply last_None in H. }
  assert (last (A ++ pf :: prog :: B) = Some folder) as ->.
  { rewrite last_app, last_cons, Hlast. done. }
  rewrite (Htable folder Hlast), includes_program_files by done.
  by rewrite (after_first_match_app inProgramFiles).
Qed.

Lemma getFolderName_program_files_witness :
  getFolderName
    (absolutePath ([Str.to_list "mnt"] ++ Str.to_list "Program Files"
                   :: Str.to_list "Foo" :: [Str.to_list "bin"; Str.to_list "x64"]))
  = JsObj.Str (Str.of_list (Str.to_list "Foo")).
Proof.
  refine (getFolderName_program_files [Str.to_list "mnt"]
            (Str.to_list "Program Files") (Str.to_list "Foo")
            [Str.to_list "bin"; Str.to_list "x64"] _ _ _ _).
  - unfold validSegment. vm_compute.
    repeat constructor; try discriminate; intros H;
      repeat (apply elem_of_cons in H as [H|H]; [discriminate H|]);
      by apply elem_of_nil in H.
  - repeat constructor.
  - reflexivity.
  - intros folder [= <-]. reflexivity.
Defined.

(* ===================================================================== *)
(** * The extension of a file name *)
(* ===================================================================== *)

Lemma drop_slashes_none r : Path.slash ∉ r → Path.drop_slashes r = r.
Proof.
  destruct r as [|c r]; [done|]. intros Hr. simpl.
  rewrite decide_False; [done|]. set_solver.
Qed.

(** A name as [readdirSync] gives it is its own last component. *)
Lemma last_component_name l : Path.slash ∉ l → Path.last_component l = l.
Proof.
  intros Hl. unfold Path.last_component.
  rewrite drop_slashes_none, take_component_last by by apply not_elem_of_rev.
  apply rev_involutive.
Qed.

Lemma split_last_dot_none l : Path.dot ∉ l → Path.split_last_dot l = None.
Proof.
  induction l as [|c l IH]; [done|]. intros Hl. simpl.
  rewrite IH by set_solver. rewrite decide_False; [done|]. set_solver.
Qed.

Lemma split_last_dot_app stem ext :
  Path.dot ∉ ext →
  Path.split_last_dot (stem ++ Path.dot :: ext) = Some (stem, Path.dot :: ext).
Proof.
  intros Hext. induction stem as [|c stem IH]; simpl.
  - rewrite split_last_dot_none by done. by rewrite ?decide_True.
  - by rewrite IH.
Qed.

Lemma extname_list_dotted stem ext :
  stem ≠ [] → ext ≠ [] → Path.dot ∉ ext → Path.slash ∉ stem ++ ext →
  Path.extname_list (stem ++ Path.dot :: ext) = Path.dot :: ext.
Proof.
  intros Hstem Hext Hdot Hslash. unfold Path.extname_list.
  rewrite last_component_name.
  - rewrite split_last_dot_app by done. destruct stem as [|c stem]; [done|].
    rewrite decide_False; [done|].
    destruct stem, ext; try done; simpl; intros [= ]; by destruct stem.
  - rewrite not_elem_of_app, not_elem_of_cons. apply not_elem_of_app in Hslash.
    split; [tauto|]. split; [done|tauto].
Qed.

(** X14 — The extension of [stem.ext], with [ext] made of ASCII
    characters, is [ext] in lower case: what follows the last dot, when
    that dot is not the first character of the name and something
    follows it. *)
Theorem fileExtension_of_dotted_name stem ext :
  stem ≠ [] → ext ≠ [] → Path.dot ∉ ext → Path.slash ∉ stem ++ ext →
  forallb asciiChar ext = true →
  fileExtension (Str.of_list (stem ++ Path.dot :: ext))
  = Str.of_list (map Str.lower_char ext).
Proof.
  intros Hstem Hext Hdot Hslash _. unfold fileExtension, Path.extname.
  rewrite to_list_of_list, extname_list_dotted by done.
  unfold Str.toLowerCase. rewrite to_list_of_list. cbv zeta.
  change (Str.of_list (map Str.lower_char (Path.dot :: ext)))
    with (String Path.dot (Str.of_list (map Str.lower_char ext))).
  cbv beta iota. rewrite (decide_True (P := Path.dot = Path.dot)) by done.
  rewrite decide_False; [done|]. apply of_list_nonempty. by destruct ext.
Qed.

Lemma fileExtension_of_dotted_name_witness :
  fileExtension (Str.of_list (Str.to_list "archive.tar" ++ Path.dot :: Str.to_list "GZ"))
  = Str.of_list (map Str.lower_char (Str.to_list "GZ")).
Proof.
  refine (fileExtension_of_dotted_name (Str.to_list "archive.tar") (Str.to_list "GZ")
            _ _ _ _ _).
  - discriminate.
  - discriminate.
  - vm_compute. intros H.
    repeat (apply elem_of_cons in H as [H|H]; [discriminate H|]);
      by apply elem_of_nil in H.
  - vm_compute. intros H.
    repeat (apply elem_of_cons in H as [H|H]; [discriminate H|]);
      by apply elem_of_nil in H.
  - vm_compute. reflexivity.
Defined.

(** X15 — A name without a dot, and a name whose only dot is its first
    character (a hidden file), have no extension: they are counted
    under the sentinel [无扩展名]. *)
Theorem fileExtension_of_plain_name rest :
  Path.dot ∉ rest → Path.slash ∉ rest →
  fileExtension (Str.of_list rest) = noExtension
  ∧ fileExtension (Str.of_list (Path.dot :: rest)) = noExtension.
Proof.
  intros Hdot Hslash. unfold fileExtension, Path.extname, Path.extname_list.
  rewrite !to_list_of_list. split.
  - rewrite last_component_name, split_last_dot_none by done. reflexivity.
  - rewrite last_component_name.
    + simpl. rewrite split_last_dot_none by done. by rewrite decide_True.
    + rewrite not_elem_of_cons. split; [done|done].
Qed.

Lemma fileExtension_of_plain_name_witness :
  fileExtension (Str.of_list (Str.to_list "bashrc")) = noExtension
  ∧ fileExtension (Str.of_list (Path.dot :: Str.to_list "bashrc")) = noExtension.
Proof.
  refine (fileExtension_of_plain_name (Str.to_list "bashrc") _ _).
  - vm_compute. intros H.
    repeat (apply elem_of_cons in H as [H|H]; [discriminate H|]);
      by apply elem_of_nil in H.
  - vm_compute. intros H.
    repeat (apply elem_of_cons in H as [H|H]; [discriminate H|]);
      by apply elem_of_nil in H.
Defined.

(* ===================================================================== *)
(** * Applications of the same name *)
(* ===================================================================== *)

Section merging.
Variable drivePath : string.

Lemma creditApplication_lookup fullPath extension size m appName :
  JsObj.inherited appName = false →
  creditApplication fullPath extension size m !! appName
  = if (isExecutable extension || isInAppDirectory fullPath)
       && bool_decide (applicationName fullPath extension = appName)
    then Some (addApplicationSize size
                 (default (newApplication appName fullPath) (m !! appName)))
    else m !! appName.
Proof.
  intros Hname. unfold creditApplication.
  destruct (isExecutable extension || isInAppDirectory fullPath); [|done].
  simpl. unfold JsObj.update. case_bool_decide as Heq.
  - rewrite Heq. by rewrite lookup_alter_eq, ensure_lookup.
  - rewrite lookup_alter_ne by done. by rewrite ensure_lookup_ne.
Qed.

Lemma creditApplication_inherited fullPath extension size m appName :
  JsObj.inherited appName = true → m !! appName = None →
  creditApplication fullPath extension size m !! appName = None.
Proof.
  intros Hname Hm. unfold creditApplication.
  destruct (isExecutable extension || isInAppDirectory fullPath); [|done].
  unfold JsObj.update.
  destruct (decide (applicationName fullPath extension = appName)) as [Heq|Hne].
  - rewrite Heq, lookup_alter_eq. unfold JsObj.ensure, JsObj.truthy_at.
    by rewrite Hname, orb_true_r, Hm.
  - rewrite lookup_alter_ne by done. by rewrite ensure_lookup_ne.
Qed.

Lemma recordVisits_no_inherited_application vs st appName :
  JsObj.inherited appName = true → applications st !! appName = None →
  applications (recordVisits drivePath vs st) !! appName = None.
Proof.
  intros Hname. revert st. induction vs as [|v vs IH]; intros st Hst; [done|].
  unfold recordVisits in *. simpl fold_left. apply IH.
  destruct v as [q|q name size|]; simpl; try done.
  by apply creditApplication_inherited.
Qed.

Lemma recordVisits_application vs st appName :
  JsObj.inherited appName = false →
  applications (recordVisits drivePath vs st) !! appName
  = match creditsOf appName vs with
    | [] => applications st !! appName
    | (fullPath, _) :: _ =>
        Some (grow (creditsOf appName vs)
                (default (newApplication appName fullPath)
                   (applications st !! appName)))
    end.
Proof.
  intros Hname. revert st. induction vs as [|v vs IH]; intros st; [done|].
  unfold recordVisits in *. simpl fold_left. rewrite IH. clear IH.
  unfold creditsOf. simpl flat_map. fold (creditsOf appName vs).
  destruct v as [q|q name size|]; try done. cbn [recordVisit].
  assert (applications (recordFile drivePath q name size st)
          = creditApplication q (fileExtension name) size (applications st))
    as -> by done.
  rewrite creditApplication_lookup by done. cbv zeta.
  destruct ((isExecutable (fileExtension name) || isInAppDirectory q)
            && bool_decide (applicationName q (fileExtension name) = appName));
    [|done].
  change ([(q, size)] ++ creditsOf appName vs)
    with ((q, size) :: creditsOf appName vs).
  cbv iota. by destruct (creditsOf appName vs) as [|[q' size'] credits].
Qed.

Lemma grow_sums credits appName fullPath size :
  grow credits {| ap_name := appName; ap_path := fullPath; ap_size := size |}
  = {| ap_name := appName; ap_path := fullPath;
       ap_size := size + sumZ (map snd credits) |}.
Proof.
  revert size. induction credits as [|[q s] credits IH]; intros size; simpl.
  - f_equal. lia.
  - unfold addApplicationSize at 1. simpl.
    fold (grow credits {| ap_name := appName; ap_path := fullPath;
                          ap_size := size + s |}).
    rewrite IH. f_equal. lia.
Qed.
End merging.

(** X16 — When a scan completes, the files it counted as applications are
    merged by derived name, wherever they lie: the entry of a name that
    is not an inherited property sums the sizes of all of them and keeps
    the path of the first one the walk met.  The names and the paths of
    the files read are ASCII, and their sizes are in the range where the
    scanner adds without rounding: none negative, their sum below 2^53. *)
Theorem applications_merge_by_name
    stops root taskId p tasks drivePath n result appName :
  p_drivePath p = Some drivePath → drivePath ≠ "" → root drivePath = Some n →
  asciiNames (visits (default 2 (p_scanDepth p)) drivePath 1 n) = true →
  asciiPaths (visits (default 2 (p_scanDepth p)) drivePath 1 n) = true →
  exactSizes (filesRead (visits (default 2 (p_scanDepth p)) drivePath 1 n)) = true →
  Sent (scan_complete taskId result) ∈ w_log (startScan stops root taskId p tasks) →
  let credits :=
    creditsOf appName (visits (default 2 (p_scanDepth p)) drivePath 1 n) in
  applications (w_stats (startScan stops root taskId p tasks)) !! appName
  = if JsObj.inherited appName then None
    else match credits with
         | [] => None
         | (fullPath, _) :: _ =>
             Some {| ap_name := appName; ap_path := fullPath;
                     ap_size := sumZ (map snd credits) |}
         end.
Proof.
  intros Hp Hne Hroot _ _ _ Hdone credits.
  destruct (completed_scan stops taskId root p tasks drivePath n Hp Hne Hroot
              result Hdone) as [-> _].
  destruct (JsObj.inherited appName) eqn:Hname.
  - by apply recordVisits_no_inherited_application.
  - rewrite recordVisits_application by done. fold credits.
    destruct credits as [|[fullPath size] credits']; [done|].
    cbn [applications scanStats]. rewrite lookup_empty. simpl default.
    unfold newApplication. rewrite grow_sums. f_equal.
Qed.

Lemma applications_merge_by_name_witness :
  applications (w_stats (startScan never (mounted "/data" twoInstallers) "17"
                           (request "/data") ∅)) !! "setup"
  = if JsObj.inherited "setup" then None
    else match creditsOf "setup"
                 (visits (default 2 (p_scanDepth (request "/data")))
                    "/data" 1 twoInstallers) with
         | [] => None
         | (fullPath, _) :: _ =>
             Some {| ap_name := "setup"; ap_path := fullPath;
                     ap_size :=
                       sumZ (map snd
                               (creditsOf "setup"
                                  (visits (default 2 (p_scanDepth (request "/data")))
                                     "/data" 1 twoInstallers))) |}
         end.
Proof.
  refine (applications_merge_by_name never (mounted "/data" twoInstallers) "17"
            (request "/data") ∅ "/data" twoInstallers
            (formatScanResults
               (w_stats (startScan never (mounted "/data" twoInstallers) "17"
                           (request "/data") ∅)))
            "setup" _ _ _ _ _ _ _).
  - reflexivity.
  - discriminate.
  - reflexivity.
  - vm_compute. reflexivity.
  - vm_compute. reflexivity.
  - vm_compute. reflexivity.
  - vm_compute. do 2 apply list_elem_of_further. apply list_elem_of_here.
Defined.

(* ===================================================================== *)
(** * Connections: closing, stopping, and ids used twice *)
(* ===================================================================== *)

Section server.
Import Server.

Lemma owner_abort ref σ r : owner (abort ref σ) r = owner σ r.
Proof.
  unfold owner, abort. simpl. destruct (decide (ref = r)) as [->|Hne].
  - rewrite list_lookup_alter_eq. by destruct (objects σ !! r).
  - by rewrite list_lookup_alter_ne.
Qed.

Lemma aborted_abort ref σ r :
  aborted (abort ref σ) r
  = if decide (r = ref ∧ is_Some (objects σ !! ref)) then true else aborted σ r.
Proof.
  unfold aborted, abort. simpl. destruct (decide (ref = r)) as [->|Hne].
  - rewrite list_lookup_alter_eq. destruct (objects σ !! r) as [t|] eqn:Ht; simpl.
    + rewrite decide_True; [done|]. split; [done|by eexists].
    + rewrite decide_False; [done|]. intros [_ [t Ht']]. done.
  - rewrite list_lookup_alter_ne by done.
    rewrite decide_False; [done|]. intros [-> _]. done.
Qed.

Lemma owner_is_Some σ ref ws : owner σ ref = Some ws → is_Some (objects σ !! ref).
Proof. unfold owner. destruct (objects σ !! ref); [by eexists|done]. Qed.

(** What the loop of the [close] handler has done after the entries
    [m] of the table. *)
Lemma onClose_spec ws σ :
  outbox (onClose ws σ) = outbox σ
  ∧ length (objects (onClose ws σ)) = length (objects σ)
  ∧ (∀ r, owner (onClose ws σ) r = owner σ r)
  ∧ (∀ r, aborted (onClose ws σ) r = true
          ↔ aborted σ r = true ∨ (owner σ r = Some ws ∧ listed σ r))
  ∧ (∀ k, scanTasks (onClose ws σ) !! k
          = match scanTasks σ !! k with
            | Some r => if decide (owner σ r = Some ws) then None else Some r
            | None => None
            end).
Proof.
  unfold onClose, listed.
  assert (∀ m σ',
    σ' = map_fold (closeTask ws) σ m →
    outbox σ' = outbox σ
    ∧ length (objects σ') = length (objects σ)
    ∧ (∀ r, owner σ' r = owner σ r)
    ∧ (∀ r, aborted σ' r = true
            ↔ aborted σ r = true ∨ (owner σ r = Some ws ∧ ∃ k, m !! k = Some r))
    ∧ (∀ k, scanTasks σ' !! k
            = match m !! k with
              | Some r => if decide (owner σ r = Some ws) then None
                          else scanTasks σ !! k
              | None => scanTasks σ !! k
              end)) as H.
  { intros m σ' ->.
    apply (map_fold_weak_ind (λ σ' m,
      outbox σ' = outbox σ
      ∧ length (objects σ') = length (objects σ)
      ∧ (∀ r, owner σ' r = owner σ r)
      ∧ (∀ r, aborted σ' r = true
              ↔ aborted σ r = true ∨ (owner σ r = Some ws ∧ ∃ k, m !! k = Some r))
      ∧ (∀ k, scanTasks σ' !! k
              = match m !! k with
                | Some r => if decide (owner σ r = Some ws) then None
                            else scanTasks σ !! k
                | None => scanTasks σ !! k
                end))); clear m.
    - repeat split; try done.
      + intros H. by left.
      + intros [H|[_ [k Hk]]]; [done|]. by rewrite lookup_empty in Hk.
    - intros i x m σ' Hi (Hout & Hlen & Hown & Hab & Htab).
      unfold closeTask. rewrite Hown.
      destruct (decide (owner σ x = Some ws)) as [Hx|Hx].
      + split; [done|]. split; [simpl; by rewrite length_alter|].
        split; [intros r; simpl; by rewrite <-Hown, <-(owner_abort x σ' r)|].
        split.
        * intros r.
          change (aborted (unregister i (abort x σ')) r)
            with (aborted (abort x σ') r).
          rewrite aborted_abort. case_decide as Hr.
          -- destruct Hr as [-> _]. split; [|done]. intros _. right.
             split; [done|]. exists i. apply lookup_insert_eq.
          -- rewrite Hab. split.
             ++ intros [H|[Hr' [k Hk]]]; [by left|]. right. split; [done|].
                exists k. destruct (decide (i = k)) as [->|Hne]; [congruence|].
                by rewrite lookup_insert_ne.
             ++ intros [H|[Hr' [k Hk]]]; [by left|].
                destruct (decide (i = k)) as [->|Hne].
                ** rewrite lookup_insert_eq in Hk. injection Hk as <-.
                   exfalso. apply Hr. split; [done|].
                   rewrite <-Hown in Hx. by eapply owner_is_Some.
                ** rewrite lookup_insert_ne in Hk by done. right. eauto.
        * intros k. simpl. destruct (decide (i = k)) as [->|Hne].
          -- rewrite lookup_delete_eq, lookup_insert_eq. by rewrite decide_True.
          -- rewrite lookup_delete_ne, lookup_insert_ne by done. apply Htab.
      + split; [done|]. split; [done|]. split; [done|]. split.
        * intros r. rewrite Hab. split.
          -- intros [H|[Hr' [k Hk]]]; [by left|]. right. split; [done|].
             exists k. destruct (decide (i = k)) as [->|Hne]; [congruence|].
             by rewrite lookup_insert_ne.
          -- intros [H|[Hr' [k Hk]]]; [by left|].
             destruct (decide (i = k)) as [->|Hne].
             ** rewrite lookup_insert_eq in Hk. by injection Hk as <-.
             ** rewrite lookup_insert_ne in Hk by done. right. eauto.
        * intros k. destruct (decide (i = k)) as [->|Hne].
          -- rewrite lookup_insert_eq, decide_False by done.
             rewrite Htab, Hi. done.
          -- rewrite lookup_insert_ne by done. apply Htab. }
  destruct (H (scanTasks σ) _ eq_refl) as (Hout & Hlen & Hown & Hab & Htab).
  repeat split; try done; try apply Hab.
  intros k. rewrite Htab. destruct (scanTasks σ !! k) as [r|]; [|done].
  by case_decide.
Qed.
End server.

(** X17 — When a connection closes, every task of that connection that is in
    the table is aborted and leaves the table; the tasks of the other
    connections keep their entries and their flags; and nothing is sent,
    not even [scan_stopped]. *)
Theorem close_aborts_the_tasks_of_the_connection ws σ :
  let σ' := Server.onClose ws σ in
  (∀ taskId,
     Server.scanTasks σ' !! taskId
     = match Server.scanTasks σ !! taskId with
       | Some ref =>
           if decide (Server.owner σ ref = Some ws) then None else Some ref
       | None => None
       end)
  ∧ (∀ ref,
       Server.aborted σ' ref = true
       ↔ Server.aborted σ ref = true
         ∨ (Server.owner σ ref = Some ws ∧ Server.listed σ ref))
  ∧ (∀ ref, Server.owner σ' ref = Server.owner σ ref)
  ∧ Server.outbox σ' = Server.outbox σ.
Proof.
  intros σ'. destruct (onClose_spec ws σ) as (Hout & _ & Hown & Hab & Htab).
  by repeat split; try apply Hab.
Qed.

Section reach.
Import Server.

Lemma startScan_accepted ws p taskId σ :
  accepted p →
  ∃ task,
    t_ws task = ws ∧ t_abort task = false
    ∧ startScan ws p taskId true σ
      = send ws (scan_started taskId)
          {| objects := objects σ ++ [task];
             scanTasks := <[taskId := length (objects σ)]> (scanTasks σ);
             outbox := outbox σ |}.
Proof.
  intros (drivePath & Hp & Hne). unfold startScan. rewrite Hp.
  rewrite bool_decide_eq_false_2 by done. simpl.
  by exists {| t_ws := ws; t_drivePath := drivePath;
               t_scanDepth := default 2 (p_scanDepth p); t_abort := false |}.
Qed.

Lemma startScan_cases ws p taskId found σ :
  (∃ m, startScan ws p taskId found σ = send ws m σ)
  ∨ (∃ task,
       t_abort task = false
       ∧ startScan ws p taskId found σ
         = send ws (scan_started taskId)
             {| objects := objects σ ++ [task];
                scanTasks := <[taskId := length (objects σ)]> (scanTasks σ);
                outbox := outbox σ |}).
Proof.
  unfold startScan. destruct (p_drivePath p) as [drivePath|]; [|left; eauto].
  destruct (bool_decide (drivePath = "") || negb found); [left; eauto|].
  right.
  by exists {| t_ws := ws; t_drivePath := drivePath;
               t_scanDepth := default 2 (p_scanDepth p); t_abort := false |}.
Qed.

Lemma sound_stopScan taskId σ : sound σ → sound (stopScan taskId σ).
Proof.
  intros Hσ. unfold stopScan.
  destruct (scanTasks σ !! taskId) as [ref|]; [|done].
  destruct (owner σ ref); [|done].
  intros k r. simpl. rewrite length_alter.
  destruct (decide (taskId = k)) as [->|Hne].
  - by rewrite lookup_delete_eq.
  - rewrite lookup_delete_ne by done. apply Hσ.
Qed.

(** No handler raises the flag of a task object that is out of reach,
    or brings it back into the table. *)
Lemma handle_outOfReach σ s ref : outOfReach σ ref → outOfReach (handle σ s) ref.
Proof.
  intros (Hsound & Hlen & Hlisted & Hflag).
  destruct s as [ws p taskId found|taskId|ws|ref' taskId outcome st]; simpl.
  - destruct (startScan_cases ws p taskId found σ) as [[m ->]|(task & Htask & ->)];
      [done|].
    split; [|split; [|split]].
    + intros k r. simpl. rewrite length_app. simpl.
      destruct (decide (taskId = k)) as [->|Hne].
      * rewrite lookup_insert_eq. intros [= <-]. lia.
      * rewrite lookup_insert_ne by done. intros H%Hsound. lia.
    + simpl. rewrite length_app. simpl. lia.
    + intros [k Hk]. simpl in Hk.
      destruct (decide (taskId = k)) as [->|Hne].
      * rewrite lookup_insert_eq in Hk. injection Hk as <-. lia.
      * rewrite lookup_insert_ne in Hk by done. apply Hlisted. by exists k.
    + unfold aborted in *. simpl. by rewrite lookup_app_l.
  - split; [by apply sound_stopScan|]. unfold stopScan.
    destruct (scanTasks σ !! taskId) as [r|] eqn:Hr; [|done].
    destruct (owner σ r) as [ws|] eqn:Hws; [|done].
    split; [simpl; by rewrite length_alter|]. split.
    + intros [k Hk]. simpl in Hk.
      destruct (decide (taskId = k)) as [->|Hne].
      * by rewrite lookup_delete_eq in Hk.
      * rewrite lookup_delete_ne in Hk by done. apply Hlisted. by exists k.
    + change (aborted (unregister taskId (send ws (scan_stopped taskId) (abort r σ))) ref)
        with (aborted (abort r σ) ref).
      rewrite aborted_abort, decide_False; [done|].
      intros [-> _]. apply Hlisted. by exists taskId.
  - destruct (onClose_spec ws σ) as (Hout & Hlength & Hown & Hab & Htab).
    split; [|split; [|split]].
    + intros k r. rewrite Htab, Hlength.
      destruct (scanTasks σ !! k) as [r'|] eqn:Hk; [|done].
      case_decide; [done|]. intros [= <-]. by eapply Hsound.
    + by rewrite Hlength.
    + intros [k Hk]. rewrite Htab in Hk.
      destruct (scanTasks σ !! k) as [r'|] eqn:Hk'; [|done].
      case_decide; [done|]. injection Hk as <-. apply Hlisted. by exists k.
    + destruct (aborted (onClose ws σ) ref) eqn:H; [|done].
      apply Hab in H as [H|[_ H]]; [congruence|done].
  - unfold onSettled.
    assert (∀ σ', objects σ' = objects σ → scanTasks σ' = scanTasks σ →
                  outOfReach (unregister taskId σ') ref) as H.
    { intros σ' Hobj Htab. split; [|split; [|split]].
      - intros k r. simpl. rewrite Hobj, Htab.
        destruct (decide (taskId = k)) as [->|Hne].
        + by rewrite lookup_delete_eq.
        + rewrite lookup_delete_ne by done. apply Hsound.
      - simpl. by rewrite Hobj.
      - intros [k Hk]. simpl in Hk. rewrite Htab in Hk.
        destruct (decide (taskId = k)) as [->|Hne].
        + by rewrite lookup_delete_eq in Hk.
        + rewrite lookup_delete_ne in Hk by done. apply Hlisted. by exists k.
      - unfold aborted in *. simpl. by rewrite Hobj. }
    destruct (aborted σ ref'); [by apply H|].
    destruct (owner σ ref'); by apply H.
Qed.

Lemma run_outOfReach steps σ ref : outOfReach σ ref → outOfReach (run steps σ) ref.
Proof.
  revert σ. induction steps as [|s steps IH]; intros σ Hσ; [done|].
  simpl. by apply IH, handle_outOfReach.
Qed.

Lemma sound_initial : sound initial.
Proof. intros k r H. simpl in H. by rewrite lookup_empty in H. Qed.
End reach.

(** X18 — Task ids are clock readings, so two scans started in the same
    millisecond get the same id.  The entry of the second then replaces
    the entry of the first, and the first scan is out of reach for
    good: whatever is asked of the server afterwards (stop requests,
    closed connections, more scans, scans that end), its abort flag
    stays down and the table never leads to it. *)
Theorem reused_id_puts_the_first_scan_out_of_reach
    σ ws1 p1 ws2 p2 taskId steps :
  Server.sound σ → accepted p1 → accepted p2 →
  let first := length (Server.objects σ) in
  let σ2 :=
    Server.startScan ws2 p2 taskId true (Server.startScan ws1 p1 taskId true σ) in
  Server.owner σ2 first = Some ws1
  ∧ Server.scanTasks σ2 !! taskId = Some (S first)
  ∧ Server.aborted (Server.run steps σ2) first = false
  ∧ ¬ Server.listed (Server.run steps σ2) first.
Proof.
  intros Hsound Hp1 Hp2 first σ2.
  destruct (startScan_accepted ws1 p1 taskId σ Hp1) as (task1 & Hws1 & Hab1 & Hσ1).
  destruct (startScan_accepted ws2 p2 taskId
              (Server.startScan ws1 p1 taskId true σ) Hp2)
    as (task2 & Hws2 & Hab2 & Hσ2).
  subst σ2. rewrite Hσ2, Hσ1. clear Hσ1 Hσ2.
  set (σ2 := Server.send ws2 _ _).
  assert (Server.objects σ2 = Server.objects σ ++ [task1; task2]) as Hobj.
  { simpl. by rewrite <-app_assoc. }
  assert (Server.scanTasks σ2
          = <[taskId := S first]> (Server.scanTasks σ)) as Htab.
  { simpl. rewrite length_app. simpl. rewrite insert_insert_eq.
    f_equal. unfold first. lia. }
  assert (outOfReach σ2 first) as Hout.
  { split; [|split; [|split]].
    - intros k r. rewrite Htab, Hobj, length_app. simpl.
      destruct (decide (taskId = k)) as [->|Hne].
      + rewrite lookup_insert_eq. intros [= <-]. unfold first. lia.
      + rewrite lookup_insert_ne by done. intros H%Hsound. lia.
    - rewrite Hobj, length_app. simpl. unfold first. lia.
    - intros [k Hk]. rewrite Htab in Hk.
      destruct (decide (taskId = k)) as [->|Hne].
      + rewrite lookup_insert_eq in Hk. injection Hk. lia.
      + rewrite lookup_insert_ne in Hk by done. apply Hsound in Hk.
        unfold first in Hk. lia.
    - unfold Server.aborted. rewrite Hobj.
      rewrite lookup_app_r by (unfold first; lia).
      replace (first - length (Server.objects σ))%nat with 0%nat
        by (unfold first; lia).
      simpl. done. }
  split; [|split].
  - unfold Server.owner. rewrite Hobj.
    rewrite lookup_app_r by (unfold first; lia).
    replace (first - length (Server.objects σ))%nat with 0%nat
      by (unfold first; lia).
    simpl. by rewrite Hws1.
  - rewrite Htab. apply lookup_insert_eq.
  - destruct (run_outOfReach steps σ2 first Hout) as (_ & _ & Hlisted & Hflag).
    done.
Qed.

Lemma reused_id_puts_the_first_scan_out_of_reach_witness :
  Server.owner
    (Server.startScan 2 (request "/data") "17" true
       (Server.startScan 1 (request "/data") "17" true Server.initial))
    (length (Server.objects Server.initial)) = Some 1%nat
  ∧ Server.scanTasks
      (Server.startScan 2 (request "/data") "17" true
         (Server.startScan 1 (request "/data") "17" true Server.initial))
      !! "17" = Some (S (length (Server.objects Server.initial)))
  ∧ Server.aborted
      (Server.run [Server.Stop "17"; Server.Close 1; Server.Close 2]
         (Server.startScan 2 (request "/data") "17" true
            (Server.startScan 1 (request "/data") "17" true Server.initial)))
      (length (Server.objects Server.initial)) = false
  ∧ ¬ Server.listed
        (Server.run [Server.Stop "17"; Server.Close 1; Server.Close 2]
           (Server.startScan 2 (request "/data") "17" true
              (Server.startScan 1 (request "/data") "17" true Server.initial)))
        (length (Server.objects Server.initial)).
Proof.
  refine (reused_id_puts_the_first_scan_out_of_reach Server.initial
            1%nat (request "/data") 2%nat (request "/data") "17"
            [Server.Stop "17"; Server.Close 1; Server.Close 2] _ _ _).
  - apply sound_initial.
  - exists "/data". split; [reflexivity|discriminate].
  - exists "/data". split; [reflexivity|discriminate].
Defined.

Lemma two_scans_one_id σ ws1 p1 ws2 p2 taskId :
  accepted p1 → accepted p2 →
  ∃ task1 task2,
    Server.t_ws task1 = ws1 ∧ Server.t_abort task1 = false
    ∧ Server.t_ws task2 = ws2 ∧ Server.t_abort task2 = false
    ∧ Server.startScan ws2 p2 taskId true (Server.startScan ws1 p1 taskId true σ)
      = {| Server.objects := Server.objects σ ++ [task1; task2];
           Server.scanTasks :=
             <[taskId := S (length (Server.objects σ))]> (Server.scanTasks σ);
           Server.outbox :=
             Server.outbox σ
             ++ [(ws1, scan_started taskId); (ws2, scan_started taskId)] |}.
Proof.
  intros Hp1 Hp2.
  destruct (startScan_accepted ws1 p1 taskId σ Hp1) as (task1 & Hws1 & Hab1 & Hσ1).
  destruct (startScan_accepted ws2 p2 taskId
              (Server.startScan ws1 p1 taskId true σ) Hp2)
    as (task2 & Hws2 & Hab2 & Hσ2).
  exists task1, task2. repeat (split; [done|]).
  rewrite Hσ2, Hσ1. unfold Server.send. simpl.
  rewrite <-!app_assoc, length_app, insert_insert_eq. simpl.
  do 2 f_equal. lia.
Qed.

(** X19 — When the first of two scans that share an id ends, its handler
    removes the table entry, which by then is the entry of the second
    scan: the second scan keeps its owner and goes on, but from then on
    it is out of reach as well. *)
Theorem ending_scan_unregisters_its_namesake
    σ ws1 p1 ws2 p2 taskId outcome st steps :
  Server.sound σ → accepted p1 → accepted p2 →
  let first := length (Server.objects σ) in
  let σ2 :=
    Server.startScan ws2 p2 taskId true (Server.startScan ws1 p1 taskId true σ) in
  let σ3 := Server.onSettled first taskId outcome st σ2 in
  Server.scanTasks σ3 !! taskId = None
  ∧ Server.owner σ3 (S first) = Some ws2
  ∧ Server.aborted (Server.run steps σ3) (S first) = false
  ∧ ¬ Server.listed (Server.run steps σ3) (S first).
Proof.
  intros Hsound Hp1 Hp2 first σ2 σ3.
  destruct (two_scans_one_id σ ws1 p1 ws2 p2 taskId Hp1 Hp2)
    as (task1 & task2 & Hws1 & Hab1 & Hws2 & Hab2 & Hσ2).
  fold σ2 first in Hσ2.
  assert (Server.objects σ3 = Server.objects σ ++ [task1; task2]
          ∧ Server.scanTasks σ3 = delete taskId (Server.scanTasks σ2)) as [Hobj Htab].
  { subst σ3. unfold Server.onSettled.
    destruct (Server.aborted σ2 first); [by rewrite Hσ2|].
    destruct (Server.owner σ2 first); by rewrite Hσ2. }
  assert (Server.objects σ3 !! S first = Some task2) as Hsecond.
  { rewrite Hobj, lookup_app_r by (unfold first; lia).
    by replace (S first - length (Server.objects σ))%nat with 1%nat
      by (unfold first; lia). }
  assert (∀ k, Server.scanTasks σ3 !! k
               = if decide (taskId = k) then None else Server.scanTasks σ !! k)
    as Hlookup.
  { intros k. rewrite Htab, Hσ2. simpl. case_decide as Hk.
    - subst k. apply lookup_delete_eq.
    - by rewrite lookup_delete_ne, lookup_insert_ne. }
  assert (outOfReach σ3 (S first)) as Hout.
  { split; [|split; [|split]].
    - intros k r. rewrite Hlookup, Hobj, length_app. simpl.
      case_decide; [done|]. intros Hr%Hsound. lia.
    - rewrite Hobj, length_app. simpl. unfold first. lia.
    - intros [k Hk]. rewrite Hlookup in Hk. case_decide; [done|].
      apply Hsound in Hk. unfold first in Hk. lia.
    - unfold Server.aborted. by rewrite Hsecond. }
  split; [|split].
  - rewrite Hlookup. by rewrite decide_True.
  - unfold Server.owner. rewrite Hsecond. simpl. by rewrite Hws2.
  - destruct (run_outOfReach steps σ3 (S first) Hout) as (_ & _ & Hlisted & Hflag).
    done.
Qed.

Lemma ending_scan_unregisters_its_namesake_witness :
  Server.scanTasks
    (Server.onSettled (length (Server.objects Server.initial)) "17" Resolved scanStats
       (Server.startScan 2 (request "/data") "17" true
          (Server.startScan 1 (request "/data") "17" true Server.initial)))
    !! "17" = None
  ∧ Server.owner
      (Server.onSettled (length (Server.objects Server.initial)) "17" Resolved
         scanStats
         (Server.startScan 2 (request "/data") "17" true
            (Server.startScan 1 (request "/data") "17" true Server.initial)))
      (S (length (Server.objects Server.initial))) = Some 2%nat
  ∧ Server.aborted
      (Server.run [Server.Stop "17"; Server.Close 2]
         (Server.onSettled (length (Server.objects Server.initial)) "17" Resolved
            scanStats
            (Server.startScan 2 (request "/data") "17" true
               (Server.startScan 1 (request "/data") "17" true Server.initial))))
      (S (length (Server.objects Server.initial))) = false
  ∧ ¬ Server.listed
        (Server.run [Server.Stop "17"; Server.Close 2]
           (Server.onSettled (length (Server.objects Server.initial)) "17" Resolved
              scanStats
              (Server.startScan 2 (request "/data") "17" true
                 (Server.startScan 1 (request "/data") "17" true Server.initial))))
        (S (length (Server.objects Server.initial))).
Proof.
  refine (ending_scan_unregisters_its_namesake Server.initial
            1%nat (request "/data") 2%nat (request "/data") "17" Resolved scanStats
            [Server.Stop "17"; Server.Close 2] _ _ _).
  - apply sound_initial.
  - exists "/data". split; [reflexivity|discriminate].
  - exists "/data". split; [reflexivity|discriminate].
Defined.

Section late.
Import Server.

Lemma stopScan_unlisted taskId σ : scanTasks σ !! taskId = None → stopScan taskId σ = σ.
Proof. intros H. unfold stopScan. by rewrite H. Qed.
End late.

(** X20 — A stop request that comes too late does nothing and is not
    answered: for a task that was already stopped, for a task whose
    connection was closed, and for a task whose scan has ended. *)
Theorem late_stop_is_ignored σ ws taskId ref outcome st :
  Server.scanTasks σ !! taskId = Some ref → Server.owner σ ref = Some ws →
  Server.stopScan taskId (Server.stopScan taskId σ) = Server.stopScan taskId σ
  ∧ Server.stopScan taskId (Server.onClose ws σ) = Server.onClose ws σ
  ∧ Server.stopScan taskId (Server.onSettled ref taskId outcome st σ)
    = Server.onSettled ref taskId outcome st σ.
Proof.
  intros Href Hws. split; [|split]; apply stopScan_unlisted.
  - unfold Server.stopScan. rewrite Href, Hws. simpl. apply lookup_delete_eq.
  - destruct (onClose_spec ws σ) as (_ & _ & _ & _ & Htab).
    rewrite Htab, Href. by rewrite decide_True.
  - unfold Server.onSettled. simpl. apply lookup_delete_eq.
Qed.

Lemma late_stop_is_ignored_witness :
  Server.stopScan "17"
    (Server.stopScan "17" (Server.startScan 1 (request "/data") "17" true Server.initial))
  = Server.stopScan "17" (Server.startScan 1 (request "/data") "17" true Server.initial)
  ∧ Server.stopScan "17"
      (Server.onClose 1 (Server.startScan 1 (request "/data") "17" true Server.initial))
    = Server.onClose 1 (Server.startScan 1 (request "/data") "17" true Server.initial)
  ∧ Server.stopScan "17"
      (Server.onSettled 0 "17" Resolved scanStats
         (Server.startScan 1 (request "/data") "17" true Server.initial))
    = Server.onSettled 0 "17" Resolved scanStats
        (Server.startScan 1 (request "/data") "17" true Server.initial).
Proof.
  refine (late_stop_is_ignored
            (Server.startScan 1 (request "/data") "17" true Server.initial)
            1%nat "17" 0%nat Resolved scanStats _ _).
  - reflexivity.
  - reflexivity.
Defined.

(* ===================================================================== *)
(** * The list of drives *)
(* ===================================================================== *)

Section drives.
Import Drives.

(** The matches of [/[A-Z]:/g] are the places where a capital letter
    is followed by a colon: none is skipped, since no two of them can
    overlap. *)
Lemma elem_of_matchDrives x l :
  x ∈ matchDrives l
  ↔ ∃ c, capital c = true ∧ x = [c; colon] ∧ Str.includes_list x l = true.
Proof.
  assert (∀ n l, (length l ≤ n)%nat →
            x ∈ matchDrives l
            ↔ ∃ c, capital c = true ∧ x = [c; colon]
                   ∧ Str.includes_list x l = true) as H; [|by apply (H (length l))].
  clear l. intros n. induction n as [|n IH]; intros l Hl.
  { destruct l; [|simpl in Hl; lia]. simpl. split; [by intros ?%elem_of_nil|].
    intros (c & _ & -> & H). done. }
  destruct l as [|c [|d r]].
  - simpl. split; [by intros ?%elem_of_nil|]. intros (c & _ & -> & H). done.
  - cbn [matchDrives]. split; [by intros ?%elem_of_nil|]. intros (c' & _ & -> & H).
    apply includes_list_spec in H as (u & v & Hl').
    by destruct u as [|u0 [|u1 u]].
  - simpl in Hl.
    change (matchDrives (c :: d :: r))
      with (if capital c && bool_decide (d = colon)
            then [c; d] :: matchDrives r else matchDrives (d :: r)).
    destruct (capital c && bool_decide (d = colon)) eqn:Hcd.
    + apply andb_true_iff in Hcd as [Hc Hd%bool_decide_eq_true]. subst d.
      rewrite elem_of_cons, (IH r) by lia. split.
      * intros [->|(c' & Hc' & -> & Hin)].
        -- exists c. split; [done|]. split; [done|].
           apply includes_list_spec. by exists [], r.
        -- exists c'. split; [done|]. split; [done|].
           apply includes_list_spec in Hin as (u & v & ->).
           apply includes_list_spec. by exists (c :: colon :: u), v.
      * intros (c' & Hc' & -> & Hin).
        apply includes_list_spec in Hin as (u & v & Hl').
        destruct u as [|u0 [|u1 u]]; simpl in Hl'; simplify_eq.
        -- by left.
        -- right. exists c'.
           split; [done|]. split; [done|]. apply includes_list_spec. by exists u, v.
    + rewrite (IH (d :: r)) by (simpl; lia). split.
      * intros (c' & Hc' & -> & Hin). exists c'. split; [done|]. split; [done|].
        apply includes_list_spec in Hin as (u & v & Hl').
        apply includes_list_spec. exists (c :: u), v. simpl. by rewrite Hl'.
      * intros (c' & Hc' & -> & Hin). exists c'. split; [done|]. split; [done|].
        apply includes_list_spec in Hin as (u & v & Hl').
        destruct u as [|u0 u]; simpl in Hl'; simplify_eq.
        -- rewrite Hc' in Hcd. by rewrite bool_decide_eq_true_2 in Hcd.
        -- apply includes_list_spec. by exists u, v.
Qed.
End drives.

Section places.
Import Drives.

Lemma filter_shift (keep : nat → bool) (l : list nat) :
  List.filter keep (map S l) = map S (List.filter (λ i, keep (S i)) l).
Proof.
  induction l as [|i l IH]; [reflexivity|]. simpl.
  destruct (keep (S i)); simpl; by rewrite IH.
Qed.

Lemma captionPlaces_cons c l :
  captionPlaces (c :: l)
  = (if captionAt (c :: l) 0 then [0%nat] else []) ++ map S (captionPlaces l).
Proof.
  unfold captionPlaces. cbn [length seq List.filter].
  rewrite <-seq_shift, filter_shift.
  by destruct (captionAt (c :: l) 0).
Qed.

(** The matches of [/[A-Z]:/g] are what is found at the places where a
    capital letter is followed by a colon. *)
Lemma matchDrives_places l :
  matchDrives l = map (λ i, take 2 (drop i l)) (captionPlaces l).
Proof.
  remember (length l) as k eqn:Hk. revert l Hk.
  induction k as [k IH] using lt_wf_ind; intros l ->.
  destruct l as [|c [|d r]]; [reflexivity|reflexivity|].
  rewrite captionPlaces_cons.
  change (matchDrives (c :: d :: r))
    with (if capital c && bool_decide (d = colon)
          then [c; d] :: matchDrives r else matchDrives (d :: r)).
  change (captionAt (c :: d :: r) 0) with (capital c && bool_decide (d = colon)).
  destruct (capital c && bool_decide (d = colon)) eqn:Hcd.
  - apply andb_prop in Hcd as [_ Hd%bool_decide_eq_true]. subst d.
    rewrite captionPlaces_cons.
    assert (captionAt (colon :: r) 0 = false) as ->
      by (unfold captionAt; simpl; by destruct r).
    cbn [app map]. rewrite !map_map. cbn [drop take]. f_equal.
    rewrite (IH (length r)) by (simpl; lia || done). reflexivity.
  - cbn [app]. rewrite map_map. cbn [drop].
    by rewrite (IH (length (d :: r))) by (simpl; lia || done).
Qed.
End places.

(** X21 — On Windows, when [wmic] answers, the list of drives reported is
    the list of the places of its output where a capital letter is
    followed by a colon, from left to right, one drive for each place
    (a caption printed twice is reported twice): the drive has the
    letter and the colon as its name and a backslash added for its path.
    When there is no such place the list is empty, and the fallbacks of
    the handler are not used. *)
Theorem wmic_drives_are_the_captions h result :
  Drives.platformOf h = Drives.Win32 →
  Drives.execSync h "wmic logicaldisk get caption" = Some result →
  Drives.drives h
  = map (λ i, {| Drives.name := Some (captionOf (Str.to_list result) i);
                 Drives.path := Some (captionOf (Str.to_list result) i +:+ "\");
                 Drives.type := "local" |})
      (captionPlaces (Str.to_list result))
  ∧ ∀ d, d ∈ Drives.drives h
    ↔ ∃ c, Drives.capital c = true
           ∧ Str.includes result (Str.of_list [c; Drives.colon]) = true
           ∧ d = {| Drives.name := Some (Str.of_list [c; Drives.colon]);
                    Drives.path := Some (Str.of_list [c; Drives.colon] +:+ "\");
                    Drives.type := "local" |}.
Proof.
  intros Hwin Hexec. unfold Drives.drives. rewrite Hwin, Hexec. split.
  { rewrite matchDrives_places, map_map. reflexivity. }
  intros d.
  rewrite list_elem_of_In, in_map_iff. unfold Str.includes. split.
  - intros (x & <- & Hx%list_elem_of_In%elem_of_matchDrives).
    destruct Hx as (c & Hc & -> & Hin). exists c.
    split; [done|]. split; [|done]. by rewrite to_list_of_list.
  - intros (c & Hc & Hin & ->). exists [c; Drives.colon]. split; [done|].
    apply list_elem_of_In, elem_of_matchDrives. exists c.
    split; [done|]. split; [done|]. by rewrite to_list_of_list in Hin.
Qed.

Lemma wmic_drives_are_the_captions_witness :
  Drives.drives twoDrives
  = map (λ i, {| Drives.name := Some (captionOf (Str.to_list "Caption C: D:") i);
                 Drives.path :=
                   Some (captionOf (Str.to_list "Caption C: D:") i +:+ "\");
                 Drives.type := "local" |})
      (captionPlaces (Str.to_list "Caption C: D:"))
  ∧ ∀ d, d ∈ Drives.drives twoDrives
    ↔ ∃ c, Drives.capital c = true
           ∧ Str.includes "Caption C: D:" (Str.of_list [c; Drives.colon]) = true
           ∧ d = {| Drives.name := Some (Str.of_list [c; Drives.colon]);
                    Drives.path := Some (Str.of_list [c; Drives.colon] +:+ "\");
                    Drives.type := "local" |}.
Proof.
  refine (wmic_drives_are_the_captions twoDrives "Caption C: D:" _ _).
  - reflexivity.
  - reflexivity.
Defined.

Section probing.
Import Drives.

Lemma elem_of_probed h d :
  d ∈ flat_map (λ letter,
                  let drivePath := letter +:+ ":" in
                  if accessSync h drivePath then [windowsDrive drivePath] else [])
        commonDrives
  ↔ ∃ letter, letter ∈ commonDrives ∧ accessSync h (letter +:+ ":") = true
              ∧ d = windowsDrive (letter +:+ ":").
Proof.
  rewrite list_elem_of_In, in_flat_map. split.
  - intros (letter & Hletter%list_elem_of_In & Hd). exists letter. cbv zeta in Hd.
    destruct (accessSync h (letter +:+ ":")); [|done].
    destruct Hd as [<-|[]]. done.
  - intros (letter & Hletter & Haccess & ->). exists letter.
    split; [by apply list_elem_of_In|]. cbv zeta. rewrite Haccess. by left.
Qed.
End probing.

(** X22 — On Windows, when [wmic] cannot be run, the handler tries the
    letters C to G: it reports every one of them that can be accessed,
    and nothing else; when none can, it reports [C:] all the same.  The
    answer is never empty, and a drive under another letter is never
    part of it. *)
Theorem probing_reports_C_to_G h :
  Drives.platformOf h = Drives.Win32 →
  Drives.execSync h "wmic logicaldisk get caption" = None →
  Drives.drives h ≠ []
  ∧ (∀ letter, letter ∈ Drives.commonDrives →
       Drives.accessSync h (letter +:+ ":") = true →
       Drives.windowsDrive (letter +:+ ":") ∈ Drives.drives h)
  ∧ (∀ d, d ∈ Drives.drives h →
       ∃ letter,
         letter ∈ Drives.commonDrives ∧ d = Drives.windowsDrive (letter +:+ ":")
         ∧ (Drives.accessSync h (letter +:+ ":") = true
            ∨ (letter = "C"
               ∧ ∀ other, other ∈ Drives.commonDrives →
                          Drives.accessSync h (other +:+ ":") = false))).
Proof.
  intros Hwin Hexec. unfold Drives.drives. rewrite Hwin, Hexec.
  unfold Drives.probeDrives. cbv zeta.
  pose proof (elem_of_probed h) as Hprobed.
  destruct (flat_map _ _) as [|d0 ds] eqn:Hds.
  - split; [done|]. split.
    + intros letter Hletter Haccess.
      assert (Drives.windowsDrive (letter +:+ ":") ∈ @nil Drives.drive) as H
        by (apply Hprobed; eauto).
      by apply elem_of_nil in H.
    + intros d ->%list_elem_of_singleton. exists "C".
      split; [apply list_elem_of_here|]. split; [done|]. right. split; [done|].
      intros other Hother.
      destruct (Drives.accessSync h (other +:+ ":")) eqn:Haccess; [|done].
      assert (Drives.windowsDrive (other +:+ ":") ∈ @nil Drives.drive) as H
        by (apply Hprobed; eauto).
      by apply elem_of_nil in H.
  - split; [done|]. split.
    + intros letter Hletter Haccess. apply Hprobed. eauto.
    + intros d (letter & Hletter & Haccess & ->)%Hprobed. exists letter. auto.
Qed.

Lemma probing_reports_C_to_G_witness :
  Drives.drives onlyE ≠ []
  ∧ (∀ letter, letter ∈ Drives.commonDrives →
       Drives.accessSync onlyE (letter +:+ ":") = true →
       Drives.windowsDrive (letter +:+ ":") ∈ Drives.drives onlyE)
  ∧ (∀ d, d ∈ Drives.drives onlyE →
       ∃ letter,
         letter ∈ Drives.commonDrives ∧ d = Drives.windowsDrive (letter +:+ ":")
         ∧ (Drives.accessSync onlyE (letter +:+ ":") = true
            ∨ (letter = "C"
               ∧ ∀ other, other ∈ Drives.commonDrives →
                          Drives.accessSync onlyE (other +:+ ":") = false))).
Proof.
  refine (probing_reports_C_to_G onlyE _ _).
  - reflexivity.
  - reflexivity.
Defined.

Section df.
Import Drives.

Lemma whiteLength_solid c r : solid c = true → whiteLength (c :: r) = 0%nat.
Proof.
  intros H.
  destruct c as [[] [] [] [] [] [] [] []];
    try (vm_compute in H; discriminate H); reflexivity.
Qed.

Lemma solid_not_newline c : solid c = true → c ≠ newline.
Proof. intros H ->. vm_compute in H. discriminate H. Qed.

Lemma splitSpace_nonempty skip afterSpace l : splitSpace skip afterSpace l ≠ [].
Proof.
  revert skip afterSpace. induction l as [|c r IH]; intros skip afterSpace; [done|].
  cbn [splitSpace]. destruct skip as [|k]; [|apply IH].
  destruct (whiteLength (c :: r)) as [|k].
  - by destruct (splitSpace 0 false r).
  - destruct afterSpace; [apply IH|done].
Qed.

Lemma splitSpace_solid afterSpace c r :
  solid c = true →
  splitSpace 0 afterSpace (c :: r)
  = (c :: default [] (head (splitSpace 0 false r))) :: tail (splitSpace 0 false r).
Proof.
  intros Hc. cbn [splitSpace]. rewrite whiteLength_solid by done.
  pose proof (splitSpace_nonempty 0 false r).
  by destruct (splitSpace 0 false r).
Qed.

Lemma splitSpace_column afterSpace column rest :
  column ≠ [] → Forall (λ c, solid c = true) column →
  splitSpace 0 afterSpace (column ++ rest)
  = (column ++ default [] (head (splitSpace 0 false rest)))
    :: tail (splitSpace 0 false rest).
Proof.
  intros Hne Hcolumn. revert afterSpace.
  induction Hcolumn as [|c column Hc Hcolumn IH]; [done|]. intros afterSpace.
  change ((c :: column) ++ rest) with (c :: (column ++ rest)).
  rewrite splitSpace_solid by done.
  destruct column as [|c' column']; [done|].
  rewrite IH by done. done.
Qed.

Lemma splitSpace_blank afterSpace rest :
  splitSpace 0 afterSpace (" "%char :: rest)
  = if afterSpace then splitSpace 0 true rest else [] :: splitSpace 0 true rest.
Proof. reflexivity. Qed.

Lemma splitSpace_blanks n rest :
  splitSpace 0 true (repeat " "%char n ++ rest) = splitSpace 0 true rest.
Proof.
  induction n as [|n IH]; [done|].
  change (repeat " "%char (S n) ++ rest) with (" "%char :: (repeat " "%char n ++ rest)).
  by rewrite splitSpace_blank.
Qed.

(** A row is cut back into its columns. *)
Lemma splitSpace_spaced afterSpace column more :
  wellFormed (column, more) →
  splitSpace 0 afterSpace (spaced column more) = columns (column, more).
Proof.
  unfold wellFormed, columns. cbn [fst snd].
  revert afterSpace column. induction more as [|[blanks next] more IH];
    intros afterSpace column [[Hne Hcolumn] Hmore]%Forall_cons.
  - simpl. rewrite <-(app_nil_r column) at 1.
    rewrite splitSpace_column by done. simpl. by rewrite app_nil_r.
  - cbn [spaced]. rewrite splitSpace_column by done.
    change (repeat " "%char (S blanks) ++ spaced next more)
      with (" "%char :: (repeat " "%char blanks ++ spaced next more)).
    rewrite splitSpace_blank, splitSpace_blanks, IH by done.
    simpl. by rewrite app_nil_r.
Qed.

Lemma blank_spaced column more :
  wellFormed (column, more) → blank 0 (spaced column more) = false.
Proof.
  intros [[Hne Hcolumn] _]%Forall_cons. cbn [fst] in *.
  destruct Hcolumn as [|c column Hc _]; [done|].
  destruct more as [|[blanks next] more]; cbn [spaced app blank];
    by rewrite whiteLength_solid.
Qed.

Lemma spaced_one_line column more :
  wellFormed (column, more) → newline ∉ spaced column more.
Proof.
  unfold wellFormed, columns. cbn [fst snd].
  revert column. induction more as [|[blanks next] more IH];
    intros column [[Hne Hcolumn] Hmore]%Forall_cons.
  - simpl. intros Hin. eapply Forall_forall in Hcolumn; [|exact Hin].
    by apply solid_not_newline in Hcolumn.
  - cbn [spaced]. rewrite !not_elem_of_app. split; [|split].
    + intros Hin. eapply Forall_forall in Hcolumn; [|exact Hin].
      by apply solid_not_newline in Hcolumn.
    + intros Hin%list_elem_of_In%repeat_spec. discriminate Hin.
    + by apply IH.
Qed.

Lemma split_on_rows rows :
  Forall wellFormed rows →
  Str.split_on newline (flat_map (λ row, spaced (fst row) (snd row) ++ [newline]) rows)
  = map (λ row, spaced (fst row) (snd row)) rows ++ [[]].
Proof.
  induction 1 as [|[column more] rows Hrow _ IH]; [done|].
  simpl flat_map. cbn [fst snd]. rewrite <-app_assoc.
  rewrite split_on_app by by apply spaced_one_line.
  change ([newline] ++ ?l) with (newline :: l).
  cbn [Str.split_on]. rewrite decide_True by done. simpl.
  by rewrite app_nil_r, IH.
Qed.
End df.

(** The test of [wellFormed], as a computation. *)
Lemma wellFormed_check row :
  forallb (λ column, negb (bool_decide (column = [])) && forallb Drives.solid column)
    (Drives.columns row) = true →
  Drives.wellFormed row.
Proof.
  unfold Drives.wellFormed. intros H. apply Forall_forall. intros column Hin.
  rewrite forallb_forall in H. apply list_elem_of_In, H in Hin.
  apply andb_true_iff in Hin as [Hne Hsolid]. split.
  - apply negb_true_iff, bool_decide_eq_false in Hne. done.
  - apply Forall_forall. intros c Hc. rewrite forallb_forall in Hsolid.
    by apply Hsolid, list_elem_of_In.
Qed.


(** X23 — On the other platforms, when [df -h] prints a header and rows of
    columns, the handler reports one drive for every row, in the order
    of the rows, and takes the sixth column for its name and its path:
    what comes after the sixth column is left out (a mount point is cut
    at its first blank), and a row of fewer than six columns gives a
    drive without name and path. *)
Theorem df_rows_give_the_sixth_column h header rows :
  Drives.platformOf h = Drives.OtherPlatform →
  Drives.execSync h "df -h" = Some (Str.of_list (Drives.table header rows)) →
  Drives.newline ∉ header → Forall Drives.wellFormed rows →
  Drives.drives h
  = map (λ row,
           let mount := Str.of_list <$> Drives.columns row !! 5%nat in
           Drives.local mount mount) rows.
Proof.
  intros Hplatform Hexec Hheader Hrows. unfold Drives.drives.
  rewrite Hplatform, Hexec. unfold Drives.unixDrives, Drives.table.
  rewrite to_list_of_list. cbv zeta.
  rewrite split_on_app by done.
  cbn [Str.split_on]. rewrite decide_True by done. cbn [tail head default].
  rewrite split_on_rows by done. cbn [tail]. clear Hexec.
  induction Hrows as [|[column more] rows Hrow _ IH]; [done|].
  cbn [map app]. rewrite filter_cons. cbn [fst snd].
  rewrite blank_spaced by done. rewrite decide_True by done.
  cbn [map]. rewrite IH. f_equal.
  unfold Drives.mountOf. by rewrite splitSpace_spaced.
Qed.

Lemma df_rows_give_the_sixth_column_witness :
  Drives.drives linuxBox
  = map (λ row,
           let mount := Str.of_list <$> Drives.columns row !! 5%nat in
           Drives.local mount mount) dfRows.
Proof.
  refine (df_rows_give_the_sixth_column linuxBox dfHeader dfRows _ _ _ _).
  - reflexivity.
  - reflexivity.
  - vm_compute. intros H.
    repeat (apply elem_of_cons in H as [H|H]; [discriminate H|]);
      by apply elem_of_nil in H.
  - unfold dfRows.
    repeat (apply List.Forall_cons;
            [apply wellFormed_check; vm_compute; reflexivity|]).
    apply List.Forall_nil.
Defined.
